(** * libmpc: problem assembly and control-horizon mapping

    A shallow embedding of [include/mpc/Mapping.hpp],
    [include/mpc/ProblemBuilder.hpp], [include/mpc/NLOptimizer.hpp] and
    [include/mpc/LMPC.hpp], followed by the properties established about them.

    Conventions of the embedding.
    - The scalar type ([double] in the source) is a parameter [T] carrying the
      arithmetic operations the code uses ([Scalar]).  The structural results
      hold for every such [T], binary64 included; the results that need
      algebraic laws state them as hypotheses.
    - A dense Eigen matrix is its two sizes and its coefficient function, a
      column vector its size and its coefficient function.  Eigen checks index
      ranges by assertion only; the coefficient function is total and the
      sizes are carried beside it.
    - Problem sizes ([dim.nx.num()], ...) are natural numbers.
    - A [for] loop counting upward is [for_upto]/[for_range]; the loop body
      receives the loop index and the variables the loop assigns. *)

From Stdlib Require Import Arith Bool List Lia ZArith String Ring Floats.
Import ListNotations.

Set Implicit Arguments.

(** The arithmetic of the scalar type as the source uses it. *)
Class Scalar (T : Type) : Type := {
  szero : T;
  sone : T;
  sadd : T -> T -> T;
  ssub : T -> T -> T;
  smul : T -> T -> T;
  sdiv : T -> T -> T;
  sopp : T -> T
}.

(** ** Counting loops *)

(** [for (i = 0; i < n; i++) body]: runs [body 0], ..., [body (n-1)] in order. *)
Fixpoint for_upto {S : Type} (n : nat) (body : nat -> S -> S) (s : S) : S :=
  match n with
  | O => s
  | Datatypes.S k => body k (for_upto k body s)
  end.

(** [for (i = lo; i < hi; i++) body]. *)
Definition for_range {S : Type} (lo hi : nat) (body : nat -> S -> S) (s : S) : S :=
  for_upto (hi - lo) (fun k => body (lo + k)) s.

(** The sum of [f 0], ..., [f (n-1)], accumulated from the left. *)
Fixpoint ssum {T : Type} `{Scalar T} (n : nat) (f : nat -> T) : T :=
  match n with
  | O => szero
  | Datatypes.S k => sadd (ssum k f) (f k)
  end.

(** ** Dense matrices and vectors (the part of Eigen the sources use) *)

Module Eigen.
Section Dense.
Context {T : Type} {ST : Scalar T}.

Record mat : Type := mkMat { rows : nat; cols : nat; coef : nat -> nat -> T }.
Record cvec : Type := mkVec { size : nat; at_ : nat -> T }.

(** A freshly declared object: its sizes are set by [resize]; every
    coefficient is assigned before it is read in the code modelled here. *)
Definition fresh_mat : mat := mkMat 0 0 (fun _ _ => szero).
Definition fresh_vec : cvec := mkVec 0 (fun _ => szero).

(** [M.resize(r, c)]: Eigen leaves the coefficients unspecified; each use in
    the code modelled here is followed by an assignment of every coefficient
    ([setZero], [setOnes], [setIdentity] or blocks that cover the object). *)
Definition resize (r c : nat) (M : mat) : mat := mkMat r c (coef M).
Definition vresize (n : nat) (v : cvec) : cvec := mkVec n (at_ v).

Definition setZero (M : mat) : mat := mkMat (rows M) (cols M) (fun _ _ => szero).
Definition vsetZero (v : cvec) : cvec := mkVec (size v) (fun _ => szero).
Definition vsetOnes (v : cvec) : cvec := mkVec (size v) (fun _ => sone).
Definition setIdentity (M : mat) : mat :=
  mkMat (rows M) (cols M) (fun i j => if i =? j then sone else szero).

(** [M(i, j) = x]. *)
Definition setCoef (M : mat) (i j : nat) (x : T) : mat :=
  mkMat (rows M) (cols M)
    (fun i' j' => if (i' =? i) && (j' =? j) then x else coef M i' j').
(** [v(i) = x] (also [v[i] = x] on a [std::vector]). *)
Definition vsetCoef (v : cvec) (i : nat) (x : T) : cvec :=
  mkVec (size v) (fun k => if k =? i then x else at_ v k).

Definition in_block (r0 c0 h w i j : nat) : bool :=
  (r0 <=? i) && (i <? r0 + h) && (c0 <=? j) && (j <? c0 + w).

(** [M.block(r0, c0, h, w)] read as a matrix expression. *)
Definition block (M : mat) (r0 c0 h w : nat) : mat :=
  mkMat h w (fun i j => coef M (r0 + i) (c0 + j)).
(** [M.block(r0, c0, h, w) = B]. *)
Definition setBlock (M : mat) (r0 c0 h w : nat) (B : mat) : mat :=
  mkMat (rows M) (cols M)
    (fun i j => if in_block r0 c0 h w i j then coef B (i - r0) (j - c0) else coef M i j).
(** [M.block(r0, c0, h, w).setZero()] and [.setIdentity()]. *)
Definition setBlockZero (M : mat) (r0 c0 h w : nat) : mat :=
  mkMat (rows M) (cols M)
    (fun i j => if in_block r0 c0 h w i j then szero else coef M i j).
Definition setBlockIdentity (M : mat) (r0 c0 h w : nat) : mat :=
  mkMat (rows M) (cols M)
    (fun i j => if in_block r0 c0 h w i j
                then (if i - r0 =? j - c0 then sone else szero) else coef M i j).

Definition transpose (M : mat) : mat := mkMat (cols M) (rows M) (fun i j => coef M j i).
Definition mopp (M : mat) : mat := mkMat (rows M) (cols M) (fun i j => sopp (coef M i j)).
Definition madd (A B : mat) : mat :=
  mkMat (rows A) (cols A) (fun i j => sadd (coef A i j) (coef B i j)).
(** [A * B]. *)
Definition mmul (A B : mat) : mat :=
  mkMat (rows A) (cols B) (fun i j => ssum (cols A) (fun k => smul (coef A i k) (coef B k j))).
(** [A * v]. *)
Definition mulmv (A : mat) (v : cvec) : cvec :=
  mkVec (rows A) (fun i => ssum (cols A) (fun k => smul (coef A i k) (at_ v k))).

(** [M.middleRows(r0, h)] of a matrix, [M.col(j)], [M.row(i)]. *)
Definition middleRowsM (M : mat) (r0 h : nat) : mat := block M r0 0 h (cols M).
Definition col (M : mat) (j : nat) : cvec := mkVec (rows M) (fun i => coef M i j).
Definition row (M : mat) (i : nat) : cvec := mkVec (cols M) (fun j => coef M i j).
(** [M.col(j) = v], [M.row(i) = v] (a row receives the transposed vector). *)
Definition setCol (M : mat) (j : nat) (v : cvec) : mat :=
  mkMat (rows M) (cols M)
    (fun i j' => if (j' =? j) && (i <? rows M) then at_ v i else coef M i j').
Definition setRow (M : mat) (i : nat) (v : cvec) : mat :=
  mkMat (rows M) (cols M)
    (fun i' j => if (i' =? i) && (j <? cols M) then at_ v j else coef M i' j).
(** [M.col(j) /= x]. *)
Definition divCol (M : mat) (j : nat) (x : T) : mat :=
  mkMat (rows M) (cols M)
    (fun i j' => if (j' =? j) && (i <? rows M) then sdiv (coef M i j') x else coef M i j').
(** [M.middleRows(r0, h) = B] on a matrix. *)
Definition setMiddleRowsM (M : mat) (r0 h : nat) (B : mat) : mat :=
  setBlock M r0 0 h (cols M) B.

(** [v.middleRows(r0, h)] of a vector, and the assignments to it. *)
Definition middleRows (v : cvec) (r0 h : nat) : cvec := mkVec h (fun k => at_ v (r0 + k)).
Definition in_rows (r0 h k : nat) : bool := (r0 <=? k) && (k <? r0 + h).
Definition setMiddleRows (v : cvec) (r0 h : nat) (src : cvec) : cvec :=
  mkVec (size v) (fun k => if in_rows r0 h k then at_ src (k - r0) else at_ v k).
(** [v.middleRows(r0, h) -= src]. *)
Definition subMiddleRows (v : cvec) (r0 h : nat) (src : cvec) : cvec :=
  mkVec (size v)
    (fun k => if in_rows r0 h k then ssub (at_ v k) (at_ src (k - r0)) else at_ v k).

Definition vopp (v : cvec) : cvec := mkVec (size v) (fun k => sopp (at_ v k)).
Definition vadd (a b : cvec) : cvec := mkVec (size a) (fun k => sadd (at_ a k) (at_ b k)).
(** [v * x], a vector times a scalar. *)
Definition vscale (v : cvec) (x : T) : cvec := mkVec (size v) (fun k => smul (at_ v k) x).
(** [v.cwiseInverse()]. *)
Definition cwiseInverse (v : cvec) : cvec := mkVec (size v) (fun k => sdiv sone (at_ v k)).
(** [v << a, b]: the comma initializer filling [v] with [a] then [b]. *)
Definition commaInit (v a b : cvec) : cvec :=
  mkVec (size v) (fun k => if k <? size a then at_ a k else at_ b (k - size a)).

(** [v.asDiagonal()] assigned to a dense block, and [v.asDiagonal() * x]. *)
Definition asDiagonal (v : cvec) : mat :=
  mkMat (size v) (size v) (fun i j => if i =? j then at_ v i else szero).
Definition diagMulVec (d x : cvec) : cvec :=
  mkVec (size d) (fun k => smul (at_ d k) (at_ x k)).

(** [kroneckerProduct(A, B)]. *)
Definition kroneckerProduct (A B : mat) : mat :=
  mkMat (rows A * rows B) (cols A * cols B)
    (fun i j => smul (coef A (i / rows B) (j / cols B)) (coef B (i mod rows B) (j mod cols B))).

(** [Eigen::Map<mat>(data, r, c)] over column-major storage, and the converse
    view of a matrix's storage as one vector. *)
Definition mapMat (data : cvec) (r c : nat) : mat :=
  mkMat r c (fun i j => at_ data (j * r + i)).
Definition mapVec (M : mat) (n : nat) : cvec :=
  mkVec n (fun k => coef M (k mod rows M) (k / rows M)).

End Dense.
Arguments mat : clear implicits.
Arguments cvec : clear implicits.
End Eigen.
Import Eigen.

(** ** Common.hpp: dimensions and the initialisation guard *)

Module Common.

Record Dims : Type := mkDims {
  nx : nat; nu : nat; ndu : nat; ny : nat; ph : nat; ch : nat
}.

(** Modelled from the spec: [Common::checkOrQuit], declared in Common.hpp,
    a header outside the four modelled here.  A call made before the object
    is initialised is a fatal precondition violation that aborts the call
    path: [None] stands for that abort. *)
Definition checkOrQuit {S : Type} (initialized : bool) (k : S) : option S :=
  if initialized then Some k else None.

End Common.

(** ** Mapping.hpp: the control-horizon mapping *)

Module Mapping.
Import Common.
Section Defs.
Context {T : Type} {ST : Scalar T}.

Record t : Type := mk {
  dim : Dims;
  initialized : bool;
  input_scaling : cvec T;
  state_scaling : cvec T;
  inverse_state_scaling : cvec T;
  Iz2uMat : mat T;
  Iu2zMat : mat T;
  Sz2uMat : mat T;
  Su2zMat : mat T
}.

(** The replication counts [m] of [computeMapping] (the first lines of the
    method).  [m] holds whole numbers and bounds the inner loop; for
    [ch <= ph] the natural number [ph - ch + 1] is the value the source
    computes. *)
Definition replicationCounts (d : Dims) : cvec nat :=
  let m := vresize (ch d) (mkVec 0 (fun _ => 0)) in
  let m := for_upto (ch d) (fun i m => vsetCoef m i 1) m in
  vsetCoef m (ch d - 1) (ph d - ch d + 1).

(** The variables assigned by the filling loop of [computeMapping]. *)
Record fill : Type := mkFill { ix : nat; jx : nat; fIz2u : mat T; fIu2z : mat T }.

(** One iteration of the inner filling loop: it assigns [jx] and [Iz2uMat]. *)
Definition fillInner (n : nat) (Sz2u : mat T) (i0 : nat) (s : nat * mat T) : nat * mat T :=
  (fst s + n, setBlock (snd s) (fst s) i0 n n Sz2u).

Definition fillOuter (n : nat) (m : cvec nat) (Sz2u Su2z : mat T) (i : nat) (s : fill) : fill :=
  let Iu2z := setBlock (fIu2z s) (ix s) (jx s) n n Su2z in
  let r := for_upto (at_ m i) (fun _ => fillInner n Sz2u (ix s)) (jx s, fIz2u s) in
  mkFill (ix s + n) (fst r) (snd r) Iu2z.

(** One iteration of the loop that fills [Sz2uMat] and [Su2zMat]. *)
Definition scalingStep (scaling : cvec T) (i : nat) (s : mat T * mat T) : mat T * mat T :=
  (setCoef (fst s) i i (at_ scaling i),
   setCoef (snd s) i i (sdiv sone (at_ scaling i))).

Definition computeMapping (mp : t) : t :=
  let d := dim mp in
  let m := replicationCounts d in
  let Iz2u := setZero (Iz2uMat mp) in
  let Iu2z := transpose Iz2u in
  let Sz2u := setZero (Sz2uMat mp) in
  let Su2z := setZero (Su2zMat mp) in
  let S := for_upto (rows Sz2u) (scalingStep (input_scaling mp)) (Sz2u, Su2z) in
  let Sz2u := fst S in
  let Su2z := snd S in
  let f := for_upto (ch d) (fillOuter (nu d) m Sz2u Su2z) (mkFill 0 0 Iz2u Iu2z) in
  mk d (initialized mp) (input_scaling mp) (state_scaling mp) (inverse_state_scaling mp)
     (fIz2u f) (fIu2z f) Sz2u Su2z.

Definition onInit (mp : t) : t :=
  let d := dim mp in
  let mp :=
    mk d (initialized mp)
       (vsetOnes (vresize (nu d) (input_scaling mp)))
       (vsetOnes (vresize (nx d) (state_scaling mp)))
       (vsetOnes (vresize (nx d) (inverse_state_scaling mp)))
       (resize (ph d * nu d) (nu d * ch d) (Iz2uMat mp))
       (resize (nu d * ch d) (ph d * nu d) (Iu2zMat mp))
       (resize (nu d) (nu d) (Sz2uMat mp))
       (resize (nu d) (nu d) (Su2zMat mp)) in
  computeMapping mp.

(** Modelled from the spec: [Common::initialize], declared in Common.hpp, a
    header outside the four modelled here: it records the dimensions, runs
    the [onInit] hook and marks the object initialised. *)
Definition initialize (d : Dims) : t :=
  let mp := onInit (mk d false fresh_vec fresh_vec fresh_vec
                       fresh_mat fresh_mat fresh_mat fresh_mat) in
  mk (dim mp) true (input_scaling mp) (state_scaling mp) (inverse_state_scaling mp)
     (Iz2uMat mp) (Iu2zMat mp) (Sz2uMat mp) (Su2zMat mp).

Definition setInputScaling (scaling : cvec T) (mp : t) : t :=
  computeMapping
    (mk (dim mp) (initialized mp) scaling (state_scaling mp) (inverse_state_scaling mp)
        (Iz2uMat mp) (Iu2zMat mp) (Sz2uMat mp) (Su2zMat mp)).

Definition setStateScaling (scaling : cvec T) (mp : t) : t :=
  mk (dim mp) (initialized mp) (input_scaling mp) scaling (cwiseInverse scaling)
     (Iz2uMat mp) (Iu2zMat mp) (Sz2uMat mp) (Su2zMat mp).

Definition Iz2u (mp : t) : option (mat T) := checkOrQuit (initialized mp) (Iz2uMat mp).
Definition Iu2z (mp : t) : option (mat T) := checkOrQuit (initialized mp) (Iu2zMat mp).

(** [unwrapVector(x, x0, Xmat, Umat, slack)]: the three reference parameters
    are returned, [Xmat] and [Umat] keeping the sizes the caller gave them. *)
Definition unwrapVector (mp : t) (x x0 : cvec T) (Xmat Umat : mat T)
  : option (mat T * mat T * T) :=
  checkOrQuit (initialized mp)
    (let d := dim mp in
     let u_vec := middleRows x (ph d * nx d) (nu d * ch d) in
     let Umv := resize (ph d + 1) (nu d) fresh_mat in
     let tmp_mult := mulmv (Iz2uMat mp) u_vec in
     let tmp_mapped := mapMat tmp_mult (nu d) (ph d) in
     let Umv := setZero Umv in
     let Umv := setMiddleRowsM Umv 0 (ph d) (transpose tmp_mapped) in
     let Umv := setRow Umv (ph d) (row Umv (ph d - 1)) in
     let Xmat := setZero Xmat in
     let Xmat := setRow Xmat 0 x0 in
     let Xmat :=
       for_range 1 (ph d + 1)
         (fun i X => setRow X i (middleRows x ((i - 1) * nx d) (nx d))) Xmat in
     let Xmat :=
       for_upto (cols Xmat)
         (fun i X => divCol X i (sdiv sone (at_ (state_scaling mp) i))) Xmat in
     let Umat := setZero Umat in
     let Umat := setBlock Umat 0 0 (ph d + 1) (nu d) Umv in
     let slack := at_ x (size x - 1) in
     (Xmat, Umat, slack)).

End Defs.
Arguments t : clear implicits.
Arguments fill : clear implicits.
End Mapping.

(** ** ProblemBuilder.hpp: the linear problem builder *)

Module ProblemBuilder.
Import Common.
Section Defs.
Context {T : Type} {ST : Scalar T}.

(** [inf] is the constant of Types.hpp, a header outside the four modelled
    here, that the builder uses for an absent bound; it is a parameter. *)
Variable inf : T.

(** The solver-facing bundle. *)
Record Problem : Type := mkProblem {
  P : mat T; q : cvec T; A : mat T; l : cvec T; u : cvec T
}.

Record t : Type := mk {
  dim : Dims;
  initialized : bool;
  ssA : mat T; ssB : mat T; ssC : mat T;
  ssBv : mat T; ssDv : mat T;
  wOutput : mat T; wU : mat T; wDeltaU : mat T;
  minX : mat T; maxX : mat T;
  minY : mat T; maxY : mat T;
  minU : mat T; maxU : mat T;
  mpcProblem : Problem;
  leq : cvec T; ueq : cvec T;
  lineq : cvec T; uineq : cvec T
}.

(** Sizes that recur in the source: the rows of the equality part, of the
    inequality part, and the number of decision variables. *)
Definition nEq (d : Dims) : nat := (ph d + 1) * (nu d + nx d).
Definition nIneq (d : Dims) : nat :=
  (ph d + 1) * (nu d + nx d) + ((ph d + 1) * ny d + ph d * nu d).
Definition nVar (d : Dims) : nat := (ph d + 1) * (nu d + nx d) + ph d * nu d.

(** Assignments to groups of members. *)
Definition withModel (b : t) (a' b' c' : mat T) : t :=
  mk (dim b) (initialized b) a' b' c' (ssBv b) (ssDv b) (wOutput b) (wU b) (wDeltaU b)
     (minX b) (maxX b) (minY b) (maxY b) (minU b) (maxU b)
     (mpcProblem b) (leq b) (ueq b) (lineq b) (uineq b).
Definition withExogenous (b : t) (bv dv : mat T) : t :=
  mk (dim b) (initialized b) (ssA b) (ssB b) (ssC b) bv dv (wOutput b) (wU b) (wDeltaU b)
     (minX b) (maxX b) (minY b) (maxY b) (minU b) (maxU b)
     (mpcProblem b) (leq b) (ueq b) (lineq b) (uineq b).
Definition withWeights (b : t) (wo wu wd : mat T) : t :=
  mk (dim b) (initialized b) (ssA b) (ssB b) (ssC b) (ssBv b) (ssDv b) wo wu wd
     (minX b) (maxX b) (minY b) (maxY b) (minU b) (maxU b)
     (mpcProblem b) (leq b) (ueq b) (lineq b) (uineq b).
Definition withBounds (b : t) (xl xu yl yu ul uu : mat T) : t :=
  mk (dim b) (initialized b) (ssA b) (ssB b) (ssC b) (ssBv b) (ssDv b)
     (wOutput b) (wU b) (wDeltaU b) xl xu yl yu ul uu
     (mpcProblem b) (leq b) (ueq b) (lineq b) (uineq b).
Definition withProblem (b : t) (p : Problem) (le ue li ui : cvec T) : t :=
  mk (dim b) (initialized b) (ssA b) (ssB b) (ssC b) (ssBv b) (ssDv b)
     (wOutput b) (wU b) (wDeltaU b)
     (minX b) (maxX b) (minY b) (maxY b) (minU b) (maxU b) p le ue li ui.

Definition onInit (b : t) : t :=
  let d := dim b in
  let z r c M := setZero (resize r c M) in
  let zv n v := vsetZero (vresize n v) in
  let p := mpcProblem b in
  mk d (initialized b)
     (z (nu d + nx d) (nu d + nx d) (ssA b))
     (z (nu d + nx d) (nu d) (ssB b))
     (z (nu d + ny d) (nu d + nx d) (ssC b))
     (z (nu d + nx d) (ndu d) (ssBv b))
     (z (nu d + ny d) (ndu d) (ssDv b))
     (z (ny d) (ph d + 1) (wOutput b))
     (z (nu d) (ph d + 1) (wU b))
     (z (nu d) (ph d) (wDeltaU b))
     (z (nx d) (ph d + 1) (minX b))
     (z (nx d) (ph d + 1) (maxX b))
     (z (ny d) (ph d + 1) (minY b))
     (z (ny d) (ph d + 1) (maxY b))
     (z (nu d) (ph d) (minU b))
     (z (nu d) (ph d) (maxU b))
     (mkProblem
        (z (nVar d) (nVar d) (P p))
        (zv (nVar d) (q p))
        (z (nEq d + nIneq d) (nVar d) (A p))
        (zv (nEq d + nIneq d) (l p))
        (zv (nEq d + nIneq d) (u p)))
     (zv (nEq d) (leq b))
     (zv (nEq d) (ueq b))
     (zv (nIneq d) (lineq b))
     (zv (nIneq d) (uineq b)).

(** Modelled from the spec: [Common::initialize], declared in Common.hpp, a
    header outside the four modelled here: it records the dimensions, runs
    the [onInit] hook and marks the object initialised. *)
Definition initialize (d : Dims) : t :=
  let b := onInit (mk d false fresh_mat fresh_mat fresh_mat fresh_mat fresh_mat
                      fresh_mat fresh_mat fresh_mat fresh_mat fresh_mat fresh_mat
                      fresh_mat fresh_mat fresh_mat
                      (mkProblem fresh_mat fresh_vec fresh_mat fresh_vec fresh_vec)
                      fresh_vec fresh_vec fresh_vec fresh_vec) in
  mk (dim b) true (ssA b) (ssB b) (ssC b) (ssBv b) (ssDv b) (wOutput b) (wU b) (wDeltaU b)
     (minX b) (maxX b) (minY b) (maxY b) (minU b) (maxU b)
     (mpcProblem b) (leq b) (ueq b) (lineq b) (uineq b).

(** *** buildTITerms, by its parts *)

(** The weight of one horizon step, [wExtendedState] after its two blocks
    are assigned in iteration [i]. *)
Definition stepWeight (d : Dims) (wo wu : mat T) (i : nat) (W : mat T) : mat T :=
  let W := setBlock W 0 0 (ny d) (ny d) (asDiagonal (col wo i)) in
  setBlock W (ny d) (ny d) (nu d) (nu d) (asDiagonal (col wu i)).

(** The loop that fills [mpcProblem.P]; it assigns [wExtendedState] and [P]. *)
Definition buildP_body (b : t) (i : nat) (s : mat T * mat T) : mat T * mat T :=
  let d := dim b in
  let W := stepWeight d (wOutput b) (wU b) i (fst s) in
  let Pm :=
    setBlock (snd s) (i * (nu d + nx d)) (i * (nu d + nx d)) (nu d + nx d) (nu d + nx d)
      (mmul (mmul (transpose (ssC b)) W) (ssC b)) in
  let Pm :=
    if i <? ph d then
      setBlock Pm ((ph d + 1) * (nu d + nx d) + i * nu d)
        ((ph d + 1) * (nu d + nx d) + i * nu d) (nu d) (nu d)
        (asDiagonal (col (wDeltaU b) i))
    else Pm in
  (W, Pm).

Definition buildP (b : t) : mat T :=
  let d := dim b in
  let W := setZero (resize (nu d + ny d) (nu d + ny d) fresh_mat) in
  let Pm := setZero (P (mpcProblem b)) in
  snd (for_upto (ph d + 1) (buildP_body b) (W, Pm)).

(** The equality part of the constraint matrix. *)
Definition buildAeq (b : t) : mat T :=
  let d := dim b in
  let Aeq := resize (nEq d) (nEq d + ph d * nu d) fresh_mat in
  let augId := setZero (resize (ph d + 1) (ph d + 1) fresh_mat) in
  let augId := setBlockIdentity augId 1 0 (ph d) (ph d) in
  let predHId := setIdentity (resize (ph d + 1) (ph d + 1) fresh_mat) in
  let extSpaceId := setIdentity (resize (nu d + nx d) (nu d + nx d) fresh_mat) in
  let Aeq :=
    setBlock Aeq 0 0 (nEq d) (nEq d)
      (madd (kroneckerProduct predHId (mopp extSpaceId))
            (kroneckerProduct augId (ssA b))) in
  let idenBd := setZero (resize (ph d + 1) (ph d) fresh_mat) in
  let idenBd := setBlockIdentity idenBd 1 0 (ph d) (ph d) in
  setBlock Aeq 0 (nEq d) (nEq d) (ph d * nu d) (kroneckerProduct idenBd (ssB b)).

(** The inequality part of the constraint matrix. *)
Definition buildAineq (b : t) : mat T :=
  let d := dim b in
  let predHId := setIdentity (resize (ph d + 1) (ph d + 1) fresh_mat) in
  let Aineq := setZero (resize (nIneq d) (nVar d) fresh_mat) in
  let Aineq := setBlockIdentity Aineq 0 0 (nEq d) (nEq d) in
  let Aineq :=
    setBlock Aineq (nEq d) 0 ((ph d + 1) * ny d) (nEq d)
      (kroneckerProduct predHId (middleRowsM (ssC b) 0 (ny d))) in
  setBlockIdentity Aineq (nEq d + (ph d + 1) * ny d) (nEq d) (ph d * nu d) (ph d * nu d).

(** The loop that stacks the state and input bounds into [eMinX]/[eMaxX]
    (called once with the lower and once with the upper bounds). *)
Definition stackBounds_body (d : Dims) (bx bu : mat T) (i : nat) (e : cvec T) : cvec T :=
  let tmpU := if i =? ph d then col bu (i - 1) else col bu i in
  let seg := middleRows e (i * (nu d + nx d)) (nu d + nx d) in
  setMiddleRows e (i * (nu d + nx d)) (nu d + nx d) (commaInit seg (col bx i) tmpU).

Definition stackBounds (d : Dims) (bx bu : mat T) : cvec T :=
  for_upto (ph d + 1) (stackBounds_body d bx bu) (vresize (nEq d) fresh_vec).

(** The loop that sets the rate rows of [lineq] and [uineq]. *)
Definition rateBounds_body (d : Dims) (i : nat) (s : cvec T * cvec T) : cvec T * cvec T :=
  let deltaU := vsetOnes (vresize (nu d) fresh_vec) in
  let minDeltaU := if ch d <? i then szero else sopp inf in
  let maxDeltaU := if ch d <? i then szero else inf in
  (setMiddleRows (fst s) (nEq d + (ph d + 1) * ny d + i * nu d) (nu d)
     (vscale deltaU minDeltaU),
   setMiddleRows (snd s) (nEq d + (ph d + 1) * ny d + i * nu d) (nu d)
     (vscale deltaU maxDeltaU)).

Definition buildTITerms (b : t) : bool * t :=
  let d := dim b in
  let Pm := buildP b in
  let Aeq := buildAeq b in
  let Aineq := buildAineq b in
  let eMinX := stackBounds d (minX b) (minU b) in
  let eMaxX := stackBounds d (maxX b) (maxU b) in
  let li := setMiddleRows (lineq b) 0 (nEq d) eMinX in
  let li :=
    setMiddleRows li (nEq d) ((ph d + 1) * ny d)
      (mapVec (minY b) (rows (minY b) * cols (minY b))) in
  let ui := setMiddleRows (uineq b) 0 (nEq d) eMaxX in
  let ui :=
    setMiddleRows ui (nEq d) ((ph d + 1) * ny d)
      (mapVec (maxY b) (rows (maxY b) * cols (maxY b))) in
  let rb := for_upto (ph d) (rateBounds_body d) (li, ui) in
  let li := fst rb in
  let ui := snd rb in
  let Am := setZero (A (mpcProblem b)) in
  let Am := setBlock Am 0 0 (nEq d) (nEq d + ph d * nu d) Aeq in
  let Am := setBlock Am (nEq d) 0 (nIneq d) (nVar d) Aineq in
  let p := mpcProblem b in
  (true, withProblem b (mkProblem Pm (q p) Am (l p) (u p)) (leq b) (ueq b) li ui).

(** *** The setters *)

Definition setStateModel (Am Bm Cm : mat T) (b : t) : option (bool * t) :=
  checkOrQuit (initialized b)
    (let d := dim b in
     let a := setBlock (ssA b) 0 0 (nx d) (nx d) Am in
     let a := setBlock a 0 (nx d) (nx d) (nu d) Bm in
     let a := setBlockZero a (nx d) 0 (nu d) (nx d) in
     let a := setBlockIdentity a (nx d) (nx d) (nu d) (nu d) in
     let b' := setBlock (ssB b) 0 0 (nx d) (nu d) Bm in
     let b' := setBlockIdentity b' (nx d) 0 (nu d) (nu d) in
     let c := setBlock (ssC b) 0 0 (ny d) (nx d) Cm in
     let c := setBlockIdentity c (ny d) (nx d) (nu d) (nu d) in
     buildTITerms (withModel b a b' c)).

Definition setExogenuosInput (Bm Dm : mat T) (b : t) : option (bool * t) :=
  checkOrQuit (initialized b)
    (let d := dim b in
     let bv := setBlock (setZero (ssBv b)) 0 0 (nx d) (ndu d) Bm in
     let dv := setBlock (setZero (ssDv b)) 0 0 (ny d) (ndu d) Dm in
     buildTITerms (withExogenous b bv dv)).

Definition setObjective (OWeight UWeight DeltaUWeight : mat T) (b : t) : option (bool * t) :=
  checkOrQuit (initialized b)
    (buildTITerms (withWeights b OWeight UWeight DeltaUWeight)).

Definition setConstraints (XMin UMin YMin XMax UMax YMax : mat T) (b : t)
  : option (bool * t) :=
  checkOrQuit (initialized b)
    (let d := dim b in
     let xl := setBlock (minX b) 0 1 (nx d) (ph d) XMin in
     let xl := setCol xl 0 (col XMin 0) in
     let xu := setBlock (maxX b) 0 1 (nx d) (ph d) XMax in
     let xu := setCol xu 0 (col XMax 0) in
     let yl := setBlock (minY b) 0 1 (ny d) (ph d) YMin in
     let yl := setCol yl 0 (col YMin 0) in
     let yu := setBlock (maxY b) 0 1 (ny d) (ph d) YMax in
     let yu := setCol yu 0 (col YMax 0) in
     buildTITerms (withBounds b xl xu yl yu UMin UMax)).

(** *** get *)

(** The variables assigned by the loop of [get]: [wExtendedState],
    [mpcProblem.q], [leq], [lineq] and [uineq]. *)
Record stepVars : Type := mkStep {
  sW : mat T; sq : cvec T; sleq : cvec T; slineq : cvec T; suineq : cvec T
}.

Definition get_body (b : t) (eRef deltaURef uMeas : cvec T) (i : nat) (s : stepVars)
  : stepVars :=
  let d := dim b in
  let W := stepWeight d (wOutput b) (wU b) i (sW s) in
  let qv :=
    setMiddleRows (sq s) (i * (nx d + nu d)) (nx d + nu d)
      (mulmv (mmul (transpose (ssC b)) W) (vadd (vopp eRef) (mulmv (ssDv b) uMeas))) in
  let qv :=
    if i <? ph d then
      setMiddleRows qv ((ph d + 1) * (nu d + nx d) + i * nu d) (nu d)
        (vopp (diagMulVec (col (wDeltaU b) i) deltaURef))
    else qv in
  let le :=
    if 0 <? i then
      setMiddleRows (sleq s) (i * (nx d + nu d)) (nx d + nu d)
        (mulmv (mopp (ssBv b)) uMeas)
    else sleq s in
  let li :=
    subMiddleRows (slineq s) (i * ny d + (ph d + 1) * (nu d + nx d)) (ny d)
      (mulmv (block (ssDv b) 0 0 (ny d) (ndu d)) uMeas) in
  let ui :=
    subMiddleRows (suineq s) (i * ny d + (ph d + 1) * (nu d + nx d)) (ny d)
      (mulmv (block (ssDv b) 0 0 (ny d) (ndu d)) uMeas) in
  mkStep W qv le li ui.

(** [get(x0, u0, yRef, uRef, deltaURef, uMeas)]: the returned reference
    designates the builder's own [mpcProblem]; both are given back.  The
    source leaves the second parameter unnamed. *)
Definition get (x0 u0 yRef uRef deltaURef uMeas : cvec T) (b : t) : Problem * t :=
  let d := dim b in
  let W := setZero (resize (ny d + nu d) (ny d + nu d) fresh_mat) in
  let eRef := commaInit (vresize (ny d + nu d) fresh_vec) yRef uRef in
  let p := mpcProblem b in
  let s :=
    for_upto (ph d + 1) (get_body b eRef deltaURef uMeas)
      (mkStep W (vsetZero (q p)) (vsetZero (leq b)) (lineq b) (uineq b)) in
  let le := setMiddleRows (sleq s) 0 (nx d) (vopp x0) in
  let ue := le in
  let lv := vsetZero (l p) in
  let uv := vsetZero (u p) in
  let lv := setMiddleRows lv 0 ((ph d + 1) * (nu d + nx d)) le in
  let uv := setMiddleRows uv 0 ((ph d + 1) * (nu d + nx d)) ue in
  let lv :=
    setMiddleRows lv ((ph d + 1) * (nu d + nx d))
      ((ph d + 1) * (nu d + nx d) + (ph d + 1) * ny d + ph d * nu d) (slineq s) in
  let uv :=
    setMiddleRows uv ((ph d + 1) * (nu d + nx d))
      ((ph d + 1) * (nu d + nx d) + (ph d + 1) * ny d + ph d * nu d) (suineq s) in
  let p' := mkProblem (P p) (sq s) (A p) lv uv in
  (p', withProblem b p' le ue (slineq s) (suineq s)).

(** *** Sequences of calls on one builder *)

Inductive call : Type :=
| SetStateModel (Am Bm Cm : mat T)
| SetExogenuosInput (Bm Dm : mat T)
| SetObjective (OWeight UWeight DeltaUWeight : mat T)
| SetConstraints (XMin UMin YMin XMax UMax YMax : mat T)
| Get (x0 u0 yRef uRef deltaURef uMeas : cvec T).

Definition perform (c : call) (b : t) : option t :=
  match c with
  | SetStateModel Am Bm Cm => option_map snd (setStateModel Am Bm Cm b)
  | SetExogenuosInput Bm Dm => option_map snd (setExogenuosInput Bm Dm b)
  | SetObjective wo wu wd => option_map snd (setObjective wo wu wd b)
  | SetConstraints xl ul yl xu uu yu => option_map snd (setConstraints xl ul yl xu uu yu b)
  | Get x0 u0 yRef uRef deltaURef uMeas => Some (snd (get x0 u0 yRef uRef deltaURef uMeas b))
  end.

Fixpoint performAll (cs : list call) (b : t) : option t :=
  match cs with
  | [] => Some b
  | c :: cs' =>
      match perform c b with
      | Some b' => performAll cs' b'
      | None => None
      end
  end.

End Defs.
Arguments Problem : clear implicits.
Arguments t : clear implicits.
Arguments stepVars : clear implicits.
Arguments call : clear implicits.
End ProblemBuilder.

(** ** NLOptimizer.hpp: the adapter around the nonlinear solver *)

(** Sequencing of calls that may abort the call path. *)
Definition andThen {X Y : Type} (c : option X) (k : X -> option Y) : option Y :=
  match c with
  | Some x => k x
  | None => None
  end.

Notation "x <- c ;; k" := (andThen c (fun x => k))
  (at level 61, c at next level, right associativity).
Notation "' p <- c ;; k" := (andThen c (fun x => let 'p := x in k))
  (at level 61, p pattern, c at next level, right associativity).

Module NLOptimizer.
Import Common.
Section Defs.
Context {T : Type} {ST : Scalar T}.

(** [Result<Tnu>] of Types.hpp, a header outside the four modelled here, by
    the members the optimizer assigns. *)
Record Result : Type := mkResult { cmd : cvec T; cost : T; retcode : Z }.

(** A default-constructed [Result]; a parameter of the model. *)
Variable freshResult : Result.

(** What one call of [nlopt::opt::optimize] does: it returns the optimum, with
    [last_optimum_value()], [last_optimize_result()] and [get_numevals()], or
    throws an exception derived from [std::exception], as nlopt's C++
    interface does for every failure. *)
Inductive optimizeOutcome : Type :=
| Optimized (x : cvec T) (optimum : T) (result : Z) (numevals : nat)
| Throws (what : string).

Record t : Type := mk {
  dim : Dims;
  initialized : bool;
  innerOpt : cvec T -> optimizeOutcome;
  last_r : Result;
  currentSlack : T;
  mapping : Mapping.t T
}.

Definition nDecision (d : Dims) : nat := ph d * nx d + nu d * ch d + 1.

Definition setMapping (m : Mapping.t T) (o : t) : option t :=
  checkOrQuit (initialized o)
    (mk (dim o) (initialized o) (innerOpt o) (last_r o) (currentSlack o) m).

(** [v[counter++] = src(j)]. *)
Definition appendCoef (src : nat -> T) (j : nat) (s : nat * cvec T) : nat * cvec T :=
  (fst s + 1, vsetCoef (snd s) (fst s) (src j)).

(** The warm-start vector of [run], up to the call of the solver. *)
Definition warmStart (x0 u0 : cvec T) (o : t) : option (cvec T) :=
  let d := dim o in
  let optX0 := vresize (nDecision d) fresh_vec in
  let filled :=
    for_upto (ph d) (fun _ => for_upto (nx d) (appendCoef (at_ x0))) (0, optX0) in
  let Umv := setZero (resize (ph d) (nu d) fresh_mat) in
  let Umv :=
    for_upto (ph d)
      (fun i => for_upto (nu d) (fun j M => setCoef M i j (at_ u0 j))) Umv in
  let UmvVectorized := vresize (ph d * nu d) fresh_vec in
  let UmvVectorized :=
    snd (for_upto (ph d) (fun i => for_upto (nu d) (appendCoef (coef Umv i)))
           (0, UmvVectorized)) in
  Iu2z <- Mapping.Iu2z (mapping o) ;;
  let res := mulmv Iu2z UmvVectorized in
  let filled := for_upto (nu d * ch d) (appendCoef (at_ res)) filled in
  Some (vsetCoef (snd filled) (nDecision d - 1) (currentSlack o)).

(** [run(x0, u0)].  The [try] block is the [Optimized] branch, the [catch]
    block the [Throws] branch; [None] is an abort by [checkOrQuit]. *)
Definition run (x0 u0 : cvec T) (o : t) : option (Result * t) :=
  _ <- checkOrQuit (initialized o) tt ;;
  let d := dim o in
  let r := freshResult in
  optX0 <- warmStart x0 u0 o ;;
  ' (r, slack) <-
    match innerOpt o optX0 with
    | Optimized res optimum result _ =>
        let opt_vector := mkVec (size res) (at_ res) in
        let r := mkResult (cmd r) optimum result in
        let Xmat := resize (ph d + 1) (nx d) fresh_mat in
        let Umat := resize (ph d + 1) (nu d) fresh_mat in
        ' (_, Umat, slack) <- Mapping.unwrapVector (mapping o) opt_vector x0 Xmat Umat ;;
        Some (mkResult (row Umat 0) (cost r) (retcode r), slack)
    | Throws _ =>
        let r := mkResult (cmd (last_r o)) (cost r) (retcode r) in
        Some (mkResult (cmd r) (cost r) (-1)%Z, currentSlack o)
    end ;;
  Some (r, mk d (initialized o) (innerOpt o) r slack (mapping o)).

(** Consecutive control steps on one optimizer: [run] called with each pair
    [(x0, u0)] in turn, the results collected in order. *)
Fixpoint runAll (steps : list (cvec T * cvec T)) (o : t) : option (list Result * t) :=
  match steps with
  | [] => Some ([], o)
  | (x0, u0) :: rest =>
      ' (r, o1) <- run x0 u0 o ;;
      ' (rs, o2) <- runAll rest o1 ;;
      Some (r :: rs, o2)
  end.

(** [std::numeric_limits<double>::infinity()]; a parameter of the model. *)
Variable inf : T.

(** The vectors [lb] and [ub] that [setParameters] builds and hands to the
    solver as lower and upper bounds, for the flag [hard_constraints]. *)
Definition parameterBounds_body (d : Dims) (hard_constraints : bool) (i : nat)
           (s : cvec T * cvec T) : cvec T * cvec T :=
  let lb := vsetCoef (fst s) i (sopp inf) in
  let lb :=
    if (i + 1 =? nDecision d) && hard_constraints then vsetCoef lb i szero else lb in
  (lb, vsetCoef (snd s) i inf).

Definition parameterBounds (d : Dims) (hard_constraints : bool) : cvec T * cvec T :=
  for_upto (nDecision d) (parameterBounds_body d hard_constraints)
    (vresize (nDecision d) fresh_vec, vresize (nDecision d) fresh_vec).

End Defs.
Arguments Result : clear implicits.
Arguments optimizeOutcome : clear implicits.
Arguments t : clear implicits.
End NLOptimizer.

(** ** LMPC.hpp: the linear front-end *)

Module LMPC.
Import Common.
Section Defs.
Context {T : Type} {ST : Scalar T}.

Variable inf : T.

(** [B] and [D] as they are visible inside [LMPC::setDisturbances]: the class
    declares neither and they are not its parameters ([Bd] and [Dd] are), so
    the names denote objects declared outside the class; they are parameters
    of the model. *)
Variable B : mat T.
Variable D : mat T.

Record t : Type := mk {
  dim : Dims;
  initialized : bool;
  builder : ProblemBuilder.t T
}.

(** [bool r = builder.f(...)] followed by [return r], on the front-end. *)
Definition forward (f : ProblemBuilder.t T -> option (bool * ProblemBuilder.t T)) (c : t)
  : option (bool * t) :=
  _ <- checkOrQuit (initialized c) tt ;;
  ' (r, b) <- f (builder c) ;;
  Some (r, mk (dim c) (initialized c) b).

Definition setStateSpaceModel (Am Bm Cm : mat T) (c : t) : option (bool * t) :=
  forward (ProblemBuilder.setStateModel inf Am Bm Cm) c.

Definition setDisturbances (Bd Dd : mat T) (c : t) : option (bool * t) :=
  forward (ProblemBuilder.setExogenuosInput inf B D) c.

(** The six matrices [setConstraints] fills, one column per horizon step. *)
Record boundMats : Type := mkBoundMats {
  XMinMat : mat T; XMaxMat : mat T;
  YMinMat : mat T; YMaxMat : mat T;
  UMinMat : mat T; UMaxMat : mat T
}.

Definition setConstraints_body (d : Dims) (XMin UMin YMin XMax UMax YMax : cvec T)
           (i : nat) (s : boundMats) : boundMats :=
  let xl := setCol (XMinMat s) i XMin in
  let xu := setCol (XMaxMat s) i XMax in
  let yl := setCol (YMinMat s) i YMin in
  let yu := setCol (YMaxMat s) i YMax in
  if i <? ph d
  then mkBoundMats xl xu yl yu (setCol (UMinMat s) i UMin) (setCol (UMaxMat s) i UMax)
  else mkBoundMats xl xu yl yu (UMinMat s) (UMaxMat s).

(** [setConstraints] of the front-end: the bounds replicated along the
    prediction horizon, then handed to the builder. *)
Definition setConstraints (XMin UMin YMin XMax UMax YMax : cvec T) (c : t)
  : option (bool * t) :=
  let d := dim c in
  let s :=
    for_upto (ph d) (setConstraints_body d XMin UMin YMin XMax UMax YMax)
      (mkBoundMats (resize (nx d) (ph d) fresh_mat) (resize (nx d) (ph d) fresh_mat)
                   (resize (ny d) (ph d) fresh_mat) (resize (ny d) (ph d) fresh_mat)
                   (resize (nu d) (ph d) fresh_mat) (resize (nu d) (ph d) fresh_mat)) in
  forward (ProblemBuilder.setConstraints inf (XMinMat s) (UMinMat s) (YMinMat s)
             (XMaxMat s) (UMaxMat s) (YMaxMat s)) c.

(** The three matrices [setObjectiveWeights] fills. *)
Definition setObjectiveWeights_body (d : Dims) (OWeight UWeight DeltaUWeight : cvec T)
           (i : nat) (s : mat T * mat T * mat T) : mat T * mat T * mat T :=
  let o := setCol (fst (fst s)) i OWeight in
  let w := setCol (snd (fst s)) i UWeight in
  if i <? ph d then (o, w, setCol (snd s) i DeltaUWeight) else (o, w, snd s).

(** [setObjectiveWeights] of the front-end: the weights replicated along the
    prediction horizon, then handed to the builder. *)
Definition setObjectiveWeights (OWeight UWeight DeltaUWeight : cvec T) (c : t)
  : option (bool * t) :=
  let d := dim c in
  let s :=
    for_upto (ph d + 1) (setObjectiveWeights_body d OWeight UWeight DeltaUWeight)
      (resize (ny d) (ph d + 1) fresh_mat, resize (nu d) (ph d + 1) fresh_mat,
       resize (nu d) (ph d) fresh_mat) in
  forward (ProblemBuilder.setObjective inf (fst (fst s)) (snd (fst s)) (snd s)) c.

End Defs.
Arguments t : clear implicits.
Arguments boundMats : clear implicits.
End LMPC.

(** ** Scalar types used to run the model *)

(** IEEE 754 binary64, the [double] of the source. *)
#[export] Instance ScalarDouble : Scalar float := {|
  szero := 0%float;
  sone := 1%float;
  sadd := PrimFloat.add;
  ssub := PrimFloat.sub;
  smul := PrimFloat.mul;
  sdiv := PrimFloat.div;
  sopp := PrimFloat.opp
|}.

(** Exact integer arithmetic, for data whose values are whole numbers
    ([sdiv] is the integer quotient). *)
#[export] Instance ScalarZ : Scalar Z := {|
  szero := 0%Z;
  sone := 1%Z;
  sadd := Z.add;
  ssub := Z.sub;
  smul := Z.mul;
  sdiv := Z.div;
  sopp := Z.opp
|}.

(** ** Vocabulary of the statements *)

(** The running sum [m(0) + ... + m(j-1)] of the replication counts. *)
Fixpoint runningSum (m : cvec nat) (j : nat) : nat :=
  match j with
  | O => 0
  | S k => runningSum m k + at_ m k
  end.

(** A vector given by its coefficients. *)
Definition vecOf {T : Type} (xs : list T) (dflt : T) : cvec T :=
  mkVec (List.length xs) (fun k => nth k xs dflt).

(** A matrix given by its rows. *)
Definition matOf {T : Type} (r c : nat) (xss : list (list T)) (dflt : T) : mat T :=
  mkMat r c (fun i j => nth j (nth i xss []) dflt).

Module MappingSpec.
Import Common.
Section Defs.
Context {T : Type} {ST : Scalar T}.

(** The sizes [Mapping::onInit] gives to the members [computeMapping] reads. *)
Definition allocated (mp : Mapping.t T) : Prop :=
  let d := Mapping.dim mp in
  rows (Mapping.Iz2uMat mp) = ph d * nu d /\
  cols (Mapping.Iz2uMat mp) = nu d * ch d /\
  rows (Mapping.Sz2uMat mp) = nu d /\
  cols (Mapping.Sz2uMat mp) = nu d.

(** A mapping as a client configures it: initialised for the dimensions
    [d], then given an input scaling and a state scaling. *)
Definition configured (d : Dims) (inputScaling stateScaling : cvec T) : Mapping.t T :=
  Mapping.setStateScaling stateScaling
    (Mapping.setInputScaling inputScaling (Mapping.initialize d)).

End Defs.
End MappingSpec.

Module BuilderSpec.
Import Common.
Section Defs.
Context {T : Type} {ST : Scalar T}.

(** The invariant of the augmented model: the bottom-right [nu x nu] block of
    [ssA] and the bottom [nu x nu] block of [ssB] are the identity. *)
Definition augmented (b : ProblemBuilder.t T) : Prop :=
  let d := ProblemBuilder.dim b in
  forall i j, i < nu d -> j < nu d ->
    coef (ProblemBuilder.ssA b) (nx d + i) (nx d + j) = (if i =? j then sone else szero) /\
    coef (ProblemBuilder.ssB b) (nx d + i) j = (if i =? j then sone else szero).

(** The sizes [onInit] gives to the members that no later call resizes. *)
Definition sized (b : ProblemBuilder.t T) : Prop :=
  let d := ProblemBuilder.dim b in
  (rows (ProblemBuilder.ssA b) = nu d + nx d /\ cols (ProblemBuilder.ssA b) = nu d + nx d) /\
  (rows (ProblemBuilder.ssB b) = nu d + nx d /\ cols (ProblemBuilder.ssB b) = nu d) /\
  (rows (ProblemBuilder.ssC b) = nu d + ny d /\ cols (ProblemBuilder.ssC b) = nu d + nx d) /\
  (rows (ProblemBuilder.minX b) = nx d /\ rows (ProblemBuilder.maxX b) = nx d) /\
  (rows (ProblemBuilder.minY b) = ny d /\ rows (ProblemBuilder.maxY b) = ny d).

(** The off-diagonal blocks of [ssC] hold zero. *)
Definition outputMatrixZeros (b : ProblemBuilder.t T) : Prop :=
  let d := ProblemBuilder.dim b in
  forall i j, (i < ny d /\ nx d <= j) \/ (ny d <= i /\ j < nx d) ->
              coef (ProblemBuilder.ssC b) i j = szero.

(** What a builder reached from [initialize] by any calls satisfies: it is
    initialised for the dimensions [d], sized as [onInit] sized it, and its
    [ssC] is zero off the two blocks [setStateModel] assigns. *)
Definition reached (d : Dims) (b : ProblemBuilder.t T) : Prop :=
  ProblemBuilder.initialized b = true /\ ProblemBuilder.dim b = d /\
  sized b /\ outputMatrixZeros b.

(** The builder after [n] consecutive calls of [get] with the same
    arguments, and a scalar after [n] subtractions of [v]. *)
Definition afterSteps (n : nat) (x0 u0 yRef uRef deltaURef uMeas : cvec T)
           (b : ProblemBuilder.t T) : ProblemBuilder.t T :=
  Nat.iter n (fun x => snd (ProblemBuilder.get x0 u0 yRef uRef deltaURef uMeas x)) b.
Definition reducedBy (n : nat) (v x : T) : T := Nat.iter n (fun y => ssub y v) x.

(** The weight of output-or-input channel [c] at step [i], and the offset
    of channel [c] from its reference: the disturbance feed-through minus
    the reference [yRef] followed by [uRef]. *)
Definition stepWeights (b : ProblemBuilder.t T) (i c : nat) : T :=
  let d := ProblemBuilder.dim b in
  if c <? ny d then coef (ProblemBuilder.wOutput b) c i
  else coef (ProblemBuilder.wU b) (c - ny d) i.
Definition referenceOffset (b : ProblemBuilder.t T) (yRef uRef uMeas : cvec T) (c : nat) : T :=
  sadd (sopp (if c <? size yRef then at_ yRef c else at_ uRef (c - size yRef)))
       (at_ (mulmv (ProblemBuilder.ssDv b) uMeas) c).

(** The quadratic form [x' * M * x] of a matrix. *)
Definition quadForm (M : mat T) (x : nat -> T) : T :=
  ssum (rows M) (fun r => ssum (cols M) (fun c => smul (smul (x r) (coef M r c)) (x c))).

Definition symmetric (M : mat T) : Prop :=
  forall r c, coef M r c = coef M c r.

(** Exact arithmetic: the scalars form a commutative ring ordered by [sle]. *)
Record OrderedRing (sle : T -> T -> Prop) : Prop := mkOrderedRing {
  exact_ring : ring_theory szero sone sadd smul ssub sopp (@eq T);
  nonneg_zero : sle szero szero;
  nonneg_add : forall a b, sle szero a -> sle szero b -> sle szero (sadd a b);
  nonneg_mul : forall a b, sle szero a -> sle szero b -> sle szero (smul a b);
  nonneg_square : forall a, sle szero (smul a a)
}.

Definition positiveSemidefinite (sle : T -> T -> Prop) (M : mat T) : Prop :=
  forall x, sle szero (quadForm M x).

(** Every entry of the three weight matrices is non-negative. *)
Definition nonnegWeights (sle : T -> T -> Prop) (b : ProblemBuilder.t T) : Prop :=
  let d := ProblemBuilder.dim b in
  (forall k i, k < ny d -> i < ph d + 1 -> sle szero (coef (ProblemBuilder.wOutput b) k i)) /\
  (forall k i, k < nu d -> i < ph d + 1 -> sle szero (coef (ProblemBuilder.wU b) k i)) /\
  (forall k i, k < nu d -> i < ph d -> sle szero (coef (ProblemBuilder.wDeltaU b) k i)).

(** The invariant of the loop of [buildTITerms] that fills [P], after [t]
    iterations: [wExtendedState] is diagonal with non-negative entries, and
    [P] keeps its sizes, is symmetric and positive semi-definite, and is
    zero outside the two regions written so far. *)
Definition objectiveInvariant (sle : T -> T -> Prop) (d : Dims) (t : nat)
           (s : mat T * mat T) : Prop :=
  let n := nu d + nx d in
  let N1 := (ph d + 1) * (nu d + nx d) in
  let w := Nat.min t (ph d) * nu d in
  (forall k l, k <> l -> coef (fst s) k l = szero) /\
  (forall k, sle szero (coef (fst s) k k)) /\
  rows (snd s) = ProblemBuilder.nVar d /\
  cols (snd s) = ProblemBuilder.nVar d /\
  symmetric (snd s) /\
  positiveSemidefinite sle (snd s) /\
  (forall r c, ~ (r < t * n /\ c < t * n) ->
               ~ (N1 <= r < N1 + w /\ N1 <= c < N1 + w) ->
               coef (snd s) r c = szero).

End Defs.
End BuilderSpec.

(** ** Concrete instances on which the statements are run *)

Module Examples.
Import Common.

(** Two states, one input, one output, one disturbance; prediction horizon 3,
    control horizon 2. *)
Definition dims : Dims := mkDims 2 1 1 1 3 2.

(** The smallest builder: every size is 1. *)
Definition unitDims : Dims := mkDims 1 1 1 1 1 1.

Definition mapping : Mapping.t float := Mapping.initialize dims.

(** Scenario 1 of the specification: two states, one input, one output,
    prediction horizon 3, control horizon 1; the builder after start-up. *)
Definition scenarioDims : Dims := mkDims 2 1 1 1 3 1.
Definition builder : ProblemBuilder.t float := ProblemBuilder.initialize scenarioDims.

(** A model for scenario 1 and a few later calls on the builder. *)
Definition modelA : mat float := matOf 2 2 [[1; 0]; [0; 1]]%float 0%float.
Definition modelB : mat float := matOf 2 1 [[0]; [1]]%float 0%float.
Definition modelC : mat float := matOf 1 2 [[1; 0]]%float 0%float.
Definition zeros (n : nat) : cvec float := mkVec n (fun _ => 0%float).
Definition laterCalls : list (ProblemBuilder.call float) :=
  [ProblemBuilder.Get (zeros 2) (zeros 1) (zeros 1) (zeros 1) (zeros 1) (zeros 1);
   ProblemBuilder.SetExogenuosInput modelB (matOf 1 1 [[1]]%float 0%float);
   ProblemBuilder.SetStateModel modelA modelB modelC].

(** A builder of the smallest sizes with output bounds [-10, 10] and a unit
    feed-through of the measured disturbance to the output, and the
    arguments of a control step whose measured disturbance is 1. *)
Definition one (x : float) : mat float := matOf 1 1 [[x]] 0%float.
Definition disturbedBuilder : option (ProblemBuilder.t float) :=
  ProblemBuilder.performAll infinity
    [ProblemBuilder.SetExogenuosInput (one 0) (one 1);
     ProblemBuilder.SetConstraints (one (-5)) (one (-5)) (one (-10))
                                   (one 5) (one 5) (one 10)]
    (ProblemBuilder.initialize unitDims).
Definition step (b : ProblemBuilder.t float)
  : ProblemBuilder.Problem float * ProblemBuilder.t float :=
  ProblemBuilder.get (zeros 1) (zeros 1) (zeros 1) (zeros 1) (zeros 1)
                     (vecOf [1%float] 0%float) b.

(** The scenario builder over exact integers, with a model and constant
    non-negative weights set through the builder's setters. *)
Definition constant (r c : nat) (x : Z) : mat Z := mkMat r c (fun _ _ => x).
Definition weighted : ProblemBuilder.t Z :=
  let b0 := ProblemBuilder.initialize scenarioDims in
  match ProblemBuilder.performAll 0%Z
          [ProblemBuilder.SetStateModel
             (matOf 2 2 [[1; 1]; [0; 1]]%Z 0%Z) (matOf 2 1 [[0]; [1]]%Z 0%Z)
             (matOf 1 2 [[1; 0]]%Z 0%Z);
           ProblemBuilder.SetObjective (constant 1 4 3%Z) (constant 1 4 2%Z)
                                       (constant 1 3 1%Z)] b0 with
  | Some b => b
  | None => b0
  end.

(** The scenario builder on binary64 with the output matrix [C = (0.1 10)]
    and the output weight 0.1 at every step (0.1 is the double nearest to
    it, [1 / 10]); the input and rate weights are zero. *)
Definition constantDouble (r c : nat) (x : float) : mat float := mkMat r c (fun _ _ => x).
Definition roundedBuilder : option (ProblemBuilder.t float) :=
  ProblemBuilder.performAll infinity
    [ProblemBuilder.SetStateModel modelA modelB (matOf 1 2 [[1 / 10; 10]]%float 0%float);
     ProblemBuilder.SetObjective (constantDouble 1 4 (1 / 10)%float)
                                 (constantDouble 1 4 0%float)
                                 (constantDouble 1 3 0%float)]
    builder.

(** A front-end around the scenario builder, and the objects named [B] and
    [D] at the point of [setDisturbances]. *)
Definition frontEnd : LMPC.t float := LMPC.mk scenarioDims true builder.
Definition outerB : mat float := matOf 2 1 [[7]; [7]]%float 0%float.
Definition outerD : mat float := matOf 1 1 [[9]]%float 0%float.

(** An optimizer whose solver always fails, holding a previous command. *)
Definition freshResult : NLOptimizer.Result float :=
  NLOptimizer.mkResult fresh_vec 0%float 0%Z.
Definition failing : NLOptimizer.t float :=
  NLOptimizer.mk dims true (fun _ => NLOptimizer.Throws "nlopt failure"%string)
    (NLOptimizer.mkResult (vecOf [4%float] 0%float) 1%float 1%Z) 0%float mapping.

(** An optimizer over exact integers: one state, one input, prediction
    horizon 3, control horizon 2, input scaling -1; its solver returns a
    fixed solution [states | moves | slack]. *)
Definition exactDims : Dims := mkDims 1 1 0 1 3 2.
Definition solution : cvec Z := vecOf [1; 2; 3; 5; 7; 9]%Z 0%Z.
Definition solving : NLOptimizer.t Z :=
  NLOptimizer.mk exactDims true (fun _ => NLOptimizer.Optimized solution 42%Z 1%Z 10)
    (NLOptimizer.mkResult (vecOf [4%Z] 0%Z) 0%Z 0%Z) 8%Z
    (MappingSpec.configured exactDims (vecOf [(-1)%Z] 0%Z) (vecOf [1%Z] 0%Z)).
Definition freshResultZ : NLOptimizer.Result Z := NLOptimizer.mkResult fresh_vec 0%Z 0%Z.

(** A mapping of the smallest sizes whose state is scaled by 2, a flat
    decision vector [state | move | slack] for it, and a current state. *)
Definition scaledMapping : Mapping.t float :=
  Mapping.setStateScaling (vecOf [2%float] 0%float) (Mapping.initialize unitDims).
Definition flat : cvec float := vecOf [3%float; 5%float; 0%float] 0%float.
Definition x0 : cvec float := vecOf [3%float] 0%float.
Definition Xmat : mat float := resize 2 1 fresh_mat.
Definition Umat : mat float := resize 2 1 fresh_mat.

(** The scenario builder holding bounds that differ from step to step. *)
Definition bounded : ProblemBuilder.t float :=
  ProblemBuilder.withBounds builder
    (matOf 2 4 [[-1; -2; -3; -4]; [-5; -6; -7; -8]]%float 0%float)
    (matOf 2 4 [[1; 2; 3; 4]; [5; 6; 7; 8]]%float 0%float)
    (matOf 1 4 [[-10; -20; -30; -40]]%float 0%float)
    (matOf 1 4 [[10; 20; 30; 40]]%float 0%float)
    (matOf 1 3 [[-100; -200; -300]]%float 0%float)
    (matOf 1 3 [[100; 200; 300]]%float 0%float).

(** The same builder with a unit feed-through of the measured disturbance
    to the output. *)
Definition fedThrough : ProblemBuilder.t float :=
  ProblemBuilder.withExogenous bounded (ProblemBuilder.ssBv bounded)
    (matOf 2 1 [[1]; [0]]%float 0%float).

End Examples.

(** * Properties *)

Unset Implicit Arguments.

(** ** Loops and index arithmetic *)

Lemma for_upto_S {S : Type} (n : nat) (body : nat -> S -> S) (s : S) :
  for_upto (Datatypes.S n) body s = body n (for_upto n body s).
Proof. reflexivity. Qed.

(** A property preserved by every iteration holds after the loop. *)
Lemma for_upto_invariant {S : Type} (Inv : nat -> S -> Prop) (n : nat)
      (body : nat -> S -> S) (s : S) :
  Inv 0 s ->
  (forall i x, i < n -> Inv i x -> Inv (Datatypes.S i) (body i x)) ->
  Inv n (for_upto n body s).
Proof.
  intros H0 Hstep.
  assert (G : forall k, k <= n -> Inv k (for_upto k body s)).
  { induction k as [|k IH]; intros Hk; simpl.
    - exact H0.
    - apply Hstep; [lia | apply IH; lia]. }
  apply G; lia.
Qed.

Lemma block_index_lt (n R J a : nat) : R < J -> a < n -> R * n + a < J * n.
Proof.
  intros HR Ha.
  assert (H : (R + 1) * n <= J * n) by (apply Nat.mul_le_mono_r; lia).
  lia.
Qed.

Lemma block_index_ge (n R J a : nat) : J < R -> J * n + n <= R * n + a.
Proof.
  intros HR.
  assert (H : (J + 1) * n <= R * n) by (apply Nat.mul_le_mono_r; lia).
  lia.
Qed.

(** Membership of a coefficient in a block, by block indices. *)
Lemma in_rows_aligned (n J R a : nat) :
  a < n -> in_rows (J * n) n (R * n + a) = (R =? J).
Proof.
  intros Ha. unfold in_rows.
  destruct (Nat.eqb_spec R J) as [->|HR].
  - apply andb_true_intro; split; [apply Nat.leb_le | apply Nat.ltb_lt]; lia.
  - apply andb_false_iff.
    assert (R < J \/ J < R) as [H|H] by lia.
    + left. apply Nat.leb_gt. apply block_index_lt; assumption.
    + right. apply Nat.ltb_ge. apply block_index_ge; assumption.
Qed.

Lemma in_block_rows (r0 c0 h w i j : nat) :
  in_block r0 c0 h w i j = in_rows r0 h i && in_rows c0 w j.
Proof. unfold in_block, in_rows. now rewrite <- !andb_assoc. Qed.

Lemma in_block_aligned (n J I R C a b : nat) :
  a < n -> b < n ->
  in_block (J * n) (I * n) n n (R * n + a) (C * n + b) = (R =? J) && (C =? I).
Proof.
  intros Ha Hb. now rewrite in_block_rows, !in_rows_aligned.
Qed.

Lemma aligned_sub (n J a : nat) : J * n + a - J * n = a.
Proof. lia. Qed.

(** ** Mapping: the replication counts *)

Lemma ones_loop (n : nat) (v : cvec nat) :
  size (for_upto n (fun i m => vsetCoef m i 1) v) = size v /\
  forall k, at_ (for_upto n (fun i m => vsetCoef m i 1) v) k
            = if k <? n then 1 else at_ v k.
Proof.
  induction n as [|n [IHs IHa]]; simpl.
  - split; [reflexivity | intros k; reflexivity].
  - split; [exact IHs | intros k].
    rewrite IHa.
    destruct (Nat.eqb_spec k n) as [->|Hk].
    + now rewrite (proj2 (Nat.ltb_lt n (S n)) (Nat.lt_succ_diag_r n)).
    + destruct (Nat.ltb_spec k n), (Nat.ltb_spec k (S n)); try reflexivity; lia.
Qed.

Lemma replicationCounts_size (d : Common.Dims) :
  size (Mapping.replicationCounts d) = Common.ch d.
Proof.
  unfold Mapping.replicationCounts. simpl.
  now rewrite (proj1 (ones_loop _ _)).
Qed.

Lemma replicationCounts_at (d : Common.Dims) (j : nat) :
  j < Common.ch d ->
  at_ (Mapping.replicationCounts d) j
  = if j =? Common.ch d - 1 then Common.ph d - Common.ch d + 1 else 1.
Proof.
  intros Hj. unfold Mapping.replicationCounts. simpl.
  destruct (j =? Common.ch d - 1); [reflexivity|].
  rewrite (proj2 (ones_loop _ _)).
  now rewrite (proj2 (Nat.ltb_lt _ _) Hj).
Qed.

Lemma runningSum_ones (m : cvec nat) (j : nat) :
  (forall k, k < j -> at_ m k = 1) -> runningSum m j = j.
Proof.
  induction j as [|j IH]; intros H; simpl; [reflexivity|].
  rewrite IH, H; [lia | lia | intros k Hk; apply H; lia].
Qed.

Lemma replicationCounts_offset (d : Common.Dims) (j : nat) :
  j < Common.ch d -> runningSum (Mapping.replicationCounts d) j = j.
Proof.
  intros Hj. apply runningSum_ones. intros k Hk.
  rewrite replicationCounts_at by lia.
  destruct (Nat.eqb_spec k (Common.ch d - 1)); [lia | reflexivity].
Qed.

Lemma replicationCounts_sum (d : Common.Dims) :
  1 <= Common.ch d -> Common.ch d <= Common.ph d ->
  runningSum (Mapping.replicationCounts d) (Common.ch d) = Common.ph d.
Proof.
  intros H1 H2.
  replace (runningSum (Mapping.replicationCounts d) (Common.ch d))
    with (runningSum (Mapping.replicationCounts d) (S (Common.ch d - 1)))
    by (f_equal; lia).
  cbn [runningSum].
  rewrite replicationCounts_offset, replicationCounts_at by lia.
  rewrite Nat.eqb_refl. lia.
Qed.

(** ** Mapping: the operator [Iz2u] *)

Section MappingFacts.
Context {T : Type} {ST : Scalar T}.
Import Common.

Lemma scaling_loop (s : cvec T) (n : nat) (Sz Su : mat T) (a b : nat) :
  coef (fst (for_upto n (Mapping.scalingStep s) (Sz, Su))) a b
  = if (a =? b) && (a <? n) then at_ s a else coef Sz a b.
Proof.
  induction n as [|n IH]; simpl.
  - now rewrite andb_false_r.
  - rewrite IH.
    destruct (Nat.eqb_spec a n) as [->|Ha]; destruct (Nat.eqb_spec b n) as [->|Hb]; simpl.
    + now rewrite Nat.eqb_refl, (proj2 (Nat.ltb_lt n (S n)) (Nat.lt_succ_diag_r n)).
    + destruct (Nat.eqb_spec n b); [congruence|]. reflexivity.
    + destruct (Nat.eqb_spec a n); [congruence|]. reflexivity.
    + destruct (a =? b); simpl; [|reflexivity].
      destruct (Nat.ltb_spec a n), (Nat.ltb_spec a (S n)); try reflexivity; lia.
Qed.

Lemma scaling_loop_rows (s : cvec T) (n : nat) (Sz Su : mat T) :
  rows (fst (for_upto n (Mapping.scalingStep s) (Sz, Su))) = rows Sz /\
  cols (fst (for_upto n (Mapping.scalingStep s) (Sz, Su))) = cols Sz.
Proof. induction n as [|n IH]; simpl; [split; reflexivity | exact IH]. Qed.

(** The inner loop started at row block [J] writes [t] consecutive copies of
    [Sz] in column block [I]. *)
Lemma fillInner_loop (n : nat) (Sz M : mat T) (I J t : nat) :
  let r := for_upto t (fun _ => Mapping.fillInner n Sz (I * n)) (J * n, M) in
  fst r = (J + t) * n /\
  rows (snd r) = rows M /\ cols (snd r) = cols M /\
  forall R C a b, a < n -> b < n ->
    coef (snd r) (R * n + a) (C * n + b)
    = if (C =? I) && (J <=? R) && (R <? J + t) then coef Sz a b
      else coef M (R * n + a) (C * n + b).
Proof.
  induction t as [|t IH]; [simpl | rewrite for_upto_S].
  - repeat split; [f_equal; lia|]. intros R C a b Ha Hb.
    destruct (Nat.eqb_spec C I), (Nat.leb_spec J R), (Nat.ltb_spec R (J + 0));
      simpl; try reflexivity; lia.
  - cbv zeta in IH.
    set (r := for_upto t (fun _ => Mapping.fillInner n Sz (I * n)) (J * n, M)) in *.
    destruct IH as (IHj & IHr & IHc & IHm).
    unfold Mapping.fillInner. cbn [fst snd setBlock coef rows cols].
    repeat split; [rewrite IHj; lia | exact IHr | exact IHc |].
    intros R C a b Ha Hb.
    rewrite IHj, in_block_aligned by assumption.
    rewrite IHm by assumption.
    destruct (Nat.eqb_spec C I) as [->|HC]; simpl.
    + destruct (Nat.eqb_spec R (J + t)) as [->|HR]; simpl.
      * rewrite aligned_sub, aligned_sub.
        destruct (Nat.leb_spec J (J + t)); [|lia].
        destruct (Nat.ltb_spec (J + t) (J + S t)); [reflexivity | lia].
      * destruct (Nat.leb_spec J R); simpl; [|reflexivity].
        destruct (Nat.ltb_spec R (J + t)), (Nat.ltb_spec R (J + S t)); try reflexivity; lia.
    + now rewrite andb_false_r.
Qed.

(** After [i] iterations of the outer loop, column blocks [0..i-1] are
    filled, each with [m(C)] copies of [Sz] starting at its running sum. *)
Lemma fillOuter_loop (n : nat) (m : cvec nat) (Sz Su M N : mat T) (i : nat) :
  let f := for_upto i (Mapping.fillOuter n m Sz Su) (Mapping.mkFill 0 0 M N) in
  Mapping.ix f = i * n /\
  Mapping.jx f = runningSum m i * n /\
  rows (Mapping.fIz2u f) = rows M /\ cols (Mapping.fIz2u f) = cols M /\
  forall R C a b, a < n -> b < n ->
    coef (Mapping.fIz2u f) (R * n + a) (C * n + b)
    = if (C <? i) && (runningSum m C <=? R) && (R <? runningSum m C + at_ m C)
      then coef Sz a b
      else coef M (R * n + a) (C * n + b).
Proof.
  induction i as [|i IH]; [simpl | rewrite for_upto_S].
  - repeat split; reflexivity.
  - cbv zeta in IH.
    set (f := for_upto i (Mapping.fillOuter n m Sz Su) (Mapping.mkFill 0 0 M N)) in *.
    destruct IH as (IHi & IHj & IHr & IHc & IHm).
    unfold Mapping.fillOuter.
    cbn [Mapping.ix Mapping.jx Mapping.fIz2u Mapping.fIu2z].
    rewrite IHi, IHj.
    destruct (fillInner_loop n Sz (Mapping.fIz2u f) i (runningSum m i) (at_ m i))
      as (Lj & Lr & Lc & Lm).
    repeat split.
    + lia.
    + rewrite Lj. reflexivity.
    + now rewrite Lr.
    + now rewrite Lc.
    + intros R C a b Ha Hb.
      rewrite Lm, IHm by assumption.
      destruct (Nat.eqb_spec C i) as [->|HC]; simpl.
      * rewrite Nat.ltb_irrefl, (proj2 (Nat.ltb_lt i (S i)) (Nat.lt_succ_diag_r i)).
        simpl.
        destruct (runningSum m i <=? R), (R <? runningSum m i + at_ m i); reflexivity.
      * destruct (Nat.ltb_spec C i), (Nat.ltb_spec C (S i)); try reflexivity; lia.
Qed.

Lemma computeMapping_Sz2u (mp : Mapping.t T) (a b : nat) :
  coef (Mapping.Sz2uMat (Mapping.computeMapping mp)) a b
  = if (a =? b) && (a <? rows (Mapping.Sz2uMat mp))
    then at_ (Mapping.input_scaling mp) a else szero.
Proof.
  unfold Mapping.computeMapping. cbn [Mapping.Sz2uMat].
  now rewrite scaling_loop.
Qed.

Lemma computeMapping_Iz2u_shape (mp : Mapping.t T) :
  rows (Mapping.Iz2uMat (Mapping.computeMapping mp)) = rows (Mapping.Iz2uMat mp) /\
  cols (Mapping.Iz2uMat (Mapping.computeMapping mp)) = cols (Mapping.Iz2uMat mp).
Proof.
  unfold Mapping.computeMapping. cbn [Mapping.Iz2uMat].
  match goal with
  | |- context [for_upto ?i (Mapping.fillOuter ?n ?m ?Sz ?Su) (Mapping.mkFill 0 0 ?M ?N)] =>
      destruct (fillOuter_loop n m Sz Su M N i) as (_ & _ & Hr & Hc & _)
  end.
  rewrite Hr, Hc. split; reflexivity.
Qed.

Lemma computeMapping_Iz2u (mp : Mapping.t T) (R C a b : nat) :
  let d := Mapping.dim mp in
  let m := Mapping.replicationCounts d in
  a < nu d -> b < nu d ->
  coef (Mapping.Iz2uMat (Mapping.computeMapping mp)) (R * nu d + a) (C * nu d + b)
  = if (C <? ch d) && (runningSum m C <=? R) && (R <? runningSum m C + at_ m C)
    then coef (Mapping.Sz2uMat (Mapping.computeMapping mp)) a b
    else szero.
Proof.
  intros d m Ha Hb.
  unfold Mapping.computeMapping. cbn [Mapping.Iz2uMat Mapping.Sz2uMat].
  match goal with
  | |- context [for_upto ?i (Mapping.fillOuter ?n ?m ?Sz ?Su) (Mapping.mkFill 0 0 ?M ?N)] =>
      destruct (fillOuter_loop n m Sz Su M N i) as (_ & _ & _ & _ & Hm)
  end.
  rewrite Hm by assumption. reflexivity.
Qed.

Lemma computeMapping_dim (mp : Mapping.t T) :
  Mapping.dim (Mapping.computeMapping mp) = Mapping.dim mp.
Proof. reflexivity. Qed.

(** [onInit] allocates what [computeMapping] reads, and the setters keep it. *)
Lemma initialize_allocated (d : Dims) : MappingSpec.allocated (Mapping.initialize (T := T) d).
Proof.
  unfold MappingSpec.allocated, Mapping.initialize, Mapping.onInit.
  cbn [Mapping.dim Mapping.Iz2uMat Mapping.Sz2uMat].
  rewrite computeMapping_dim. cbn [Mapping.dim].
  match goal with
  | |- context [Mapping.computeMapping ?x] =>
      destruct (computeMapping_Iz2u_shape x) as (Hr & Hc); rewrite Hr, Hc
  end.
  unfold Mapping.computeMapping. cbn [Mapping.Iz2uMat Mapping.Sz2uMat Mapping.dim].
  match goal with
  | |- context [for_upto ?n (Mapping.scalingStep ?s) (?Sz, ?Su)] =>
      destruct (scaling_loop_rows s n Sz Su) as (Sr & Sc); rewrite Sr, Sc
  end.
  repeat split; reflexivity.
Qed.

Lemma computeMapping_allocated (mp : Mapping.t T) :
  MappingSpec.allocated mp -> MappingSpec.allocated (Mapping.computeMapping mp).
Proof.
  intros (Hr & Hc & Sr & Sc). unfold MappingSpec.allocated.
  rewrite computeMapping_dim.
  destruct (computeMapping_Iz2u_shape mp) as (Hr' & Hc'). rewrite Hr', Hc'.
  unfold Mapping.computeMapping. cbn [Mapping.Sz2uMat].
  match goal with
  | |- context [for_upto ?n (Mapping.scalingStep ?s) (?Sz, ?Su)] =>
      destruct (scaling_loop_rows s n Sz Su) as (Sr' & Sc'); rewrite Sr', Sc'
  end.
  repeat split; assumption.
Qed.

Lemma setInputScaling_allocated (scaling : cvec T) (mp : Mapping.t T) :
  MappingSpec.allocated mp -> MappingSpec.allocated (Mapping.setInputScaling scaling mp).
Proof.
  intros H. unfold Mapping.setInputScaling. apply computeMapping_allocated. exact H.
Qed.

End MappingFacts.

(** ** C1: the structure of the control-horizon mapping *)

Section MappingStructure.
Context {T : Type} {ST : Scalar T}.
Import Common.

(** C1.  For dimensions with [1 <= ch <= ph] and any input scaling, after
    [computeMapping] the replication counts [m] have length [ch], every
    entry is 1 except the last, which is [ph - ch + 1], and they add up to
    [ph]; [Iz2u] has [ph * nu] rows and [ch * nu] columns, and its block in
    block row [R] and block column [j] is the diagonal matrix of the input
    scaling when [R] is one of the [m(j)] consecutive block rows that start
    at the running sum of the counts before [j], and zero otherwise. *)
Theorem computeMapping_structure (mp : Mapping.t T) :
  let d := Mapping.dim mp in
  let m := Mapping.replicationCounts d in
  let mp' := Mapping.computeMapping mp in
  MappingSpec.allocated mp -> 1 <= ch d -> ch d <= ph d ->
  size m = ch d /\
  (forall j, j < ch d -> at_ m j = if j =? ch d - 1 then ph d - ch d + 1 else 1) /\
  runningSum m (ch d) = ph d /\
  rows (Mapping.Iz2uMat mp') = ph d * nu d /\
  cols (Mapping.Iz2uMat mp') = ch d * nu d /\
  forall j R a b, j < ch d -> R < ph d -> a < nu d -> b < nu d ->
    coef (Mapping.Iz2uMat mp') (R * nu d + a) (j * nu d + b)
    = if (runningSum m j <=? R) && (R <? runningSum m j + at_ m j)
      then (if a =? b then at_ (Mapping.input_scaling mp) a else szero)
      else szero.
Proof.
  cbv zeta. intros (Hr & Hc & Hsr & _) H1 H2.
  split; [apply replicationCounts_size|].
  split; [intros j Hj; now apply replicationCounts_at|].
  split; [now apply replicationCounts_sum|].
  destruct (computeMapping_Iz2u_shape mp) as (Sr & Sc).
  split; [now rewrite Sr|].
  split; [rewrite Sc, Hc; apply Nat.mul_comm|].
  intros j R a b Hj HR Ha Hb.
  rewrite computeMapping_Iz2u by assumption.
  rewrite (proj2 (Nat.ltb_lt _ _) Hj). cbn [andb].
  rewrite computeMapping_Sz2u, Hsr.
  rewrite (proj2 (Nat.ltb_lt _ _) Ha), andb_true_r.
  reflexivity.
Qed.

End MappingStructure.

Lemma computeMapping_structure_witness :
  let mp := Examples.mapping in
  let d := Mapping.dim mp in
  let m := Mapping.replicationCounts d in
  (MappingSpec.allocated mp /\ 1 <= Common.ch d /\ Common.ch d <= Common.ph d) /\
  size m = 2 /\ runningSum m 2 = 3 /\
  coef (Mapping.Iz2uMat (Mapping.computeMapping mp)) 2 1 = 1%float.
Proof.
  intros mp d m.
  assert (Ha : MappingSpec.allocated mp) by (repeat split; reflexivity).
  assert (H1 : 1 <= Common.ch d) by (vm_compute; lia).
  assert (H2 : Common.ch d <= Common.ph d) by (vm_compute; lia).
  split; [repeat split; assumption|].
  destruct (computeMapping_structure mp Ha H1 H2) as (Hs & _ & Hsum & _ & _ & Hm).
  split; [exact Hs|]. split; [exact Hsum|].
  apply (Hm 1 2 0 0); vm_compute; lia.
Defined.

(** ** C5: unwrapping the flat decision vector *)

Section Unwrap.
Context {T : Type} {ST : Scalar T}.
Import Common.

(** A loop that assigns row [lo + k] in iteration [k]. *)
Lemma setRow_loop (body : nat -> mat T -> mat T) (g : nat -> cvec T) (lo n : nat) (X : mat T) :
  (forall k M, body k M = setRow M (lo + k) (g (lo + k))) ->
  let r := for_upto n body X in
  rows r = rows X /\ cols r = cols X /\
  forall i c, coef r i c
              = if (lo <=? i) && (i <? lo + n) && (c <? cols X) then at_ (g i) c
                else coef X i c.
Proof.
  intros Hb. induction n as [|n IH]; [simpl | rewrite for_upto_S].
  - repeat split. intros i c.
    destruct (Nat.leb_spec lo i), (Nat.ltb_spec i (lo + 0)); simpl; try reflexivity; lia.
  - cbv zeta in IH. set (r := for_upto n body X) in *.
    destruct IH as (IHr & IHc & IHm). rewrite Hb.
    cbn [setRow rows cols coef]. repeat split; [exact IHr | exact IHc |].
    intros i c. rewrite IHm, IHc.
    destruct (Nat.eqb_spec i (lo + n)) as [->|Hi]; simpl.
    + destruct (Nat.leb_spec lo (lo + n)); [|lia].
      destruct (Nat.ltb_spec (lo + n) (lo + S n)); [|lia].
      destruct (Nat.ltb_spec (lo + n) (lo + n)); [lia|]. simpl.
      destruct (c <? cols X); reflexivity.
    + destruct (Nat.leb_spec lo i); simpl; [|reflexivity].
      destruct (Nat.ltb_spec i (lo + n)), (Nat.ltb_spec i (lo + S n)); try reflexivity; lia.
Qed.

(** A loop that divides column [k] in iteration [k]. *)
Lemma divCol_loop (body : nat -> mat T -> mat T) (e : nat -> T) (n : nat) (X : mat T) :
  (forall k M, body k M = divCol M k (e k)) ->
  let r := for_upto n body X in
  rows r = rows X /\ cols r = cols X /\
  forall i c, coef r i c
              = if (c <? n) && (i <? rows X) then sdiv (coef X i c) (e c)
                else coef X i c.
Proof.
  intros Hb. induction n as [|n IH]; [simpl | rewrite for_upto_S].
  - repeat split.
  - cbv zeta in IH. set (r := for_upto n body X) in *.
    destruct IH as (IHr & IHc & IHm). rewrite Hb.
    cbn [divCol rows cols coef]. repeat split; [exact IHr | exact IHc |].
    intros i c. rewrite IHm, IHr.
    destruct (Nat.eqb_spec c n) as [->|Hc]; simpl.
    + rewrite Nat.ltb_irrefl, (proj2 (Nat.ltb_lt n (S n)) (Nat.lt_succ_diag_r n)). simpl.
      destruct (i <? rows X); reflexivity.
    + destruct (Nat.ltb_spec c n), (Nat.ltb_spec c (S n)); try reflexivity; lia.
Qed.

(** The state trajectory before it is rescaled. *)
Lemma unwrap_states (n h : nat) (x' x0' : cvec T) (X : mat T) :
  let r :=
    for_range 1 (h + 1)
      (fun i M => setRow M i (middleRows x' ((i - 1) * n) n))
      (setRow (setZero X) 0 x0') in
  rows r = rows X /\ cols r = cols X /\
  forall i c, c < cols X ->
    coef r i c
    = if i =? 0 then at_ x0' c
      else if i <=? h then at_ x' ((i - 1) * n + c) else szero.
Proof.
  unfold for_range.
  destruct (setRow_loop
              (fun k => (fun i M => setRow M i (middleRows x' ((i - 1) * n) n)) (1 + k))
              (fun i => middleRows x' ((i - 1) * n) n) 1 (h + 1 - 1)
              (setRow (setZero X) 0 x0') (fun k M => eq_refl)) as (Hr & Hc & Hm).
  cbv zeta. repeat split; [exact Hr | exact Hc |].
  intros i c Hcc. rewrite Hm. cbn [setRow setZero rows cols coef middleRows at_].
  rewrite (proj2 (Nat.ltb_lt _ _) Hcc), !andb_true_r.
  destruct (Nat.eqb_spec i 0) as [->|Hi]; [reflexivity|].
  destruct (Nat.leb_spec 1 i); [|lia].
  destruct (Nat.ltb_spec i (1 + (h + 1 - 1))), (Nat.leb_spec i h);
    cbn [andb]; try reflexivity; lia.
Qed.

(** C5 (as the code has it).  For an initialised mapping, a flat vector of
    [ph * nx + ch * nu + 1] coefficients and a caller-sized [Xmat],
    [unwrapVector] returns: a state trajectory whose row 0 is [x0] and whose
    rows 1..ph are the [nx]-blocks of the flat vector, every coefficient of
    every row (row 0 included) divided by [1 / state_scaling(c)] for its
    column [c]; an input trajectory whose rows 0..ph-1 are the [nu]-blocks of
    [Iz2u] times the control-horizon moves and whose row [ph] repeats row
    [ph - 1]; and the last coefficient of the flat vector as slack. *)
Theorem unwrapVector_result (mp : Mapping.t T) (x x0 : cvec T) (Xmat Umat : mat T) :
  let d := Mapping.dim mp in
  let descale c v := sdiv v (sdiv sone (at_ (Mapping.state_scaling mp) c)) in
  let moves := middleRows x (ph d * nx d) (nu d * ch d) in
  Mapping.initialized mp = true ->
  rows Xmat = ph d + 1 -> cols Xmat = nx d ->
  size x = ph d * nx d + ch d * nu d + 1 ->
  exists X U slack,
    Mapping.unwrapVector mp x x0 Xmat Umat = Some (X, U, slack) /\
    (forall c, c < nx d -> coef X 0 c = descale c (at_ x0 c)) /\
    (forall i c, 1 <= i <= ph d -> c < nx d ->
       coef X i c = descale c (at_ x ((i - 1) * nx d + c))) /\
    (forall i j, i < ph d -> j < nu d ->
       coef U i j = at_ (mulmv (Mapping.Iz2uMat mp) moves) (i * nu d + j)) /\
    (forall j, j < nu d -> coef U (ph d) j = coef U (ph d - 1) j) /\
    slack = at_ x (ph d * nx d + ch d * nu d).
Proof.
  cbv zeta. intros Hinit HXr HXc Hsize.
  unfold Mapping.unwrapVector, Common.checkOrQuit. rewrite Hinit.
  eexists _, _, _. split; [reflexivity|].
  set (d := Mapping.dim mp) in *.
  destruct (unwrap_states (nx d) (ph d) x x0 Xmat)
    as (Sr & Sc & Sm).
  match goal with
  | |- context [for_upto (cols ?X1) ?body ?X1] =>
      destruct (divCol_loop body (fun c => sdiv sone (at_ (Mapping.state_scaling mp) c))
                  (cols X1) X1 (fun k M => eq_refl)) as (Dr & Dc & Dm)
  end.
  split; [|split; [|split; [|split]]].
  - intros c Hc. rewrite Dm, Sc, Sr, HXc, HXr, Sm by lia.
    rewrite (proj2 (Nat.ltb_lt _ _) Hc). simpl.
    destruct (Nat.ltb_spec 0 (ph d + 1)); [reflexivity | lia].
  - intros i c Hi Hc. rewrite Dm, Sc, Sr, HXc, HXr, Sm by lia.
    rewrite (proj2 (Nat.ltb_lt _ _) Hc). simpl.
    destruct (Nat.ltb_spec i (ph d + 1)); [|lia].
    destruct (Nat.eqb_spec i 0); [lia|].
    destruct (Nat.leb_spec i (ph d)); [reflexivity | lia].
  - intros i j Hi Hj.
    cbn [setBlock setZero setRow setMiddleRowsM resize transpose mapMat row
         rows cols coef at_].
    unfold in_block.
    destruct (Nat.leb_spec 0 i); [|lia].
    destruct (Nat.ltb_spec i (0 + (ph d + 1))); [|lia].
    destruct (Nat.leb_spec 0 j); [|lia].
    destruct (Nat.ltb_spec j (0 + nu d)); [|lia].
    destruct (Nat.ltb_spec j (nu d)); [|lia].
    destruct (Nat.eqb_spec (i - 0) (ph d)); [lia|].
    destruct (Nat.leb_spec 0 (i - 0)); [|lia].
    destruct (Nat.ltb_spec (i - 0) (0 + ph d)); [|lia].
    destruct (Nat.leb_spec 0 (j - 0)); [|lia].
    destruct (Nat.ltb_spec (j - 0) (0 + nu d)); [|lia].
    cbn [andb]. f_equal. lia.
  - intros j Hj.
    cbn [setBlock setZero setRow setMiddleRowsM resize transpose mapMat row
         rows cols coef at_].
    unfold in_block.
    destruct (Nat.leb_spec 0 (ph d)); [|lia].
    destruct (Nat.ltb_spec (ph d) (0 + (ph d + 1))); [|lia].
    destruct (Nat.leb_spec 0 j); [|lia].
    destruct (Nat.ltb_spec j (0 + nu d)); [|lia].
    destruct (Nat.ltb_spec j (nu d)); [|lia].
    destruct (Nat.leb_spec 0 (ph d - 1)); [|lia].
    cbn [andb].
    rewrite !Nat.sub_0_r, Nat.eqb_refl, (proj2 (Nat.ltb_lt _ _) Hj). cbn [andb].
    destruct (Nat.ltb_spec (ph d - 1) (0 + (ph d + 1))); [|lia].
    destruct (Nat.eqb_spec (ph d - 1) (ph d)); cbn [andb]; reflexivity.
  - rewrite Hsize. f_equal. lia.
Qed.

End Unwrap.

Lemma unwrapVector_result_witness :
  (Mapping.initialized Examples.scaledMapping = true /\
   rows Examples.Xmat = 2 /\ cols Examples.Xmat = 1 /\ size Examples.flat = 3) /\
  exists X U slack,
    Mapping.unwrapVector Examples.scaledMapping Examples.flat Examples.x0
      Examples.Xmat Examples.Umat = Some (X, U, slack) /\
    coef X 0 0 = 6%float /\ coef X 1 0 = 6%float /\ slack = 0%float.
Proof.
  split; [repeat split|].
  destruct (unwrapVector_result Examples.scaledMapping Examples.flat Examples.x0
              Examples.Xmat Examples.Umat eq_refl eq_refl eq_refl eq_refl)
    as (X & U & slack & He & H0 & H1 & _ & _ & Hs).
  exists X, U, slack.
  split; [exact He|].
  split; [rewrite (H0 0 (Nat.lt_0_1)); reflexivity|].
  split; [rewrite (H1 1 0 (conj (le_n 1) (le_n 1)) Nat.lt_0_1); reflexivity|].
  rewrite Hs. reflexivity.
Defined.

(** C5 as it was stated fails: with a state scaling of 2, row 0 of the state
    trajectory is not [x0] (it is rescaled with the other rows), and row 1 is
    not the first block of the flat vector times the inverse scaling [1/2]
    (it is that block divided by the inverse scaling). *)
Lemma unwrapVector_rescales_every_row :
  exists X U slack,
    Mapping.unwrapVector Examples.scaledMapping Examples.flat Examples.x0
      Examples.Xmat Examples.Umat = Some (X, U, slack) /\
    coef X 0 0 <> at_ Examples.x0 0 /\
    coef X 1 0 <> smul (at_ Examples.flat 0)
                       (at_ (Mapping.inverse_state_scaling Examples.scaledMapping) 0).
Proof.
  eexists _, _, _. split; [reflexivity|].
  split; intro H; apply (f_equal (fun z => PrimFloat.eqb z 6%float)) in H;
    vm_compute in H; discriminate.
Qed.

(** ** The linear builder: bounds returned by [get] *)

Section BuilderBounds.
Context {T : Type} {ST : Scalar T}.
Import Common.

Lemma in_rows_true (r0 h k : nat) : r0 <= k -> k < r0 + h -> in_rows r0 h k = true.
Proof.
  intros H1 H2. unfold in_rows.
  apply andb_true_intro; split; [now apply Nat.leb_le | now apply Nat.ltb_lt].
Qed.

Lemma in_rows_before (r0 h k : nat) : k < r0 -> in_rows r0 h k = false.
Proof.
  intros H. unfold in_rows. apply andb_false_iff. left. now apply Nat.leb_gt.
Qed.

Lemma in_rows_after (r0 h k : nat) : r0 + h <= k -> in_rows r0 h k = false.
Proof.
  intros H. unfold in_rows. apply andb_false_iff. right. now apply Nat.ltb_ge.
Qed.

(** The equality segment of the bounds returned by [get] is the builder's
    [leq] after the call, on both sides. *)
Lemma get_equality_rows (x0 u0 yRef uRef deltaURef uMeas : cvec T)
      (b : ProblemBuilder.t T) (k : nat) :
  let d := ProblemBuilder.dim b in
  let r := ProblemBuilder.get x0 u0 yRef uRef deltaURef uMeas b in
  k < (ph d + 1) * (nu d + nx d) ->
  at_ (ProblemBuilder.l (fst r)) k = at_ (ProblemBuilder.leq (snd r)) k /\
  at_ (ProblemBuilder.u (fst r)) k = at_ (ProblemBuilder.leq (snd r)) k.
Proof.
  cbv zeta. intros Hk. unfold ProblemBuilder.get, ProblemBuilder.withProblem.
  cbn [fst snd ProblemBuilder.l ProblemBuilder.u ProblemBuilder.leq].
  set (s := for_upto _ _ _).
  set (le := setMiddleRows (ProblemBuilder.sleq s) 0 _ _).
  unfold setMiddleRows at 1 3. cbn [at_].
  rewrite in_rows_before by exact Hk.
  unfold setMiddleRows at 1 2. cbn [at_].
  rewrite in_rows_true by lia.
  rewrite Nat.sub_0_r. split; reflexivity.
Qed.

(** C3.  For every call of [get], the first [nx] rows of the lower and of
    the upper bound of the returned problem are [-x0], and on the equality
    segment, the first [(ph + 1) * (nx + nu)] rows, the lower and the upper
    bound are equal. *)
Theorem get_equality_bounds (x0 u0 yRef uRef deltaURef uMeas : cvec T)
        (b : ProblemBuilder.t T) :
  let d := ProblemBuilder.dim b in
  let p := fst (ProblemBuilder.get x0 u0 yRef uRef deltaURef uMeas b) in
  (forall k, k < nx d ->
     at_ (ProblemBuilder.l p) k = sopp (at_ x0 k) /\
     at_ (ProblemBuilder.u p) k = sopp (at_ x0 k)) /\
  (forall k, k < (ph d + 1) * (nx d + nu d) ->
     at_ (ProblemBuilder.l p) k = at_ (ProblemBuilder.u p) k).
Proof.
  cbv zeta. split.
  - intros k Hk.
    assert (Hk' : k < (ph (ProblemBuilder.dim b) + 1)
                      * (nu (ProblemBuilder.dim b) + nx (ProblemBuilder.dim b))) by nia.
    destruct (get_equality_rows x0 u0 yRef uRef deltaURef uMeas b k Hk') as (Hl & Hu).
    rewrite Hl, Hu.
    unfold ProblemBuilder.get, ProblemBuilder.withProblem.
    cbn [snd ProblemBuilder.leq setMiddleRows at_ vopp].
    rewrite in_rows_true by lia.
    rewrite Nat.sub_0_r. split; reflexivity.
  - intros k Hk.
    assert (Hk' : k < (ph (ProblemBuilder.dim b) + 1)
                      * (nu (ProblemBuilder.dim b) + nx (ProblemBuilder.dim b))) by lia.
    destruct (get_equality_rows x0 u0 yRef uRef deltaURef uMeas b k Hk') as (Hl & Hu).
    now rewrite Hl, Hu.
Qed.

(** Scenario 1 of the specification, run on binary64: with the identity as
    state matrix and no disturbance, the first two rows of both bounds are
    [-x0] for [x0 = (1.5, -2)]. *)
Example get_scenario_1 :
  exists b,
    option_map snd
      (ProblemBuilder.setStateModel infinity Examples.modelA Examples.modelB
         Examples.modelC Examples.builder) = Some b /\
    let p := fst (ProblemBuilder.get (vecOf [1.5; -2]%float 0%float) (Examples.zeros 1)
                    (Examples.zeros 1) (Examples.zeros 1) (Examples.zeros 1)
                    (Examples.zeros 1) b) in
    at_ (ProblemBuilder.l p) 0 = (-1.5)%float /\ at_ (ProblemBuilder.u p) 0 = (-1.5)%float /\
    at_ (ProblemBuilder.l p) 1 = 2%float /\ at_ (ProblemBuilder.u p) 1 = 2%float.
Proof.
  eexists. split; [reflexivity|]. cbv zeta. repeat split; vm_compute; reflexivity.
Qed.

(** C10.  The second argument of [get] has no influence: whatever [u0] is
    passed, the returned problem and the builder left behind are the same. *)
Theorem get_ignores_u0 (x0 u0a u0b yRef uRef deltaURef uMeas : cvec T)
        (b : ProblemBuilder.t T) :
  ProblemBuilder.get x0 u0a yRef uRef deltaURef uMeas b
  = ProblemBuilder.get x0 u0b yRef uRef deltaURef uMeas b.
Proof.
  unfold ProblemBuilder.get. reflexivity.
Qed.

End BuilderBounds.

(** ** The linear builder: the rate rows set by [buildTITerms] *)

Section RateBounds.
Context {T : Type} {ST : Scalar T}.
Variable inf : T.
Import Common.

Lemma in_rows_shift (off a h k : nat) : in_rows (off + a) h (off + k) = in_rows a h k.
Proof.
  unfold in_rows.
  destruct (Nat.leb_spec (off + a) (off + k)), (Nat.leb_spec a k); try lia;
    destruct (Nat.ltb_spec (off + k) (off + a + h)), (Nat.ltb_spec k (a + h));
    try reflexivity; lia.
Qed.

(** After [t] iterations of the rate loop, the rows of steps [0..t-1] hold
    the bound chosen for their step, and the other rows are untouched. *)
Lemma rateBounds_loop (d : Dims) (li ui : cvec T) (t i k : nat) :
  let off := ProblemBuilder.nEq d + (ph d + 1) * ny d in
  let r := for_upto t (ProblemBuilder.rateBounds_body inf d) (li, ui) in
  k < nu d ->
  at_ (fst r) (off + i * nu d + k)
  = (if i <? t then smul sone (if ch d <? i then szero else sopp inf)
     else at_ li (off + i * nu d + k)) /\
  at_ (snd r) (off + i * nu d + k)
  = (if i <? t then smul sone (if ch d <? i then szero else inf)
     else at_ ui (off + i * nu d + k)).
Proof.
  cbv zeta. intros Hk.
  induction t as [|t IH]; [simpl; split; reflexivity | rewrite for_upto_S].
  set (r := for_upto t (ProblemBuilder.rateBounds_body inf d) (li, ui)) in *.
  destruct IH as (IHl & IHu).
  unfold ProblemBuilder.rateBounds_body.
  cbn [fst snd setMiddleRows at_ vscale vsetOnes vresize].
  rewrite <- !Nat.add_assoc, !in_rows_shift, !in_rows_aligned by exact Hk.
  rewrite !Nat.add_assoc, IHl, IHu.
  destruct (Nat.eqb_spec i t) as [->|Hi].
  - rewrite (proj2 (Nat.ltb_lt t (S t)) (Nat.lt_succ_diag_r t)). split; reflexivity.
  - destruct (Nat.ltb_spec i t), (Nat.ltb_spec i (S t)); try (split; reflexivity); lia.
Qed.

(** C4.  After [buildTITerms], for every horizon step [i < ph] the [nu] rate
    rows of step [i] are bounded by [0, 0] when [i > ch] and by
    [-inf, +inf] otherwise.  (The source forms each bound as [1 * bound];
    the three products involved are assumed to be exact.) *)
Theorem buildTITerms_rate_bounds (b : ProblemBuilder.t T) (i k : nat) :
  let d := ProblemBuilder.dim b in
  let b' := snd (ProblemBuilder.buildTITerms inf b) in
  let r := ProblemBuilder.nEq d + (ph d + 1) * ny d + i * nu d + k in
  smul sone szero = szero ->
  smul sone inf = inf ->
  smul sone (sopp inf) = sopp inf ->
  i < ph d -> k < nu d ->
  at_ (ProblemBuilder.lineq b') r = (if ch d <? i then szero else sopp inf) /\
  at_ (ProblemBuilder.uineq b') r = (if ch d <? i then szero else inf).
Proof.
  cbv zeta. intros Hz Hp Hn Hi Hk.
  unfold ProblemBuilder.buildTITerms, ProblemBuilder.withProblem.
  cbn [snd ProblemBuilder.lineq ProblemBuilder.uineq].
  match goal with
  | |- context [for_upto ?t (ProblemBuilder.rateBounds_body inf ?d) (?li, ?ui)] =>
      destruct (rateBounds_loop d li ui t i k Hk) as (Hl & Hu)
  end.
  rewrite Hl, Hu, (proj2 (Nat.ltb_lt _ _) Hi).
  destruct (ch (ProblemBuilder.dim b) <? i); rewrite ?Hz, ?Hp, ?Hn; split; reflexivity.
Qed.

End RateBounds.

Lemma buildTITerms_rate_bounds_witness :
  let b' := snd (ProblemBuilder.buildTITerms infinity Examples.builder) in
  (smul sone szero = szero /\ smul sone infinity = infinity /\
   smul sone (sopp infinity) = sopp infinity /\ 2 < 3 /\ 0 < 1) /\
  at_ (ProblemBuilder.lineq b') 18 = 0%float /\
  at_ (ProblemBuilder.uineq b') 18 = 0%float.
Proof.
  assert (Hi : 2 < 3) by lia.
  assert (Hk : 0 < 1) by lia.
  split; [repeat split; assumption|].
  exact (buildTITerms_rate_bounds infinity Examples.builder 2 0
           eq_refl eq_refl eq_refl Hi Hk).
Defined.

(** ** C7: the augmented model *)

Section AugmentedModel.
Context {T : Type} {ST : Scalar T}.
Variable inf : T.
Import Common.

Lemma in_block_true (r0 c0 h w i j : nat) :
  r0 <= i < r0 + h -> c0 <= j < c0 + w -> in_block r0 c0 h w i j = true.
Proof.
  intros Hi Hj. rewrite in_block_rows, !in_rows_true by lia. reflexivity.
Qed.

(** [buildTITerms] assigns the problem and the inequality bounds only. *)
Lemma buildTITerms_frame (b : ProblemBuilder.t T) :
  let b' := snd (ProblemBuilder.buildTITerms inf b) in
  ProblemBuilder.dim b' = ProblemBuilder.dim b /\
  ProblemBuilder.initialized b' = ProblemBuilder.initialized b /\
  ProblemBuilder.ssA b' = ProblemBuilder.ssA b /\
  ProblemBuilder.ssB b' = ProblemBuilder.ssB b.
Proof. repeat split. Qed.

Lemma setStateModel_augmented (Am Bm Cm : mat T) (b : ProblemBuilder.t T) :
  ProblemBuilder.initialized b = true ->
  exists b',
    ProblemBuilder.setStateModel inf Am Bm Cm b = Some (true, b') /\
    ProblemBuilder.initialized b' = true /\
    ProblemBuilder.dim b' = ProblemBuilder.dim b /\
    BuilderSpec.augmented b'.
Proof.
  intros Hinit. unfold ProblemBuilder.setStateModel, checkOrQuit. rewrite Hinit.
  eexists. split; [reflexivity|]. split; [exact Hinit|]. split; [reflexivity|].
  intros i j Hi Hj.
  cbn [snd ProblemBuilder.buildTITerms ProblemBuilder.withProblem ProblemBuilder.withModel
       ProblemBuilder.ssA ProblemBuilder.ssB ProblemBuilder.dim
       setBlockIdentity coef] in *.
  rewrite !in_block_true by lia.
  replace (nx (ProblemBuilder.dim b) + i - nx (ProblemBuilder.dim b)) with i by lia.
  replace (nx (ProblemBuilder.dim b) + j - nx (ProblemBuilder.dim b)) with j by lia.
  rewrite Nat.sub_0_r. split; reflexivity.
Qed.

(** Every call keeps the invariant, the initialisation flag and the sizes. *)
Lemma perform_augmented (c : ProblemBuilder.call T) (b : ProblemBuilder.t T) :
  ProblemBuilder.initialized b = true ->
  BuilderSpec.augmented b ->
  exists b',
    ProblemBuilder.perform inf c b = Some b' /\
    ProblemBuilder.initialized b' = true /\
    BuilderSpec.augmented b'.
Proof.
  intros Hinit Haug. destruct c; cbn [ProblemBuilder.perform].
  - destruct (setStateModel_augmented Am Bm Cm b Hinit) as (b' & He & Hi & _ & Ha).
    exists b'. rewrite He. split; [reflexivity|]. split; assumption.
  - unfold ProblemBuilder.setExogenuosInput, checkOrQuit. rewrite Hinit.
    eexists. split; [reflexivity|]. split; [exact Hinit | exact Haug].
  - unfold ProblemBuilder.setObjective, checkOrQuit. rewrite Hinit.
    eexists. split; [reflexivity|]. split; [exact Hinit | exact Haug].
  - unfold ProblemBuilder.setConstraints, checkOrQuit. rewrite Hinit.
    eexists. split; [reflexivity|]. split; [exact Hinit | exact Haug].
  - eexists. split; [reflexivity|]. split; [exact Hinit | exact Haug].
Qed.

(** C7.  On an initialised builder, [setStateModel(A, B, C)] succeeds for all
    matrices [A], [B], [C] and leaves the bottom-right [nu x nu] block of
    [ssA] and the bottom [nu x nu] block of [ssB] equal to the identity; every
    sequence of later calls ([setStateModel], [setExogenuosInput],
    [setObjective], [setConstraints], [get]) succeeds and keeps both. *)
Theorem setStateModel_invariant (Am Bm Cm : mat T) (cs : list (ProblemBuilder.call T))
        (b : ProblemBuilder.t T) :
  ProblemBuilder.initialized b = true ->
  exists b1 b2,
    ProblemBuilder.setStateModel inf Am Bm Cm b = Some (true, b1) /\
    BuilderSpec.augmented b1 /\
    ProblemBuilder.performAll inf cs b1 = Some b2 /\
    BuilderSpec.augmented b2.
Proof.
  intros Hinit.
  destruct (setStateModel_augmented Am Bm Cm b Hinit) as (b1 & He & Hi & _ & Ha).
  exists b1.
  assert (G : exists b2, ProblemBuilder.performAll inf cs b1 = Some b2
                         /\ BuilderSpec.augmented b2).
  { clear He. revert b1 Hi Ha.
    induction cs as [|c cs IH]; intros b1 Hi Ha; cbn [ProblemBuilder.performAll].
    - exists b1. split; [reflexivity | exact Ha].
    - destruct (perform_augmented c b1 Hi Ha) as (b' & Hp & Hi' & Ha').
      rewrite Hp. apply IH; assumption. }
  destruct G as (b2 & Hp & Ha2).
  exists b2. split; [exact He|]. split; [exact Ha|]. split; assumption.
Qed.

End AugmentedModel.

Lemma setStateModel_invariant_witness :
  ProblemBuilder.initialized Examples.builder = true /\
  exists b1 b2,
    ProblemBuilder.setStateModel infinity Examples.modelA Examples.modelB Examples.modelC
      Examples.builder = Some (true, b1) /\
    BuilderSpec.augmented b1 /\
    ProblemBuilder.performAll infinity Examples.laterCalls b1 = Some b2 /\
    BuilderSpec.augmented b2.
Proof.
  split; [reflexivity|].
  exact (setStateModel_invariant infinity Examples.modelA Examples.modelB Examples.modelC
           Examples.laterCalls Examples.builder eq_refl).
Defined.

(** ** C2: the inequality bounds across control steps *)

Section OutputBounds.
Context {T : Type} {ST : Scalar T}.
Import Common.

Lemma in_rows_aligned_off (n off J R a : nat) :
  a < n -> in_rows (J * n + off) n (R * n + off + a) = (R =? J).
Proof.
  intros Ha.
  replace (J * n + off) with (off + J * n) by lia.
  replace (R * n + off + a) with (off + (R * n + a)) by lia.
  rewrite in_rows_shift. now apply in_rows_aligned.
Qed.

(** After [t] iterations of the loop of [get], the output rows of the steps
    [0..t-1] of [lineq] and [uineq] have had [v], the disturbance
    feed-through, subtracted from what they held before the call. *)
Lemma get_loop_output_rows (b : ProblemBuilder.t T) (eRef deltaURef uMeas : cvec T)
      (s0 : ProblemBuilder.stepVars T) (t i k : nat) :
  let d := ProblemBuilder.dim b in
  let v := mulmv (block (ProblemBuilder.ssDv b) 0 0 (ny d) (ndu d)) uMeas in
  let idx := i * ny d + (ph d + 1) * (nu d + nx d) + k in
  let s := for_upto t (ProblemBuilder.get_body b eRef deltaURef uMeas) s0 in
  k < ny d ->
  at_ (ProblemBuilder.slineq s) idx
  = (if i <? t then ssub (at_ (ProblemBuilder.slineq s0) idx) (at_ v k)
     else at_ (ProblemBuilder.slineq s0) idx) /\
  at_ (ProblemBuilder.suineq s) idx
  = (if i <? t then ssub (at_ (ProblemBuilder.suineq s0) idx) (at_ v k)
     else at_ (ProblemBuilder.suineq s0) idx).
Proof.
  cbv zeta. intros Hk.
  induction t as [|t IH]; [simpl; split; reflexivity | rewrite for_upto_S].
  set (s := for_upto t (ProblemBuilder.get_body b eRef deltaURef uMeas) s0) in *.
  destruct IH as (IHl & IHu).
  unfold ProblemBuilder.get_body.
  cbn [ProblemBuilder.slineq ProblemBuilder.suineq subMiddleRows at_].
  rewrite !in_rows_aligned_off by exact Hk.
  rewrite IHl, IHu.
  destruct (Nat.eqb_spec i t) as [->|Hi].
  - rewrite Nat.ltb_irrefl, (proj2 (Nat.ltb_lt t (S t)) (Nat.lt_succ_diag_r t)).
    replace (t * ny (ProblemBuilder.dim b)
             + (ph (ProblemBuilder.dim b) + 1)
               * (nu (ProblemBuilder.dim b) + nx (ProblemBuilder.dim b)) + k
             - (t * ny (ProblemBuilder.dim b)
                + (ph (ProblemBuilder.dim b) + 1)
                  * (nu (ProblemBuilder.dim b) + nx (ProblemBuilder.dim b))))
      with k by lia.
    split; reflexivity.
  - destruct (Nat.ltb_spec i t), (Nat.ltb_spec i (S t)); try (split; reflexivity); lia.
Qed.

(** What [get] returns in the output rows, for every builder: the content
    of the builder's [lineq]/[uineq] before the call minus the disturbance
    feed-through; the difference is stored back in the builder. *)
Lemma get_output_rows (x0 u0 yRef uRef deltaURef uMeas : cvec T)
      (b : ProblemBuilder.t T) (i k : nat) :
  let d := ProblemBuilder.dim b in
  let v := mulmv (block (ProblemBuilder.ssDv b) 0 0 (ny d) (ndu d)) uMeas in
  let idx := i * ny d + (ph d + 1) * (nu d + nx d) + k in
  let r := ProblemBuilder.get x0 u0 yRef uRef deltaURef uMeas b in
  i < ph d + 1 -> k < ny d ->
  at_ (ProblemBuilder.l (fst r)) ((ph d + 1) * (nu d + nx d) + idx)
  = ssub (at_ (ProblemBuilder.lineq b) idx) (at_ v k) /\
  at_ (ProblemBuilder.u (fst r)) ((ph d + 1) * (nu d + nx d) + idx)
  = ssub (at_ (ProblemBuilder.uineq b) idx) (at_ v k) /\
  at_ (ProblemBuilder.lineq (snd r)) idx
  = ssub (at_ (ProblemBuilder.lineq b) idx) (at_ v k) /\
  at_ (ProblemBuilder.uineq (snd r)) idx
  = ssub (at_ (ProblemBuilder.uineq b) idx) (at_ v k).
Proof.
  cbv zeta. intros Hi Hk.
  unfold ProblemBuilder.get, ProblemBuilder.withProblem.
  cbn [fst snd ProblemBuilder.l ProblemBuilder.u ProblemBuilder.lineq ProblemBuilder.uineq].
  match goal with
  | |- context [for_upto ?t (ProblemBuilder.get_body b ?e deltaURef uMeas) ?s0] =>
      destruct (get_loop_output_rows b e deltaURef uMeas s0 t i k Hk) as (Hl & Hu);
      set (s := for_upto t (ProblemBuilder.get_body b e deltaURef uMeas) s0) in *
  end.
  cbn [ProblemBuilder.slineq ProblemBuilder.suineq] in Hl, Hu.
  rewrite (proj2 (Nat.ltb_lt _ _) Hi) in Hl, Hu.
  assert (Hin : i * ny (ProblemBuilder.dim b) + k
                < (ph (ProblemBuilder.dim b) + 1) * ny (ProblemBuilder.dim b)).
  { apply block_index_lt; lia. }
  unfold setMiddleRows at 1 4. cbn [at_].
  rewrite !in_rows_true by lia.
  match goal with
  | |- context [?a + ?j - ?a] => replace (a + j - a) with j by lia
  end.
  rewrite Hl, Hu. repeat split; reflexivity.
Qed.

End OutputBounds.

(** C2 fails on the code.  On a builder with output bounds [-10, 10] and a
    unit disturbance feed-through, two consecutive calls of [get] with the
    same arguments (measured disturbance 1) return different bounds: the
    first output row is bounded by [-11, 9] after the first call (the stored
    bounds minus the feed-through) and by [-12, 8] after the second, the
    stored [minY]/[maxY] being unchanged: [get] subtracts the feed-through
    from the builder's own [lineq]/[uineq] each time it is called. *)
Theorem get_twice_drifts :
  exists b,
    Examples.disturbedBuilder = Some b /\
    let r1 := Examples.step b in
    let r2 := Examples.step (snd r1) in
    coef (ProblemBuilder.minY (snd r1)) 0 0 = (-10)%float /\
    coef (ProblemBuilder.maxY (snd r1)) 0 0 = 10%float /\
    at_ (ProblemBuilder.l (fst r1)) 8 = (-11)%float /\
    at_ (ProblemBuilder.u (fst r1)) 8 = 9%float /\
    at_ (ProblemBuilder.l (fst r2)) 8 = (-12)%float /\
    at_ (ProblemBuilder.u (fst r2)) 8 = 8%float /\
    fst r1 <> fst r2.
Proof.
  eexists. split; [reflexivity|]. cbv zeta.
  repeat (split; [vm_compute; reflexivity|]).
  intro H.
  apply (f_equal (fun p => PrimFloat.eqb (at_ (ProblemBuilder.l p) 8) (-11)%float)) in H.
  vm_compute in H. discriminate.
Qed.

(** ** C9: the disturbance matrices wired by the linear front-end *)

Section FrontEnd.
Context {T : Type} {ST : Scalar T}.
Variable inf : T.
Variables B D : mat T.
Import Common.

Lemma in_block_origin (h w i j : nat) : i < h -> j < w -> in_block 0 0 h w i j = true.
Proof. intros Hi Hj. apply in_block_true; lia. Qed.

(** What [setExogenuosInput(Bm, Dm)] stores. *)
Lemma setExogenuosInput_stores (Bm Dm : mat T) (b : ProblemBuilder.t T) :
  ProblemBuilder.initialized b = true ->
  exists b',
    ProblemBuilder.setExogenuosInput inf Bm Dm b = Some (true, b') /\
    ProblemBuilder.dim b' = ProblemBuilder.dim b /\
    (forall i j, i < nx (ProblemBuilder.dim b) -> j < ndu (ProblemBuilder.dim b) ->
       coef (ProblemBuilder.ssBv b') i j = coef Bm i j) /\
    (forall i j, i < ny (ProblemBuilder.dim b) -> j < ndu (ProblemBuilder.dim b) ->
       coef (ProblemBuilder.ssDv b') i j = coef Dm i j).
Proof.
  intros Hinit. unfold ProblemBuilder.setExogenuosInput, checkOrQuit. rewrite Hinit.
  eexists. split; [reflexivity|]. split; [reflexivity|].
  split; intros i j Hi Hj;
    cbn [snd ProblemBuilder.buildTITerms ProblemBuilder.withProblem
         ProblemBuilder.withExogenous ProblemBuilder.ssBv ProblemBuilder.ssDv
         setBlock coef];
    rewrite in_block_origin by assumption; now rewrite !Nat.sub_0_r.
Qed.

(** C9.  On an initialised front-end, [setDisturbances(Bd, Dd)] stores in the
    builder the coefficients of the outer objects [B] and [D], whatever the
    arguments [Bd] and [Dd] are; its result does not depend on them. *)
Theorem setDisturbances_forwards_outer (Bd Dd : mat T) (c : LMPC.t T) :
  LMPC.initialized c = true ->
  ProblemBuilder.initialized (LMPC.builder c) = true ->
  (forall Bd' Dd', LMPC.setDisturbances inf B D Bd Dd c
                   = LMPC.setDisturbances inf B D Bd' Dd' c) /\
  exists c',
    LMPC.setDisturbances inf B D Bd Dd c = Some (true, c') /\
    let d := ProblemBuilder.dim (LMPC.builder c) in
    (forall i j, i < nx d -> j < ndu d ->
       coef (ProblemBuilder.ssBv (LMPC.builder c')) i j = coef B i j) /\
    (forall i j, i < ny d -> j < ndu d ->
       coef (ProblemBuilder.ssDv (LMPC.builder c')) i j = coef D i j).
Proof.
  intros Hc Hb. split; [intros Bd' Dd'; reflexivity|].
  destruct (setExogenuosInput_stores B D (LMPC.builder c) Hb) as (b' & He & _ & HB & HD).
  unfold LMPC.setDisturbances, LMPC.forward, checkOrQuit. rewrite Hc.
  cbn [andThen]. rewrite He. cbn [andThen].
  eexists. split; [reflexivity|]. cbv zeta. cbn [LMPC.builder].
  split; assumption.
Qed.

End FrontEnd.

Lemma setDisturbances_forwards_outer_witness :
  (LMPC.initialized Examples.frontEnd = true /\
   ProblemBuilder.initialized (LMPC.builder Examples.frontEnd) = true) /\
  exists c',
    LMPC.setDisturbances infinity Examples.outerB Examples.outerD
      Examples.modelB (Examples.one 1) Examples.frontEnd = Some (true, c') /\
    coef (ProblemBuilder.ssBv (LMPC.builder c')) 1 0 = 7%float /\
    coef (ProblemBuilder.ssDv (LMPC.builder c')) 0 0 = 9%float.
Proof.
  split; [split; reflexivity|].
  destruct (setDisturbances_forwards_outer infinity Examples.outerB Examples.outerD
              Examples.modelB (Examples.one 1) Examples.frontEnd eq_refl eq_refl)
    as (_ & c' & He & HB & HD).
  exists c'. split; [exact He|]. split.
  - rewrite (HB 1 0); [reflexivity | vm_compute; lia | vm_compute; lia].
  - rewrite (HD 0 0); [reflexivity | vm_compute; lia | vm_compute; lia].
Defined.

(** ** C6: the fail-safe of the nonlinear optimizer *)

Section FailSafe.
Context {T : Type} {ST : Scalar T}.
Variable freshResult : NLOptimizer.Result T.

(** With an initialised mapping the warm start is built. *)
Lemma warmStart_built (x0 u0 : cvec T) (o : NLOptimizer.t T) :
  Mapping.initialized (NLOptimizer.mapping o) = true ->
  exists w, NLOptimizer.warmStart x0 u0 o = Some w.
Proof.
  intros Hm. unfold NLOptimizer.warmStart, Mapping.Iu2z, Common.checkOrQuit.
  rewrite Hm. cbn [andThen]. eexists. reflexivity.
Qed.

(** C6.  On an initialised optimizer holding an initialised mapping, if the
    solver's [optimize] throws on the warm start, [run(x0, u0)] returns
    normally: the command of the result is the stored command of the last
    result, the return code is [-1], the result becomes the stored one, and
    the slack is kept. *)
Theorem run_solver_failure (x0 u0 : cvec T) (o : NLOptimizer.t T) :
  NLOptimizer.initialized o = true ->
  Mapping.initialized (NLOptimizer.mapping o) = true ->
  (forall w, NLOptimizer.warmStart x0 u0 o = Some w ->
             exists what, NLOptimizer.innerOpt o w = NLOptimizer.Throws what) ->
  exists r o',
    NLOptimizer.run freshResult x0 u0 o = Some (r, o') /\
    NLOptimizer.cmd r = NLOptimizer.cmd (NLOptimizer.last_r o) /\
    NLOptimizer.retcode r = (-1)%Z /\
    NLOptimizer.last_r o' = r /\
    NLOptimizer.currentSlack o' = NLOptimizer.currentSlack o.
Proof.
  intros Hinit Hmap Hthrow.
  destruct (warmStart_built x0 u0 o Hmap) as (w & Hw).
  destruct (Hthrow w Hw) as (what & Ht).
  unfold NLOptimizer.run, Common.checkOrQuit. rewrite Hinit. cbn [andThen].
  rewrite Hw. cbn [andThen]. rewrite Ht. cbn [andThen].
  eexists _, _. split; [reflexivity|]. repeat split.
Qed.

End FailSafe.

Lemma run_solver_failure_witness :
  (NLOptimizer.initialized Examples.failing = true /\
   Mapping.initialized (NLOptimizer.mapping Examples.failing) = true) /\
  exists r o',
    NLOptimizer.run Examples.freshResult (Examples.zeros 2) (Examples.zeros 1)
      Examples.failing = Some (r, o') /\
    at_ (NLOptimizer.cmd r) 0 = 4%float /\
    NLOptimizer.retcode r = (-1)%Z.
Proof.
  split; [split; reflexivity|].
  destruct (run_solver_failure Examples.freshResult (Examples.zeros 2) (Examples.zeros 1)
              Examples.failing eq_refl eq_refl
              (fun w _ => ex_intro _ "nlopt failure"%string eq_refl))
    as (r & o' & He & Hc & Hr & _).
  exists r, o'. split; [exact He|]. split; [rewrite Hc; reflexivity | exact Hr].
Defined.

(** ** C8: the objective matrix, over an exact ordered ring *)

Section ObjectiveMatrix.
Context {T : Type} {ST : Scalar T}.
Variable inf : T.
Variable sle : T -> T -> Prop.
Hypothesis OR : BuilderSpec.OrderedRing sle.

Add Ring scalar_ring : (BuilderSpec.exact_ring OR).

Lemma ssum_ext (n : nat) (f g : nat -> T) :
  (forall k, k < n -> f k = g k) -> ssum n f = ssum n g.
Proof.
  induction n as [|n IH]; intros H; simpl; [reflexivity|].
  rewrite IH, H; [reflexivity | lia | intros k Hk; apply H; lia].
Qed.

Lemma ssum_zero (n : nat) : ssum n (fun _ => szero) = szero.
Proof. induction n as [|n IH]; simpl; [reflexivity | rewrite IH; ring]. Qed.

Lemma ssum_add (n : nat) (f g : nat -> T) :
  ssum n (fun k => sadd (f k) (g k)) = sadd (ssum n f) (ssum n g).
Proof. induction n as [|n IH]; simpl; [ring | rewrite IH; ring]. Qed.

Lemma ssum_mul_l (n : nat) (f : nat -> T) (c : T) :
  ssum n (fun k => smul c (f k)) = smul c (ssum n f).
Proof. induction n as [|n IH]; simpl; [ring | rewrite IH; ring]. Qed.

Lemma ssum_mul_r (n : nat) (f : nat -> T) (c : T) :
  ssum n (fun k => smul (f k) c) = smul (ssum n f) c.
Proof. induction n as [|n IH]; simpl; [ring | rewrite IH; ring]. Qed.

Lemma ssum_nonneg (n : nat) (f : nat -> T) :
  (forall k, k < n -> sle szero (f k)) -> sle szero (ssum n f).
Proof.
  induction n as [|n IH]; intros H; simpl.
  - apply (BuilderSpec.nonneg_zero OR).
  - apply (BuilderSpec.nonneg_add OR); [apply IH; intros k Hk; apply H; lia | apply H; lia].
Qed.

(** A sum whose only non-zero term is the one of index [j]. *)
Lemma ssum_single (n j : nat) (g : nat -> T) :
  ssum n (fun k => if k =? j then g k else szero) = if j <? n then g j else szero.
Proof.
  induction n as [|n IH]; simpl; [reflexivity|].
  rewrite IH.
  destruct (Nat.eqb_spec n j) as [->|Hn].
  - rewrite Nat.ltb_irrefl, (proj2 (Nat.ltb_lt j (S j)) (Nat.lt_succ_diag_r j)). ring.
  - destruct (Nat.ltb_spec j n), (Nat.ltb_spec j (S n)); try ring; lia.
Qed.

Lemma in_rows_empty (o k : nat) : in_rows o 0 k = false.
Proof.
  unfold in_rows. destruct (Nat.leb_spec o k), (Nat.ltb_spec k (o + 0)); try reflexivity; lia.
Qed.

(** A sum restricted to the window [o <= r < o + h]. *)
Lemma ssum_window (n o : nat) (f : nat -> T) (h : nat) :
  o + h <= n ->
  ssum n (fun r => if in_rows o h r then f r else szero) = ssum h (fun a => f (o + a)).
Proof.
  revert h. induction n as [|n IH]; intros h Hh.
  - assert (h = 0) by lia. subst h. reflexivity.
  - destruct h as [|h].
    + rewrite (ssum_ext (S n) _ (fun _ => szero)); [apply ssum_zero|].
      intros k Hk. now rewrite in_rows_empty.
    + simpl. destruct (Nat.eq_dec (o + S h) (S n)) as [E|E].
      * rewrite in_rows_true by lia.
        rewrite (ssum_ext n _ (fun r => if in_rows o h r then f r else szero)).
        { rewrite IH by lia. replace (o + h) with n by lia. reflexivity. }
        intros k Hk. unfold in_rows.
        destruct (Nat.ltb_spec k (o + S h)), (Nat.ltb_spec k (o + h)); try reflexivity; lia.
      * rewrite (IH (S h)) by lia. rewrite in_rows_after by lia. simpl. ring.
Qed.

(** The same over the square window of a diagonal block. *)
Lemma ssum_block (n o h : nat) (F : nat -> nat -> T) :
  o + h <= n ->
  ssum n (fun r => ssum n (fun c => if in_block o o h h r c then F r c else szero))
  = ssum h (fun a => ssum h (fun b => F (o + a) (o + b))).
Proof.
  intros Hh.
  rewrite (ssum_ext n _
             (fun r => if in_rows o h r
                       then ssum n (fun c => if in_rows o h c then F r c else szero)
                       else szero)).
  - rewrite ssum_window by exact Hh.
    apply ssum_ext. intros a Ha. now apply ssum_window.
  - intros r Hr. destruct (in_rows o h r) eqn:E.
    + apply ssum_ext. intros c Hc. now rewrite in_block_rows, E.
    + transitivity (ssum n (fun _ : nat => szero)); [|apply ssum_zero].
      apply ssum_ext. intros c Hc. now rewrite in_block_rows, E.
Qed.

(** The product of two sums. *)
Lemma ssum_product (n m : nat) (f g : nat -> T) :
  ssum n (fun a => ssum m (fun b => smul (f a) (g b))) = smul (ssum n f) (ssum m g).
Proof.
  induction n as [|n IH]; simpl; [ring|].
  rewrite IH, ssum_mul_l. ring.
Qed.

(** Writing a block on the diagonal of a matrix that is zero there adds the
    quadratic form of the block, taken at the window of the vector. *)
Lemma quadForm_setBlock (M Q : mat T) (o h N : nat) (x : nat -> T) :
  rows M = N -> cols M = N -> o + h <= N ->
  (forall r c, in_block o o h h r c = true -> coef M r c = szero) ->
  BuilderSpec.quadForm (setBlock M o o h h Q) x
  = sadd (BuilderSpec.quadForm M x)
         (ssum h (fun a => ssum h (fun b =>
            smul (smul (x (o + a)) (coef Q a b)) (x (o + b))))).
Proof.
  intros Hr Hc Hh Hz. unfold BuilderSpec.quadForm.
  cbn [setBlock rows cols coef]. rewrite Hr, Hc.
  rewrite (ssum_ext h
             (fun a => ssum h (fun b => smul (smul (x (o + a)) (coef Q a b)) (x (o + b))))
             (fun a => ssum h (fun b =>
                smul (smul (x (o + a)) (coef Q (o + a - o) (o + b - o))) (x (o + b))))).
  - pose proof (ssum_block N o h
                  (fun r c => smul (smul (x r) (coef Q (r - o) (c - o))) (x c)) Hh) as HB.
    cbv beta in HB. rewrite <- HB.
    rewrite <- ssum_add. apply ssum_ext. intros r Hr'.
    rewrite <- ssum_add. apply ssum_ext. intros c Hc'.
    destruct (in_block o o h h r c) eqn:E; [rewrite (Hz r c E)|]; ring.
  - intros a Ha. apply ssum_ext. intros b Hb.
    now replace (o + a - o) with a by lia; replace (o + b - o) with b by lia.
Qed.

(** The quadratic form of [G' * diag(w) * G] is a weighted sum of squares. *)
Lemma gram_quadForm (L h : nat) (g : nat -> nat -> T) (w y : nat -> T) :
  ssum h (fun a => ssum h (fun b =>
    smul (smul (y a) (ssum L (fun l => smul (smul (g l a) (w l)) (g l b)))) (y b)))
  = ssum L (fun l =>
      smul (w l) (smul (ssum h (fun a => smul (g l a) (y a)))
                       (ssum h (fun a => smul (g l a) (y a))))).
Proof.
  induction L as [|L IH].
  - simpl. transitivity (ssum h (fun _ : nat => szero)); [|apply ssum_zero].
    apply ssum_ext. intros a Ha.
    transitivity (ssum h (fun _ : nat => szero)); [|apply ssum_zero].
    apply ssum_ext. intros b Hb. ring.
  - cbn [ssum]. rewrite <- IH.
    rewrite <- ssum_product, <- ssum_mul_l, <- ssum_add.
    apply ssum_ext. intros a Ha.
    rewrite <- !ssum_mul_l, <- ssum_add.
    apply ssum_ext. intros b Hb. ring.
Qed.

(** The coefficients of [C' * W * C] for a diagonal [W]. *)
Lemma congruence_coef (C W : mat T) (a b : nat) :
  (forall k l, k <> l -> coef W k l = szero) ->
  coef (mmul (mmul (transpose C) W) C) a b
  = ssum (cols W) (fun l =>
      smul (smul (coef C l a) (if l <? rows C then coef W l l else szero)) (coef C l b)).
Proof.
  intros Hd. cbn [mmul transpose rows cols coef].
  apply ssum_ext. intros l Hl. f_equal.
  rewrite (ssum_ext (rows C) _
             (fun k => if k =? l then smul (coef C k a) (coef W k l) else szero)).
  - rewrite ssum_single. destruct (l <? rows C); ring.
  - intros k Hk. destruct (Nat.eqb_spec k l) as [->|Hkl]; [reflexivity|].
    rewrite (Hd k l Hkl). ring.
Qed.

Lemma congruence_symmetric (C W : mat T) (a b : nat) :
  (forall k l, k <> l -> coef W k l = szero) ->
  coef (mmul (mmul (transpose C) W) C) a b = coef (mmul (mmul (transpose C) W) C) b a.
Proof.
  intros Hd. rewrite !congruence_coef by exact Hd.
  apply ssum_ext. intros l Hl. ring.
Qed.

Lemma congruence_nonneg (C W : mat T) (h : nat) (y : nat -> T) :
  (forall k l, k <> l -> coef W k l = szero) ->
  (forall k, sle szero (coef W k k)) ->
  sle szero
    (ssum h (fun a => ssum h (fun b =>
       smul (smul (y a) (coef (mmul (mmul (transpose C) W) C) a b)) (y b)))).
Proof.
  intros Hd Hw.
  rewrite (ssum_ext h _ (fun a => ssum h (fun b =>
             smul (smul (y a)
               (ssum (cols W) (fun l =>
                  smul (smul (coef C l a) (if l <? rows C then coef W l l else szero))
                       (coef C l b)))) (y b)))).
  - rewrite (gram_quadForm (cols W) h (fun l a => coef C l a)).
    apply ssum_nonneg. intros l Hl.
    apply (BuilderSpec.nonneg_mul OR); [|apply (BuilderSpec.nonneg_square OR)].
    destruct (l <? rows C); [apply Hw | apply (BuilderSpec.nonneg_zero OR)].
  - intros a Ha. apply ssum_ext. intros b Hb.
    now rewrite congruence_coef by exact Hd.
Qed.

Lemma diagonal_nonneg (v : cvec T) (h : nat) (y : nat -> T) :
  (forall k, k < h -> sle szero (at_ v k)) ->
  sle szero
    (ssum h (fun a => ssum h (fun b => smul (smul (y a) (coef (asDiagonal v) a b)) (y b)))).
Proof.
  intros Hv. apply ssum_nonneg. intros a Ha.
  rewrite (ssum_ext h _
             (fun b => if b =? a then smul (smul (y a) (at_ v a)) (y b) else szero)).
  - rewrite ssum_single, (proj2 (Nat.ltb_lt _ _) Ha).
    replace (smul (smul (y a) (at_ v a)) (y a)) with (smul (at_ v a) (smul (y a) (y a)))
      by ring.
    apply (BuilderSpec.nonneg_mul OR); [now apply Hv | apply (BuilderSpec.nonneg_square OR)].
  - intros b Hb. cbn [asDiagonal coef]. rewrite (Nat.eqb_sym a b).
    destruct (b =? a); ring.
Qed.

Lemma in_block_iff (r0 c0 h w i j : nat) :
  in_block r0 c0 h w i j = true <-> (r0 <= i < r0 + h /\ c0 <= j < c0 + w).
Proof.
  unfold in_block. rewrite !andb_true_iff, !Nat.leb_le, !Nat.ltb_lt. lia.
Qed.

Lemma in_block_sym (o h i j : nat) : in_block o o h h i j = in_block o o h h j i.
Proof.
  rewrite !in_block_rows. apply andb_comm.
Qed.

Lemma quadForm_zero (M : mat T) (x : nat -> T) :
  (forall r c, coef M r c = szero) -> BuilderSpec.quadForm M x = szero.
Proof.
  intros Hz. unfold BuilderSpec.quadForm.
  transitivity (ssum (rows M) (fun _ : nat => szero)); [|apply ssum_zero].
  apply ssum_ext. intros r Hr.
  transitivity (ssum (cols M) (fun _ : nat => szero)); [|apply ssum_zero].
  apply ssum_ext. intros c Hc. rewrite Hz. ring.
Qed.

(** Writing a symmetric block with a non-negative quadratic form on the
    diagonal, where the matrix is still zero, keeps the matrix symmetric and
    positive semi-definite. *)
Lemma psd_setBlock (M Q : mat T) (o h N : nat) :
  rows M = N -> cols M = N -> o + h <= N ->
  (forall r c, in_block o o h h r c = true -> coef M r c = szero) ->
  BuilderSpec.symmetric M ->
  BuilderSpec.positiveSemidefinite sle M ->
  (forall a b, coef Q a b = coef Q b a) ->
  (forall y, sle szero
     (ssum h (fun a => ssum h (fun b => smul (smul (y a) (coef Q a b)) (y b))))) ->
  BuilderSpec.symmetric (setBlock M o o h h Q) /\
  BuilderSpec.positiveSemidefinite sle (setBlock M o o h h Q).
Proof.
  intros Hr Hc Hh Hz Hs Hp HQs HQp. split.
  - intros r c. cbn [setBlock coef]. rewrite (in_block_sym o h c r).
    destruct (in_block o o h h r c); [apply HQs | apply Hs].
  - intros x. rewrite (quadForm_setBlock M Q o h N x Hr Hc Hh Hz).
    apply (BuilderSpec.nonneg_add OR); [apply Hp|].
    apply (HQp (fun a => x (o + a))).
Qed.

Import Common.

(** One assignment of [wExtendedState] keeps it diagonal and non-negative. *)
Lemma stepWeight_diagonal (d : Dims) (wo wu W : mat T) (i : nat) :
  (forall k l, k <> l -> coef W k l = szero) ->
  (forall k, sle szero (coef W k k)) ->
  (forall k, k < ny d -> sle szero (coef wo k i)) ->
  (forall k, k < nu d -> sle szero (coef wu k i)) ->
  (forall k l, k <> l -> coef (ProblemBuilder.stepWeight d wo wu i W) k l = szero) /\
  (forall k, sle szero (coef (ProblemBuilder.stepWeight d wo wu i W) k k)).
Proof.
  intros Hd Hn Ho Hu. split.
  - intros k l Hkl.
    cbn [ProblemBuilder.stepWeight setBlock asDiagonal col coef at_ size rows].
    destruct (in_block (ny d) (ny d) (nu d) (nu d) k l) eqn:E2.
    + apply in_block_iff in E2.
      destruct (Nat.eqb_spec (k - ny d) (l - ny d)); [lia | reflexivity].
    + destruct (in_block 0 0 (ny d) (ny d) k l) eqn:E1.
      * destruct (Nat.eqb_spec (k - 0) (l - 0)); [lia | reflexivity].
      * now apply Hd.
  - intros k.
    cbn [ProblemBuilder.stepWeight setBlock asDiagonal col coef at_ size rows].
    destruct (in_block (ny d) (ny d) (nu d) (nu d) k k) eqn:E2.
    + apply in_block_iff in E2. rewrite Nat.eqb_refl. apply Hu. lia.
    + destruct (in_block 0 0 (ny d) (ny d) k k) eqn:E1.
      * apply in_block_iff in E1. rewrite Nat.eqb_refl. apply Ho. lia.
      * apply Hn.
Qed.

(** One iteration of the loop that fills [P] keeps the invariant. *)
Lemma buildP_body_invariant (b : ProblemBuilder.t T) (t : nat) (s : mat T * mat T) :
  BuilderSpec.nonnegWeights sle b ->
  t < ph (ProblemBuilder.dim b) + 1 ->
  BuilderSpec.objectiveInvariant sle (ProblemBuilder.dim b) t s ->
  BuilderSpec.objectiveInvariant sle (ProblemBuilder.dim b) (S t)
    (ProblemBuilder.buildP_body b t s).
Proof.
  intros (Hwo & Hwu & Hwd) Ht (Hd & Hn & Hr & Hc & Hs & Hp & Hz).
  set (d := ProblemBuilder.dim b) in *.
  unfold ProblemBuilder.nVar in Hr, Hc.
  assert (E1 : S t * (nu d + nx d) = t * (nu d + nx d) + (nu d + nx d)) by lia.
  assert (E2 : S t * (nu d + nx d) <= (ph d + 1) * (nu d + nx d))
    by (apply Nat.mul_le_mono_r; lia).
  destruct (stepWeight_diagonal d (ProblemBuilder.wOutput b) (ProblemBuilder.wU b)
              (fst s) t Hd Hn
              (fun k Hk => Hwo k t Hk Ht) (fun k Hk => Hwu k t Hk Ht)) as (Hd' & Hn').
  unfold BuilderSpec.objectiveInvariant, ProblemBuilder.buildP_body.
  fold d. cbv zeta. cbn [fst snd].
  set (W' := ProblemBuilder.stepWeight d (ProblemBuilder.wOutput b) (ProblemBuilder.wU b)
               t (fst s)) in *.
  set (Q := mmul (mmul (transpose (ProblemBuilder.ssC b)) W') (ProblemBuilder.ssC b)).
  set (P1 := setBlock (snd s) (t * (nu d + nx d)) (t * (nu d + nx d))
               (nu d + nx d) (nu d + nx d) Q).
  assert (Z1 : forall r c,
             in_block (t * (nu d + nx d)) (t * (nu d + nx d))
                      (nu d + nx d) (nu d + nx d) r c = true ->
             coef (snd s) r c = szero).
  { intros r c E. apply in_block_iff in E. apply Hz; lia. }
  destruct (psd_setBlock (snd s) Q (t * (nu d + nx d)) (nu d + nx d) _ Hr Hc
              ltac:(lia) Z1 Hs Hp
              (fun i j => congruence_symmetric (ProblemBuilder.ssC b) W' i j Hd')
              (fun y => congruence_nonneg (ProblemBuilder.ssC b) W' _ y Hd' Hn'))
    as (Hs1 & Hp1).
  fold P1 in Hs1, Hp1.
  assert (V1 : forall r c,
             coef P1 r c
             = if in_block (t * (nu d + nx d)) (t * (nu d + nx d))
                           (nu d + nx d) (nu d + nx d) r c
               then coef Q (r - t * (nu d + nx d)) (c - t * (nu d + nx d))
               else coef (snd s) r c) by reflexivity.
  destruct (Nat.ltb_spec t (ph d)) as [Hlt|Hge].
  - assert (M0 : Nat.min t (ph d) = t) by lia.
    assert (M1 : Nat.min (S t) (ph d) = S t) by lia.
    assert (E3 : S t * nu d = t * nu d + nu d) by lia.
    assert (E4 : S t * nu d <= ph d * nu d) by (apply Nat.mul_le_mono_r; lia).
    rewrite M0 in Hz. rewrite M1.
    set (o := (ph d + 1) * (nu d + nx d) + t * nu d).
    assert (Z2 : forall r c, in_block o o (nu d) (nu d) r c = true -> coef P1 r c = szero).
    { intros r c E. apply in_block_iff in E. unfold o in E. rewrite V1.
      destruct (in_block (t * (nu d + nx d)) (t * (nu d + nx d))
                         (nu d + nx d) (nu d + nx d) r c) eqn:E'.
      - apply in_block_iff in E'. lia.
      - apply Hz; lia. }
    destruct (psd_setBlock P1 (asDiagonal (col (ProblemBuilder.wDeltaU b) t)) o (nu d)
                ((ph d + 1) * (nu d + nx d) + ph d * nu d) Hr Hc
                ltac:(unfold o; lia) Z2 Hs1 Hp1
                (fun i j => ltac:(cbn [asDiagonal coef]; rewrite (Nat.eqb_sym i j);
                                  destruct (Nat.eqb_spec j i) as [->|]; reflexivity))
                (fun y => diagonal_nonneg (col (ProblemBuilder.wDeltaU b) t) (nu d) y
                            (fun k Hk => Hwd k t Hk Hlt)))
      as (Hs2 & Hp2).
    repeat (split; [assumption|]).
    intros r c HQ HD. cbn [setBlock coef]. fold o.
    destruct (in_block o o (nu d) (nu d) r c) eqn:E.
    + apply in_block_iff in E. unfold o in E. lia.
    + rewrite V1.
      destruct (in_block (t * (nu d + nx d)) (t * (nu d + nx d))
                         (nu d + nx d) (nu d + nx d) r c) eqn:E'.
      * apply in_block_iff in E'. lia.
      * apply Hz.
        -- intros (Hr2 & Hc2). apply HQ. lia.
        -- intros (Hr2 & Hc2). apply HD. lia.
  - assert (M0 : Nat.min t (ph d) = ph d) by lia.
    assert (M1 : Nat.min (S t) (ph d) = ph d) by lia.
    rewrite M0 in Hz. rewrite M1.
    repeat (split; [assumption|]).
    intros r c HQ HD. rewrite V1.
    destruct (in_block (t * (nu d + nx d)) (t * (nu d + nx d))
                       (nu d + nx d) (nu d + nx d) r c) eqn:E'.
    + apply in_block_iff in E'. lia.
    + apply Hz; [|exact HD]. intros (Hr2 & Hc2). apply HQ. lia.
Qed.

(** [buildTITerms] keeps the sizes of [P]. *)
Lemma buildP_sizes (b : ProblemBuilder.t T) :
  rows (ProblemBuilder.buildP b) = rows (ProblemBuilder.P (ProblemBuilder.mpcProblem b)) /\
  cols (ProblemBuilder.buildP b) = cols (ProblemBuilder.P (ProblemBuilder.mpcProblem b)).
Proof.
  unfold ProblemBuilder.buildP.
  match goal with
  | |- context [for_upto ?n ?body ?s0] =>
      apply (for_upto_invariant
               (fun _ s => rows (snd s) = rows (snd s0) /\ cols (snd s) = cols (snd s0))
               n body s0)
  end.
  - split; reflexivity.
  - intros i y _ Hy. unfold ProblemBuilder.buildP_body. cbn [snd].
    destruct (i <? ph (ProblemBuilder.dim b)); exact Hy.
Qed.

Lemma perform_sizes (c : ProblemBuilder.call T) (b b' : ProblemBuilder.t T) :
  ProblemBuilder.perform inf c b = Some b' ->
  ProblemBuilder.dim b' = ProblemBuilder.dim b /\
  rows (ProblemBuilder.P (ProblemBuilder.mpcProblem b'))
  = rows (ProblemBuilder.P (ProblemBuilder.mpcProblem b)) /\
  cols (ProblemBuilder.P (ProblemBuilder.mpcProblem b'))
  = cols (ProblemBuilder.P (ProblemBuilder.mpcProblem b)).
Proof.
  intros E.
  destruct c; cbn [ProblemBuilder.perform] in E;
    try (unfold ProblemBuilder.setStateModel, ProblemBuilder.setExogenuosInput,
                ProblemBuilder.setObjective, ProblemBuilder.setConstraints,
                checkOrQuit in E;
         destruct (ProblemBuilder.initialized b); [|discriminate];
         cbn [option_map] in E);
    injection E as E; rewrite <- E;
    cbn [snd ProblemBuilder.buildTITerms ProblemBuilder.get ProblemBuilder.withProblem
         ProblemBuilder.dim ProblemBuilder.mpcProblem ProblemBuilder.P];
    try (split; [reflexivity|];
         match goal with
         | |- context [ProblemBuilder.buildP ?x] => exact (buildP_sizes x)
         end).
  repeat split.
Qed.

(** The sizes of [P] are those given by [onInit], along every sequence of
    calls: the size hypotheses of the statement below hold for every builder
    a client can reach. *)
Lemma performAll_sizes (cs : list (ProblemBuilder.call T)) (b b' : ProblemBuilder.t T) :
  ProblemBuilder.performAll inf cs b = Some b' ->
  ProblemBuilder.dim b' = ProblemBuilder.dim b /\
  rows (ProblemBuilder.P (ProblemBuilder.mpcProblem b'))
  = rows (ProblemBuilder.P (ProblemBuilder.mpcProblem b)) /\
  cols (ProblemBuilder.P (ProblemBuilder.mpcProblem b'))
  = cols (ProblemBuilder.P (ProblemBuilder.mpcProblem b)).
Proof.
  revert b. induction cs as [|c cs IH]; intros b H; cbn [ProblemBuilder.performAll] in H.
  - inversion H. repeat split.
  - destruct (ProblemBuilder.perform inf c b) as [b1|] eqn:E; [|discriminate].
    destruct (IH b1 H) as (Hd & Hr & Hc). rewrite Hd, Hr, Hc.
    now apply perform_sizes with (c := c).
Qed.

Lemma initialize_sizes (d : Dims) :
  rows (ProblemBuilder.P (ProblemBuilder.mpcProblem (ProblemBuilder.initialize (T := T) d)))
  = ProblemBuilder.nVar d /\
  cols (ProblemBuilder.P (ProblemBuilder.mpcProblem (ProblemBuilder.initialize (T := T) d)))
  = ProblemBuilder.nVar d.
Proof. split; reflexivity. Qed.

(** C8.  Over exact arithmetic (a commutative ring ordered by [sle]), for
    every model held by the builder and every set of weight matrices whose
    entries are all non-negative, the objective matrix [P] produced by
    [buildTITerms] is symmetric and positive semi-definite. *)
Theorem buildTITerms_objective_psd (b : ProblemBuilder.t T) :
  let d := ProblemBuilder.dim b in
  let P' := ProblemBuilder.P (ProblemBuilder.mpcProblem
                                (snd (ProblemBuilder.buildTITerms inf b))) in
  rows (ProblemBuilder.P (ProblemBuilder.mpcProblem b)) = ProblemBuilder.nVar d ->
  cols (ProblemBuilder.P (ProblemBuilder.mpcProblem b)) = ProblemBuilder.nVar d ->
  BuilderSpec.nonnegWeights sle b ->
  BuilderSpec.symmetric P' /\ BuilderSpec.positiveSemidefinite sle P'.
Proof.
  cbv zeta. intros Hr Hc Hw.
  change (ProblemBuilder.P (ProblemBuilder.mpcProblem
                              (snd (ProblemBuilder.buildTITerms inf b))))
    with (ProblemBuilder.buildP b).
  unfold ProblemBuilder.buildP.
  match goal with
  | |- context [for_upto ?n ?body ?s0] =>
      assert (G : BuilderSpec.objectiveInvariant sle (ProblemBuilder.dim b) n
                    (for_upto n body s0))
  end.
  { apply for_upto_invariant.
    - unfold BuilderSpec.objectiveInvariant. cbn [fst snd setZero rows cols coef].
      split; [reflexivity|].
      split; [intros k; apply (BuilderSpec.nonneg_zero OR)|].
      split; [exact Hr|]. split; [exact Hc|].
      split; [intros r c; reflexivity|].
      split; [|reflexivity].
      intros x. rewrite quadForm_zero by reflexivity. apply (BuilderSpec.nonneg_zero OR).
    - intros i s Hi Hs. now apply buildP_body_invariant. }
  destruct G as (_ & _ & _ & _ & Hs & Hp & _).
  split; assumption.
Qed.

End ObjectiveMatrix.

Lemma buildTITerms_objective_psd_witness :
  let b := Examples.weighted in
  let P' := ProblemBuilder.P (ProblemBuilder.mpcProblem
                                (snd (ProblemBuilder.buildTITerms 0%Z b))) in
  (BuilderSpec.OrderedRing Z.le /\
   rows (ProblemBuilder.P (ProblemBuilder.mpcProblem b)) = 15 /\
   cols (ProblemBuilder.P (ProblemBuilder.mpcProblem b)) = 15 /\
   BuilderSpec.nonnegWeights Z.le b) /\
  BuilderSpec.symmetric P' /\ BuilderSpec.positiveSemidefinite Z.le P'.
Proof.
  intros b P'.
  assert (OR : BuilderSpec.OrderedRing Z.le).
  { constructor; [exact Zth | cbn; lia | cbn; intros; lia | cbn; intros; nia
                  | cbn; intros; nia]. }
  assert (Hw : BuilderSpec.nonnegWeights Z.le b).
  { repeat split; intros k i Hk Hi; vm_compute; discriminate. }
  split; [split; [exact OR | split; [reflexivity | split; [reflexivity | exact Hw]]]|].
  exact (buildTITerms_objective_psd 0%Z Z.le OR b eq_refl eq_refl Hw).
Defined.

(** C8 as it was stated fails on binary64, the scalar type of the source:
    with the output matrix [C = (0.1 10)] and the non-negative output
    weight 0.1, the product [(ssC' * W) * ssC] rounds [(0.1 * 0.1) * 10] in
    row 0, column 1 and [(10 * 0.1) * 0.1] in row 1, column 0, which differ
    in the last bit: the matrix [P] produced by [buildTITerms] is not
    symmetric, its sizes being those of [onInit] and every weight being
    non-negative. *)
Theorem buildTITerms_objective_rounding :
  exists b,
    Examples.roundedBuilder = Some b /\
    let d := ProblemBuilder.dim b in
    let P' := ProblemBuilder.P (ProblemBuilder.mpcProblem
                                  (snd (ProblemBuilder.buildTITerms infinity b))) in
    rows (ProblemBuilder.P (ProblemBuilder.mpcProblem b)) = ProblemBuilder.nVar d /\
    cols (ProblemBuilder.P (ProblemBuilder.mpcProblem b)) = ProblemBuilder.nVar d /\
    BuilderSpec.nonnegWeights (fun x y => PrimFloat.leb x y = true) b /\
    coef P' 1 0 = (1 / 10)%float /\
    PrimFloat.ltb (coef P' 1 0) (coef P' 0 1) = true /\
    ~ BuilderSpec.symmetric P'.
Proof.
  eexists. split; [reflexivity|]. cbv zeta.
  split; [reflexivity|]. split; [reflexivity|].
  split; [repeat split; intros k i _ _; reflexivity|].
  split; [vm_compute; reflexivity|].
  split; [vm_compute; reflexivity|].
  intros H. specialize (H 0 1).
  apply (f_equal (fun z => PrimFloat.eqb z (1 / 10)%float)) in H.
  vm_compute in H. discriminate.
Qed.

(** * Further properties of the modelled code *)

(** Decides the index comparisons of a goal from the hypotheses. *)
Ltac decide_bounds :=
  repeat (cbn [andb];
          match goal with
          | |- context [?a <=? ?b] => destruct (Nat.leb_spec a b); try lia
          | |- context [?a <? ?b] => destruct (Nat.ltb_spec a b); try lia
          | |- context [?a =? ?b] => destruct (Nat.eqb_spec a b); try lia
          end);
  cbn [andb].

(** ** Mapping: the operator [Iu2z] *)

Section MappingInverse.
Context {T : Type} {ST : Scalar T}.
Import Common.

Lemma scaling_loop_inverse (s : cvec T) (n : nat) (Sz Su : mat T) (a b : nat) :
  coef (snd (for_upto n (Mapping.scalingStep s) (Sz, Su))) a b
  = if (a =? b) && (a <? n) then sdiv sone (at_ s a) else coef Su a b.
Proof.
  induction n as [|n IH]; simpl.
  - now rewrite andb_false_r.
  - rewrite IH.
    destruct (Nat.eqb_spec a n) as [->|Ha]; destruct (Nat.eqb_spec b n) as [->|Hb]; simpl.
    + now rewrite Nat.eqb_refl, (proj2 (Nat.ltb_lt n (S n)) (Nat.lt_succ_diag_r n)).
    + destruct (Nat.eqb_spec n b); [congruence|]. reflexivity.
    + destruct (Nat.eqb_spec a n); [congruence|]. reflexivity.
    + destruct (a =? b); simpl; [|reflexivity].
      destruct (Nat.ltb_spec a n), (Nat.ltb_spec a (S n)); try reflexivity; lia.
Qed.

(** After [i] iterations of the outer loop, row blocks [0..i-1] of [Iu2z]
    hold one copy of [Su], at the column block of their running sum. *)
Lemma fillOuter_inverse_loop (n : nat) (m : cvec nat) (Sz Su M N : mat T) (i : nat) :
  let f := for_upto i (Mapping.fillOuter n m Sz Su) (Mapping.mkFill 0 0 M N) in
  rows (Mapping.fIu2z f) = rows N /\ cols (Mapping.fIu2z f) = cols N /\
  forall C R a b, a < n -> b < n ->
    coef (Mapping.fIu2z f) (C * n + a) (R * n + b)
    = if (C <? i) && (R =? runningSum m C) then coef Su a b
      else coef N (C * n + a) (R * n + b).
Proof.
  induction i as [|i IH]; [simpl | rewrite for_upto_S].
  - repeat split; reflexivity.
  - cbv zeta in IH.
    destruct (fillOuter_loop n m Sz Su M N i) as (Hix & Hjx & _).
    set (f := for_upto i (Mapping.fillOuter n m Sz Su) (Mapping.mkFill 0 0 M N)) in *.
    destruct IH as (IHr & IHc & IHm).
    unfold Mapping.fillOuter. cbn [Mapping.fIu2z setBlock rows cols coef].
    rewrite Hix, Hjx.
    repeat split; [exact IHr | exact IHc |].
    intros C R a b Ha Hb.
    rewrite in_block_aligned, IHm by assumption.
    destruct (Nat.eqb_spec C i) as [->|HC]; simpl.
    + rewrite Nat.ltb_irrefl, (proj2 (Nat.ltb_lt i (S i)) (Nat.lt_succ_diag_r i)).
      simpl. destruct (Nat.eqb_spec R (runningSum m i)) as [->|HR];
        [now rewrite !aligned_sub | reflexivity].
    + destruct (Nat.ltb_spec C i), (Nat.ltb_spec C (S i)); try reflexivity; lia.
Qed.

Lemma computeMapping_Su2z (mp : Mapping.t T) (a b : nat) :
  coef (Mapping.Su2zMat (Mapping.computeMapping mp)) a b
  = if (a =? b) && (a <? rows (Mapping.Sz2uMat mp))
    then sdiv sone (at_ (Mapping.input_scaling mp) a) else szero.
Proof.
  unfold Mapping.computeMapping. cbn [Mapping.Su2zMat].
  now rewrite scaling_loop_inverse.
Qed.

Lemma computeMapping_Iu2z (mp : Mapping.t T) (C R a b : nat) :
  let d := Mapping.dim mp in
  let m := Mapping.replicationCounts d in
  a < nu d -> b < nu d ->
  coef (Mapping.Iu2zMat (Mapping.computeMapping mp)) (C * nu d + a) (R * nu d + b)
  = if (C <? ch d) && (R =? runningSum m C)
    then coef (Mapping.Su2zMat (Mapping.computeMapping mp)) a b
    else szero.
Proof.
  intros d m Ha Hb.
  unfold Mapping.computeMapping. cbn [Mapping.Iu2zMat Mapping.Su2zMat].
  match goal with
  | |- context [for_upto ?i (Mapping.fillOuter ?n ?m ?Sz ?Su) (Mapping.mkFill 0 0 ?M ?N)] =>
      destruct (fillOuter_inverse_loop n m Sz Su M N i) as (_ & _ & Hm)
  end.
  rewrite Hm by assumption. reflexivity.
Qed.

Lemma computeMapping_Iu2z_shape (mp : Mapping.t T) :
  rows (Mapping.Iu2zMat (Mapping.computeMapping mp)) = cols (Mapping.Iz2uMat mp) /\
  cols (Mapping.Iu2zMat (Mapping.computeMapping mp)) = rows (Mapping.Iz2uMat mp).
Proof.
  unfold Mapping.computeMapping. cbn [Mapping.Iu2zMat].
  match goal with
  | |- context [for_upto ?i (Mapping.fillOuter ?n ?m ?Sz ?Su) (Mapping.mkFill 0 0 ?M ?N)] =>
      destruct (fillOuter_inverse_loop n m Sz Su M N i) as (Hr & Hc & _)
  end.
  rewrite Hr, Hc. split; reflexivity.
Qed.

(** The blocks of [Iu2z], for [1 <= ch <= ph]. *)
Lemma computeMapping_Iu2z_blocks (mp : Mapping.t T) (j R a b : nat) :
  let d := Mapping.dim mp in
  MappingSpec.allocated mp -> ch d <= ph d ->
  j < ch d -> a < nu d -> b < nu d ->
  coef (Mapping.Iu2zMat (Mapping.computeMapping mp)) (j * nu d + a) (R * nu d + b)
  = if (R =? j) && (a =? b) then sdiv sone (at_ (Mapping.input_scaling mp) a)
    else szero.
Proof.
  cbv zeta. intros (Hr & Hc & Hsr & _) H2 Hj Ha Hb.
  rewrite computeMapping_Iu2z by assumption.
  rewrite (proj2 (Nat.ltb_lt _ _) Hj), replicationCounts_offset by assumption.
  cbn [andb]. rewrite computeMapping_Su2z, Hsr.
  rewrite (proj2 (Nat.ltb_lt _ _) Ha), andb_true_r.
  destruct (R =? j), (a =? b); reflexivity.
Qed.

(** The blocks of [Iz2u], for [1 <= ch <= ph]: block row [R] reads the move
    [min R (ch - 1)]. *)
Lemma computeMapping_Iz2u_blocks (mp : Mapping.t T) (j R a b : nat) :
  let d := Mapping.dim mp in
  MappingSpec.allocated mp -> ch d <= ph d ->
  j < ch d -> R < ph d -> a < nu d -> b < nu d ->
  coef (Mapping.Iz2uMat (Mapping.computeMapping mp)) (R * nu d + a) (j * nu d + b)
  = if (j =? Nat.min R (ch d - 1)) && (a =? b) then at_ (Mapping.input_scaling mp) a
    else szero.
Proof.
  cbv zeta. intros (Hr & Hc & Hsr & _) H2 Hj HR Ha Hb.
  rewrite computeMapping_Iz2u by assumption.
  rewrite (proj2 (Nat.ltb_lt _ _) Hj), replicationCounts_offset by assumption.
  rewrite replicationCounts_at by assumption.
  cbn [andb]. rewrite computeMapping_Sz2u, Hsr.
  rewrite (proj2 (Nat.ltb_lt _ _) Ha), andb_true_r.
  match goal with
  | |- (if ?c then _ else _) = _ =>
      assert (B : c = (j =? Nat.min R (ch (Mapping.dim mp) - 1)))
  end.
  { destruct (Nat.eqb_spec j (ch (Mapping.dim mp) - 1)) as [E|E];
      destruct (Nat.eqb_spec j (Nat.min R (ch (Mapping.dim mp) - 1)));
      [apply andb_true_intro; split; [apply Nat.leb_le | apply Nat.ltb_lt]; lia
      |apply andb_false_iff; rewrite Nat.leb_gt, Nat.ltb_ge; lia
      |apply andb_true_intro; split; [apply Nat.leb_le | apply Nat.ltb_lt]; lia
      |apply andb_false_iff; rewrite Nat.leb_gt, Nat.ltb_ge; lia]. }
  rewrite B.
  destruct (j =? Nat.min R (ch (Mapping.dim mp) - 1)), (a =? b); reflexivity.
Qed.

(** X1.  For [1 <= ch <= ph], after [computeMapping] the operator [Iu2z]
    has [ch * nu] rows and [ph * nu] columns; its block in block row [j] and
    block column [R] is the diagonal matrix of the inverses [1 / scaling(a)]
    when [R = j], and zero otherwise: each control-horizon move reads the
    first of the prediction steps that hold it, and only that one. *)
Theorem computeMapping_inverse_structure (mp : Mapping.t T) :
  let d := Mapping.dim mp in
  let mp' := Mapping.computeMapping mp in
  MappingSpec.allocated mp -> 1 <= ch d -> ch d <= ph d ->
  rows (Mapping.Iu2zMat mp') = ch d * nu d /\
  cols (Mapping.Iu2zMat mp') = ph d * nu d /\
  forall j R a b, j < ch d -> R < ph d -> a < nu d -> b < nu d ->
    coef (Mapping.Iu2zMat mp') (j * nu d + a) (R * nu d + b)
    = if (R =? j) && (a =? b) then sdiv sone (at_ (Mapping.input_scaling mp) a)
      else szero.
Proof.
  cbv zeta. intros Hall H1 H2.
  destruct (computeMapping_Iu2z_shape mp) as (Sr & Sc).
  destruct Hall as (Hr & Hc & Hs).
  split; [rewrite Sr, Hc; apply Nat.mul_comm|].
  split; [now rewrite Sc|].
  intros j R a b Hj HR Ha Hb.
  apply computeMapping_Iu2z_blocks; try assumption.
  split; [exact Hr | split; [exact Hc | exact Hs]].
Qed.

End MappingInverse.

Lemma computeMapping_inverse_structure_witness :
  let mp := Examples.mapping in
  (MappingSpec.allocated mp /\ 1 <= 2 /\ 2 <= 3) /\
  rows (Mapping.Iu2zMat (Mapping.computeMapping mp)) = 2 /\
  cols (Mapping.Iu2zMat (Mapping.computeMapping mp)) = 3 /\
  coef (Mapping.Iu2zMat (Mapping.computeMapping mp)) 1 1 = 1%float /\
  coef (Mapping.Iu2zMat (Mapping.computeMapping mp)) 1 2 = 0%float.
Proof.
  intros mp.
  assert (Ha : MappingSpec.allocated mp) by (repeat split; reflexivity).
  assert (H1 : 1 <= 2) by lia.
  assert (H2 : 2 <= 3) by lia.
  split; [repeat split; assumption|].
  destruct (computeMapping_inverse_structure mp Ha H1 H2) as (Hr & Hc & Hm).
  split; [exact Hr|]. split; [exact Hc|].
  split; [apply (Hm 1 1 0 0) | apply (Hm 1 2 0 0)]; vm_compute; lia.
Defined.

(** ** Mapping: full control horizon, tail hold and round trip *)

Section MappingStates.
Context {T : Type} {ST : Scalar T}.
Import Common.

(** The operators of an initialised mapping are those [computeMapping]
    builds from the state [onInit] allocates, with unit input scaling. *)
Lemma initialize_as_computed (d : Dims) :
  exists mp0 : Mapping.t T,
    MappingSpec.allocated mp0 /\ Mapping.dim mp0 = d /\
    (forall k, at_ (Mapping.input_scaling mp0) k = sone) /\
    Mapping.Iz2uMat (Mapping.initialize d) = Mapping.Iz2uMat (Mapping.computeMapping mp0) /\
    Mapping.Iu2zMat (Mapping.initialize d) = Mapping.Iu2zMat (Mapping.computeMapping mp0).
Proof.
  unfold Mapping.initialize, Mapping.onInit. cbn [Mapping.Iz2uMat Mapping.Iu2zMat Mapping.dim].
  eexists. split; [|split; [|split; [|split; reflexivity]]].
  - repeat split; reflexivity.
  - reflexivity.
  - intros k. reflexivity.
Qed.

(** The operators of a configured mapping are those [computeMapping] builds
    from an allocated state that holds the given input scaling. *)
Lemma configured_as_computed (d : Dims) (s ss : cvec T) :
  let mp := MappingSpec.configured d s ss in
  Mapping.initialized mp = true /\ Mapping.dim mp = d /\
  Mapping.state_scaling mp = ss /\
  exists mp0 : Mapping.t T,
    MappingSpec.allocated mp0 /\ Mapping.dim mp0 = d /\
    Mapping.input_scaling mp0 = s /\
    Mapping.Iz2uMat mp = Mapping.Iz2uMat (Mapping.computeMapping mp0) /\
    Mapping.Iu2zMat mp = Mapping.Iu2zMat (Mapping.computeMapping mp0).
Proof.
  cbv zeta. split; [reflexivity|]. split; [reflexivity|]. split; [reflexivity|].
  unfold MappingSpec.configured, Mapping.setStateScaling, Mapping.setInputScaling.
  cbn [Mapping.Iz2uMat Mapping.Iu2zMat].
  eexists. split; [|split; [|split; [|split; reflexivity]]].
  - exact (initialize_allocated d).
  - reflexivity.
  - reflexivity.
Qed.

(** X2.  When the control horizon equals the prediction horizon, the
    operator [Iz2u] of an initialised mapping is the identity of size
    [ph * nu]: block [(R, j)] is the unit matrix when [R = j] and zero
    otherwise; and, provided [1 / 1 = 1] in the scalar type, [Iu2z] is its
    transpose. *)
Theorem initialize_full_horizon (d : Dims) (R j a b : nat) :
  let mp := Mapping.initialize (T := T) d in
  ch d = ph d -> sdiv sone sone = sone ->
  R < ph d -> j < ph d -> a < nu d -> b < nu d ->
  coef (Mapping.Iz2uMat mp) (R * nu d + a) (j * nu d + b)
  = (if (R =? j) && (a =? b) then sone else szero) /\
  coef (Mapping.Iu2zMat mp) (j * nu d + b) (R * nu d + a)
  = coef (Mapping.Iz2uMat mp) (R * nu d + a) (j * nu d + b).
Proof.
  cbv zeta. intros Hch H11 HR Hj Ha Hb.
  destruct (initialize_as_computed d) as (mp0 & Hall & Hd & Hs & Ez & Eu).
  rewrite Ez, Eu. rewrite <- Hd in *.
  rewrite computeMapping_Iz2u_blocks by (try assumption; lia).
  rewrite computeMapping_Iu2z_blocks by (try assumption; lia).
  rewrite !Hs, H11.
  replace (Nat.min R (ch (Mapping.dim mp0) - 1)) with R by lia.
  rewrite (Nat.eqb_sym j R), (Nat.eqb_sym b a).
  split; reflexivity.
Qed.

End MappingStates.

Lemma initialize_full_horizon_witness :
  let d := Common.mkDims 2 1 1 1 3 3 in
  (Common.ch d = Common.ph d /\ sdiv sone sone = 1%float /\ 1 < 3 /\ 0 < 1) /\
  coef (Mapping.Iz2uMat (Mapping.initialize (T := float) d)) 1 1 = 1%float /\
  coef (Mapping.Iu2zMat (Mapping.initialize (T := float) d)) 1 1 = 1%float.
Proof.
  intros d.
  assert (H13 : 1 < 3) by lia.
  assert (H01 : 0 < 1) by lia.
  assert (H11 : sdiv sone sone = 1%float) by reflexivity.
  split; [repeat split; assumption|].
  destruct (initialize_full_horizon (T := float) d 1 1 0 0 eq_refl H11
              H13 H13 H01 H01) as (Hz & Hu).
  split; [exact Hz | exact (eq_trans Hu Hz)].
Defined.

Section ExactMapping.
Context {T : Type} {ST : Scalar T}.
Hypothesis Rth : ring_theory szero sone sadd smul ssub sopp (@eq T).
Import Common.

Add Ring mapping_ring : Rth.

(** A sum all of whose terms but the one of index [j] are zero. *)
Lemma ssum_isolated (n j : nat) (f : nat -> T) :
  (forall k, k < n -> k <> j -> f k = szero) ->
  ssum n f = if j <? n then f j else szero.
Proof.
  induction n as [|n IH]; intros H; simpl; [reflexivity|].
  rewrite IH by (intros k Hk Hkj; apply H; lia).
  destruct (Nat.eq_dec n j) as [->|Hn].
  - rewrite Nat.ltb_irrefl, (proj2 (Nat.ltb_lt j (S j)) (Nat.lt_succ_diag_r j)). ring.
  - rewrite (H n) by lia.
    destruct (Nat.ltb_spec j n), (Nat.ltb_spec j (S n)); try ring; lia.
Qed.

Lemma block_decompose (n c : nat) : c = (c / n) * n + c mod n.
Proof. rewrite (Nat.div_mod_eq c n) at 1. lia. Qed.

Lemma block_coordinates (n c J a : nat) :
  0 < n -> c <> J * n + a -> a < n -> ~ (c / n = J /\ c mod n = a).
Proof.
  intros Hn Hc Ha (H1 & H2). apply Hc. rewrite (block_decompose n c), H1, H2. reflexivity.
Qed.

(** [Iz2u * z], block row by block row: row [R] is the move
    [min R (ch - 1)], scaled. *)
Lemma mulmv_Iz2u (mp : Mapping.t T) (z : cvec T) (R a : nat) :
  let d := Mapping.dim mp in
  MappingSpec.allocated mp -> 1 <= ch d -> ch d <= ph d ->
  R < ph d -> a < nu d ->
  at_ (mulmv (Mapping.Iz2uMat (Mapping.computeMapping mp)) z) (R * nu d + a)
  = smul (at_ (Mapping.input_scaling mp) a) (at_ z (Nat.min R (ch d - 1) * nu d + a)).
Proof.
  cbv zeta. intros Hall H1 H2 HR Ha.
  set (d := Mapping.dim mp) in *.
  destruct (computeMapping_Iz2u_shape mp) as (_ & Sc).
  cbn [mulmv at_]. rewrite Sc, (proj1 (proj2 Hall)). fold d.
  set (J := Nat.min R (ch d - 1)).
  assert (HJ : J < ch d) by (unfold J; lia).
  assert (HJn : J * nu d + a < nu d * ch d).
  { rewrite (Nat.mul_comm (nu d)). apply block_index_lt; assumption. }
  rewrite (ssum_isolated (nu d * ch d) (J * nu d + a)).
  - rewrite (proj2 (Nat.ltb_lt _ _) HJn).
    unfold d. rewrite computeMapping_Iz2u_blocks by assumption. fold d. fold J.
    now rewrite !Nat.eqb_refl.
  - intros c Hc Hne.
    assert (Hn : 0 < nu d) by lia.
    assert (Hq : c / nu d < ch d)
      by (apply Nat.Div0.div_lt_upper_bound; lia).
    assert (Hm : c mod nu d < nu d) by (apply Nat.mod_upper_bound; lia).
    rewrite (block_decompose (nu d) c) at 1.
    unfold d. rewrite computeMapping_Iz2u_blocks by assumption. fold d. fold J.
    pose proof (block_coordinates (nu d) c J a Hn Hne Ha) as HB.
    destruct (Nat.eqb_spec (c / nu d) J), (Nat.eqb_spec a (c mod nu d));
      cbn [andb]; try ring.
    exfalso. apply HB. split; congruence.
Qed.

(** [Iu2z * v], block row by block row: row [j] is block [j] of [v],
    divided by the scaling. *)
Lemma mulmv_Iu2z (mp : Mapping.t T) (v : cvec T) (j a : nat) :
  let d := Mapping.dim mp in
  MappingSpec.allocated mp -> ch d <= ph d ->
  j < ch d -> a < nu d ->
  at_ (mulmv (Mapping.Iu2zMat (Mapping.computeMapping mp)) v) (j * nu d + a)
  = smul (sdiv sone (at_ (Mapping.input_scaling mp) a)) (at_ v (j * nu d + a)).
Proof.
  cbv zeta. intros Hall H2 Hj Ha.
  set (d := Mapping.dim mp) in *.
  destruct (computeMapping_Iu2z_shape mp) as (_ & Sc).
  cbn [mulmv at_]. rewrite Sc, (proj1 Hall). fold d.
  assert (Hjn : j * nu d + a < ph d * nu d) by (apply block_index_lt; lia).
  rewrite (ssum_isolated (ph d * nu d) (j * nu d + a)).
  - rewrite (proj2 (Nat.ltb_lt _ _) Hjn).
    unfold d. rewrite computeMapping_Iu2z_blocks by assumption.
    now rewrite !Nat.eqb_refl.
  - intros c Hc Hne.
    assert (Hn : 0 < nu d) by lia.
    assert (Hm : c mod nu d < nu d) by (apply Nat.mod_upper_bound; lia).
    rewrite (block_decompose (nu d) c) at 1.
    unfold d. rewrite computeMapping_Iu2z_blocks by assumption. fold d.
    pose proof (block_coordinates (nu d) c j a Hn Hne Ha) as HB.
    destruct (Nat.eqb_spec (c / nu d) j), (Nat.eqb_spec a (c mod nu d));
      cbn [andb]; try ring.
    exfalso. apply HB. split; congruence.
Qed.

(** The input trajectory [unwrapVector] returns, before any algebra: row
    [i] is block [min i (ph - 1)] of [Iz2uMat] times the moves. *)
Lemma unwrap_inputs (mp : Mapping.t T) (x x0 : cvec T) (Xmat Umat : mat T) :
  let d := Mapping.dim mp in
  let moves := middleRows x (ph d * nx d) (nu d * ch d) in
  Mapping.initialized mp = true -> 1 <= ph d ->
  exists X U slack,
    Mapping.unwrapVector mp x x0 Xmat Umat = Some (X, U, slack) /\
    slack = at_ x (size x - 1) /\
    forall i j, i <= ph d -> j < nu d ->
      coef U i j
      = at_ (mulmv (Mapping.Iz2uMat mp) moves) (Nat.min i (ph d - 1) * nu d + j).
Proof.
  cbv zeta. intros Hinit Hph.
  unfold Mapping.unwrapVector, Common.checkOrQuit. rewrite Hinit.
  eexists _, _, _. split; [reflexivity|]. split; [reflexivity|].
  set (d := Mapping.dim mp) in *.
  intros i j Hi Hj.
  cbn [setBlock setZero setRow setMiddleRowsM resize transpose mapMat row
       rows cols coef at_].
  unfold in_block. rewrite !Nat.sub_0_r.
  destruct (Nat.eq_dec i (ph d)) as [->|Hne].
  - replace (Nat.min (ph d) (ph d - 1)) with (ph d - 1) by lia.
    decide_bounds. reflexivity.
  - replace (Nat.min i (ph d - 1)) with i by lia.
    decide_bounds. reflexivity.
Qed.

(** X3.  Over exact arithmetic, for a configured mapping with
    [1 <= ch <= ph], row [i] of the input trajectory returned by
    [unwrapVector] is the control-horizon move [min i (ch - 1)] of the flat
    vector, each channel multiplied by its input scaling: every row from
    [ch - 1] on, the extra terminal row included, repeats the last move. *)
Theorem unwrapVector_tail_hold (d : Dims) (s ss x x0 : cvec T) (Xmat Umat : mat T) :
  let mp := MappingSpec.configured d s ss in
  1 <= ch d -> ch d <= ph d ->
  exists X U slack,
    Mapping.unwrapVector mp x x0 Xmat Umat = Some (X, U, slack) /\
    forall i a, i <= ph d -> a < nu d ->
      coef U i a
      = smul (at_ s a) (at_ x (ph d * nx d + (Nat.min i (ch d - 1) * nu d + a))).
Proof.
  cbv zeta. intros H1 H2.
  destruct (configured_as_computed d s ss) as (Hinit & Hd & _ & mp0 & Hall & Hd0 & Hs & Ez & _).
  destruct (unwrap_inputs (MappingSpec.configured d s ss) x x0 Xmat Umat Hinit
              ltac:(rewrite Hd; lia)) as (X & U & slack & He & _ & HU).
  exists X, U, slack. split; [exact He|].
  intros i a Hi Ha. rewrite Hd in HU. rewrite (HU i a Hi Ha), Ez.
  rewrite <- Hd0 in *.
  rewrite mulmv_Iz2u by (try assumption; lia).
  rewrite Hs. cbn [middleRows at_].
  replace (Nat.min (Nat.min i (ph (Mapping.dim mp0) - 1)) (ch (Mapping.dim mp0) - 1))
    with (Nat.min i (ch (Mapping.dim mp0) - 1)) by lia.
  reflexivity.
Qed.

(** X4.  Over exact arithmetic, for a configured mapping with
    [1 <= ch <= ph] and an input scaling with [(1 / s(a)) * s(a) = 1],
    [Iu2z] is a left inverse of [Iz2u]: expanding control-horizon moves to
    the prediction horizon and mapping them back returns the moves. *)
Theorem Iu2z_Iz2u_round_trip (d : Dims) (s ss z : cvec T) (j a : nat) :
  let mp := MappingSpec.configured d s ss in
  1 <= ch d -> ch d <= ph d -> j < ch d -> a < nu d ->
  smul (sdiv sone (at_ s a)) (at_ s a) = sone ->
  at_ (mulmv (Mapping.Iu2zMat mp) (mulmv (Mapping.Iz2uMat mp) z)) (j * nu d + a)
  = at_ z (j * nu d + a).
Proof.
  cbv zeta. intros H1 H2 Hj Ha Hinv.
  destruct (configured_as_computed d s ss) as (_ & _ & _ & mp0 & Hall & Hd0 & Hs & Ez & Eu).
  rewrite Ez, Eu. rewrite <- Hd0 in *.
  rewrite mulmv_Iu2z by assumption.
  rewrite mulmv_Iz2u by (try assumption; lia).
  rewrite Hs. replace (Nat.min j (ch (Mapping.dim mp0) - 1)) with j by lia.
  rewrite (ARmul_assoc (Rth_ARth (Eqsth T) (Eq_ext sadd smul sopp) Rth)).
  rewrite Hinv. ring.
Qed.

End ExactMapping.

Lemma unwrapVector_tail_hold_witness :
  let d := Common.mkDims 1 1 0 1 3 2 in
  let x := vecOf [10; 20; 30; 5; 7; 0]%Z 0%Z in
  (1 <= 2 /\ 2 <= 3) /\
  exists X U slack,
    Mapping.unwrapVector (MappingSpec.configured d (vecOf [2%Z] 0%Z) (vecOf [1%Z] 0%Z))
      x (vecOf [10%Z] 0%Z) (resize 4 1 fresh_mat) (resize 4 1 fresh_mat)
    = Some (X, U, slack) /\
    coef U 0 0 = 10%Z /\ coef U 1 0 = 14%Z /\ coef U 2 0 = 14%Z /\ coef U 3 0 = 14%Z.
Proof.
  intros d x.
  assert (H1 : 1 <= 2) by lia.
  assert (H2 : 2 <= 3) by lia.
  split; [split; assumption|].
  destruct (unwrapVector_tail_hold (T := Z) (ST := ScalarZ) Zth d (vecOf [2%Z] 0%Z) (vecOf [1%Z] 0%Z) x
              (vecOf [10%Z] 0%Z) (resize 4 1 fresh_mat) (resize 4 1 fresh_mat) H1 H2)
    as (X & U & slack & He & HU).
  exists X, U, slack. split; [exact He|].
  assert (H01 : 0 < 1) by lia.
  repeat split.
  - exact (HU 0 0 ltac:(vm_compute; lia) H01).
  - exact (HU 1 0 ltac:(vm_compute; lia) H01).
  - exact (HU 2 0 ltac:(vm_compute; lia) H01).
  - exact (HU 3 0 ltac:(vm_compute; lia) H01).
Defined.

Lemma Iu2z_Iz2u_round_trip_witness :
  let d := Common.mkDims 1 1 0 1 3 2 in
  let mp := MappingSpec.configured d (vecOf [(-1)%Z] 0%Z) (vecOf [1%Z] 0%Z) in
  (1 <= 2 /\ 2 <= 3 /\ 1 < 2 /\ 0 < 1 /\ ((1 / -1) * -1 = 1)%Z) /\
  at_ (mulmv (Mapping.Iu2zMat mp) (mulmv (Mapping.Iz2uMat mp) (vecOf [5; 7]%Z 0%Z))) 1
  = 7%Z.
Proof.
  intros d mp.
  assert (H1 : 1 <= 2) by lia.
  assert (H2 : 2 <= 3) by lia.
  assert (H3 : 1 < 2) by lia.
  assert (H4 : 0 < 1) by lia.
  assert (H5 : ((1 / -1) * -1 = 1)%Z) by reflexivity.
  split; [repeat split; assumption|].
  exact (Iu2z_Iz2u_round_trip (T := Z) (ST := ScalarZ) Zth d (vecOf [(-1)%Z] 0%Z) (vecOf [1%Z] 0%Z)
           (vecOf [5; 7]%Z 0%Z) 1 0 H1 H2 H3 H4 H5).
Defined.

(** ** The nonlinear optimizer: warm start, success, repeated failures *)

Section OptimizerLoops.
Context {T : Type} {ST : Scalar T}.
Import Common.

(** [n] coefficients appended from position [c0] on. *)
Lemma appendCoef_loop (src : nat -> T) (n c0 : nat) (v : cvec T) :
  let r := for_upto n (NLOptimizer.appendCoef src) (c0, v) in
  fst r = c0 + n /\ size (snd r) = size v /\
  forall k, at_ (snd r) k
            = if (c0 <=? k) && (k <? c0 + n) then src (k - c0) else at_ v k.
Proof.
  induction n as [|n IH]; [simpl | rewrite for_upto_S].
  - repeat split; [lia|]. intros k. decide_bounds; reflexivity.
  - cbv zeta in IH. set (r := for_upto n (NLOptimizer.appendCoef src) (c0, v)) in *.
    destruct IH as (IHc & IHs & IHa).
    unfold NLOptimizer.appendCoef. cbn [fst snd vsetCoef size at_].
    repeat split; [lia | exact IHs |].
    intros k. rewrite IHc, IHa.
    destruct (Nat.eqb_spec k (c0 + n)) as [->|Hk].
    + replace (c0 + n - c0) with n by lia. decide_bounds; reflexivity.
    + decide_bounds; reflexivity.
Qed.

Lemma block_mod (n i k : nat) : i * n <= k -> k < i * n + n -> k / n = i /\ k mod n = k - i * n.
Proof.
  intros H1 H2.
  assert (Hn : n <> 0) by lia.
  assert (E : k = n * i + (k - i * n)) by lia.
  split.
  - symmetry. apply (Nat.div_unique k n i (k - i * n)); lia.
  - symmetry. apply (Nat.mod_unique k n i (k - i * n)); lia.
Qed.

(** [rep] blocks of [n] coefficients appended from position 0 on; block [i]
    takes its coefficients from [src i]. *)
Lemma appendBlocks_loop (src : nat -> nat -> T) (n rep : nat) (v : cvec T) :
  let r := for_upto rep (fun i => for_upto n (NLOptimizer.appendCoef (src i))) (0, v) in
  fst r = rep * n /\ size (snd r) = size v /\
  forall k, at_ (snd r) k
            = if k <? rep * n then src (k / n) (k mod n) else at_ v k.
Proof.
  induction rep as [|rep IH]; [simpl | rewrite for_upto_S].
  - repeat split.
  - cbv zeta in IH.
    set (r := for_upto rep (fun i => for_upto n (NLOptimizer.appendCoef (src i))) (0, v))
      in *.
    destruct IH as (IHc & IHs & IHa).
    destruct r as [c w]. cbn [fst snd] in *. subst c.
    destruct (appendCoef_loop (src rep) n (rep * n) w) as (Lc & Ls & La).
    repeat split; [rewrite Lc; lia | now rewrite Ls |].
    intros k. rewrite La, IHa.
    destruct (Nat.leb_spec (rep * n) k); cbn [andb].
    + destruct (Nat.ltb_spec k (rep * n + n)).
      * destruct (block_mod n rep k) as (Eq & Em); [assumption..|].
        rewrite Eq, Em. decide_bounds; reflexivity.
      * decide_bounds; reflexivity.
    + decide_bounds; reflexivity.
Qed.

(** The matrix whose every row is [u0]. *)
Lemma replicate_rows_loop (u0 : cvec T) (n rep : nat) (M : mat T) (I J : nat) :
  coef (for_upto rep (fun i => for_upto n (fun j X => setCoef X i j (at_ u0 j))) M) I J
  = if (I <? rep) && (J <? n) then at_ u0 J else coef M I J.
Proof.
  induction rep as [|rep IH]; [reflexivity | rewrite for_upto_S].
  set (r := for_upto rep (fun i => for_upto n (fun j X => setCoef X i j (at_ u0 j))) M)
    in *.
  assert (G : forall t, coef (for_upto t (fun j X => setCoef X rep j (at_ u0 j)) r) I J
                        = if (I =? rep) && (J <? t) then at_ u0 J else coef r I J).
  { induction t as [|t IHt]; [simpl; now rewrite andb_false_r | rewrite for_upto_S].
    cbn [setCoef coef]. rewrite IHt.
    destruct (Nat.eqb_spec I rep), (Nat.eqb_spec J t); cbn [andb]; subst;
      decide_bounds; reflexivity. }
  rewrite G, IH.
  destruct (Nat.eqb_spec I rep); decide_bounds; reflexivity.
Qed.

End OptimizerLoops.

Section OptimizerExact.
Context {T : Type} {ST : Scalar T}.
Hypothesis Rth : ring_theory szero sone sadd smul ssub sopp (@eq T).
Variable freshResult : NLOptimizer.Result T.
Import Common.

(** X5.  Over exact arithmetic, for an optimizer holding a configured
    mapping with [1 <= ch <= ph], the warm-start vector of [run] has
    [ph * nx + nu * ch + 1] coefficients: [x0] repeated in each of the [ph]
    state blocks, then [u0] divided channel by channel by the input scaling
    in each of the [ch] move blocks, then the stored slack. *)
Theorem warmStart_layout (d : Dims) (s ss x0 u0 : cvec T) (o : NLOptimizer.t T) :
  NLOptimizer.dim o = d ->
  NLOptimizer.mapping o = MappingSpec.configured d s ss ->
  1 <= ch d -> ch d <= ph d ->
  exists w,
    NLOptimizer.warmStart x0 u0 o = Some w /\
    size w = ph d * nx d + nu d * ch d + 1 /\
    (forall i j, i < ph d -> j < nx d -> at_ w (i * nx d + j) = at_ x0 j) /\
    (forall j a, j < ch d -> a < nu d ->
       at_ w (ph d * nx d + (j * nu d + a)) = smul (sdiv sone (at_ s a)) (at_ u0 a)) /\
    at_ w (ph d * nx d + nu d * ch d) = NLOptimizer.currentSlack o.
Proof.
  intros Hd Hm H1 H2.
  destruct (configured_as_computed d s ss) as (Hinit & _ & _ & mp0 & Hall & Hd0 & Hs & _ & Eu).
  rewrite <- Hd0 in *. clear Hd0 d. set (d := Mapping.dim mp0) in *.
  unfold NLOptimizer.warmStart, Mapping.Iu2z, Common.checkOrQuit.
  rewrite Hm, Hd, Hinit. cbn [andThen].
  eexists. split; [reflexivity|].
  pose proof (appendBlocks_loop (fun _ : nat => at_ x0) (nx d) (ph d)
                (vresize (NLOptimizer.nDecision d) fresh_vec)) as L1.
  cbv zeta beta in L1.
  set (filled := for_upto (ph d) (fun _ => for_upto (nx d) (NLOptimizer.appendCoef (at_ x0)))
                   (0, vresize (NLOptimizer.nDecision d) fresh_vec)) in *.
  destruct L1 as (L1c & L1s & L1a).
  set (Umv := for_upto (ph d)
                (fun i => for_upto (nu d) (fun j M => setCoef M i j (at_ u0 j)))
                (setZero (resize (ph d) (nu d) fresh_mat))).
  pose proof (appendBlocks_loop (fun i : nat => coef Umv i) (nu d) (ph d)
                (vresize (ph d * nu d) fresh_vec)) as L2.
  cbv zeta beta in L2.
  set (vect := for_upto (ph d) (fun i => for_upto (nu d) (NLOptimizer.appendCoef (coef Umv i)))
                 (0, vresize (ph d * nu d) fresh_vec)) in *.
  destruct L2 as (_ & _ & L2a).
  set (res := mulmv (Mapping.Iu2zMat (MappingSpec.configured d s ss)) (snd vect)).
  destruct filled as [c1 v1] eqn:Ef. cbn [fst snd] in L1c, L1s, L1a. subst c1.
  destruct (appendCoef_loop (at_ res) (nu d * ch d) (ph d * nx d) v1) as (_ & L3s & L3a).
  cbn [vsetCoef size at_]. unfold NLOptimizer.nDecision.
  split; [rewrite L3s, L1s; reflexivity|].
  assert (Hblk : forall j a, j < ch d -> a < nu d -> j * nu d + a < nu d * ch d).
  { intros j a Hj Ha. rewrite (Nat.mul_comm (nu d)). now apply block_index_lt. }
  split; [|split].
  - intros i j Hi Hj.
    assert (Hk : i * nx d + j < ph d * nx d) by now apply block_index_lt.
    rewrite L3a, L1a.
    destruct (block_mod (nx d) i (i * nx d + j)) as (_ & Em); [lia..|].
    rewrite Em. replace (i * nx d + j - i * nx d) with j by lia.
    decide_bounds; reflexivity.
  - intros j a Hj Ha. specialize (Hblk j a Hj Ha).
    rewrite L3a.
    replace (ph d * nx d + (j * nu d + a) - ph d * nx d) with (j * nu d + a) by lia.
    decide_bounds.
    unfold res. rewrite Eu.
    unfold d. rewrite (mulmv_Iu2z Rth) by assumption. fold d.
    rewrite Hs, L2a.
    destruct (block_mod (nu d) j (j * nu d + a)) as (Eq & Em); [lia..|].
    rewrite Eq, Em.
    replace (j * nu d + a - j * nu d) with a by lia.
    unfold Umv. rewrite replicate_rows_loop.
    assert (Hk : j * nu d + a < ph d * nu d) by (apply block_index_lt; lia).
    decide_bounds; reflexivity.
  - replace (ph d * nx d + nu d * ch d + 1 - 1) with (ph d * nx d + nu d * ch d) by lia.
    now rewrite Nat.eqb_refl.
Qed.

(** X6.  Over exact arithmetic, for an initialised optimizer holding a
    configured mapping with [1 <= ch <= ph], when the solver returns a
    solution, [run] returns the solver's optimum as cost and its result as
    return code; the command has [nu] entries and is the first
    control-horizon move of the solution, each channel multiplied by its
    input scaling; the result is stored as last result and the last
    coefficient of the solution as slack. *)
Theorem run_success (d : Dims) (s ss x0 u0 w res : cvec T) (optimum : T)
        (result : Z) (numevals : nat) (o : NLOptimizer.t T) :
  NLOptimizer.initialized o = true ->
  NLOptimizer.mapping o = MappingSpec.configured d s ss ->
  1 <= ch d -> ch d <= ph d ->
  NLOptimizer.warmStart x0 u0 o = Some w ->
  NLOptimizer.innerOpt o w = NLOptimizer.Optimized res optimum result numevals ->
  exists r o',
    NLOptimizer.run freshResult x0 u0 o = Some (r, o') /\
    NLOptimizer.cost r = optimum /\ NLOptimizer.retcode r = result /\
    size (NLOptimizer.cmd r) = nu (NLOptimizer.dim o) /\
    (forall a, a < nu d ->
       at_ (NLOptimizer.cmd r) a = smul (at_ s a) (at_ res (ph d * nx d + a))) /\
    NLOptimizer.last_r o' = r /\
    NLOptimizer.currentSlack o' = at_ res (size res - 1).
Proof.
  intros Hinit Hm H1 H2 Hw Ho.
  destruct (configured_as_computed d s ss)
    as (Hmi & Hmd & _ & mp0 & Hall & Hd0 & Hs & Ez & _).
  rewrite <- Hd0 in *. clear Hd0 d. set (d := Mapping.dim mp0) in *.
  unfold NLOptimizer.run, Common.checkOrQuit. rewrite Hinit. cbn [andThen].
  rewrite Hw. cbn [andThen]. rewrite Ho, Hm.
  assert (Hph : 1 <= ph (Mapping.dim (MappingSpec.configured d s ss)))
    by (rewrite Hmd; lia).
  match goal with
  | |- context [Mapping.unwrapVector ?mp ?x ?x0' ?X ?U] =>
      destruct (unwrap_inputs mp x x0' X U Hmi Hph)
        as (X' & U' & slack & He & Hsl & HU);
      rewrite He
  end.
  cbn [andThen]. eexists _, _. split; [reflexivity|].
  cbn [NLOptimizer.cost NLOptimizer.retcode NLOptimizer.cmd NLOptimizer.last_r
       NLOptimizer.currentSlack row size at_].
  split; [reflexivity|]. split; [reflexivity|].
  split.
  - apply (f_equal (fun z => match z with
                             | Some (_, U, _) => cols U
                             | None => 0
                             end)) in He.
    cbn in He. symmetry. exact He.
  - split; [|split; [reflexivity | exact Hsl]].
    intros a Ha. rewrite Hmd in HU.
    rewrite (HU 0 a (Nat.le_0_l _) Ha), Ez.
    replace (Nat.min 0 (ph d - 1) * nu d + a) with (0 * nu d + a) by lia.
    unfold d. rewrite (mulmv_Iz2u Rth) by (try assumption; lia). fold d.
    rewrite Hs. cbn [middleRows at_ Nat.min]. cbn [Nat.mul Nat.add]. reflexivity.
Qed.

End OptimizerExact.

Lemma warmStart_layout_witness :
  (NLOptimizer.dim Examples.solving = Examples.exactDims /\ 1 <= 2 /\ 2 <= 3) /\
  exists w,
    NLOptimizer.warmStart (vecOf [7%Z] 0%Z) (vecOf [6%Z] 0%Z) Examples.solving = Some w /\
    size w = 6 /\ at_ w 2 = 7%Z /\ at_ w 4 = (-6)%Z /\ at_ w 5 = 8%Z.
Proof.
  assert (H1 : 1 <= 2) by lia.
  assert (H2 : 2 <= 3) by lia.
  split; [repeat split; assumption|].
  destruct (warmStart_layout (T := Z) (ST := ScalarZ) Zth Examples.exactDims
              (vecOf [(-1)%Z] 0%Z) (vecOf [1%Z] 0%Z) (vecOf [7%Z] 0%Z) (vecOf [6%Z] 0%Z)
              Examples.solving eq_refl eq_refl H1 H2)
    as (w & Hw & Hs & Hx & Hu & Hl).
  exists w. split; [exact Hw|]. split; [exact Hs|].
  assert (H01 : 0 < 1) by lia.
  split; [exact (Hx 2 0 ltac:(vm_compute; lia) H01)|].
  split; [exact (Hu 1 0 ltac:(vm_compute; lia) H01) | exact Hl].
Defined.

Lemma run_success_witness :
  (NLOptimizer.initialized Examples.solving = true /\ 1 <= 2 /\ 2 <= 3) /\
  exists r o',
    NLOptimizer.run Examples.freshResultZ (vecOf [7%Z] 0%Z) (vecOf [6%Z] 0%Z)
      Examples.solving = Some (r, o') /\
    NLOptimizer.cost r = 42%Z /\ NLOptimizer.retcode r = 1%Z /\
    at_ (NLOptimizer.cmd r) 0 = (-5)%Z /\ NLOptimizer.currentSlack o' = 9%Z.
Proof.
  assert (H1 : 1 <= 2) by lia.
  assert (H2 : 2 <= 3) by lia.
  split; [repeat split; assumption|].
  destruct (NLOptimizer.warmStart (vecOf [7%Z] 0%Z) (vecOf [6%Z] 0%Z) Examples.solving)
    as [w|] eqn:Hw; [|vm_compute in Hw; discriminate].
  destruct (run_success (T := Z) (ST := ScalarZ) Zth Examples.freshResultZ
              Examples.exactDims (vecOf [(-1)%Z] 0%Z) (vecOf [1%Z] 0%Z)
              (vecOf [7%Z] 0%Z) (vecOf [6%Z] 0%Z) w Examples.solution 42%Z 1%Z 10
              Examples.solving eq_refl eq_refl H1 H2 Hw eq_refl)
    as (r & o' & He & Hc & Hr & _ & Hcmd & _ & Hsl).
  exists r, o'. split; [exact He|]. split; [exact Hc|]. split; [exact Hr|].
  assert (H01 : 0 < 1) by lia.
  split; [exact (Hcmd 0 H01) | exact Hsl].
Defined.

Section OptimizerSequences.
Context {T : Type} {ST : Scalar T}.
Variable freshResult : NLOptimizer.Result T.
Variable inf : T.
Import Common.

(** One failing step: the stored command is returned and stays stored, and
    the optimizer is otherwise as before. *)
Lemma run_failure_step (x0 u0 : cvec T) (o : NLOptimizer.t T) :
  NLOptimizer.initialized o = true ->
  Mapping.initialized (NLOptimizer.mapping o) = true ->
  (forall w, exists what, NLOptimizer.innerOpt o w = NLOptimizer.Throws what) ->
  exists r o',
    NLOptimizer.run freshResult x0 u0 o = Some (r, o') /\
    NLOptimizer.cmd r = NLOptimizer.cmd (NLOptimizer.last_r o) /\
    NLOptimizer.retcode r = (-1)%Z /\
    NLOptimizer.last_r o' = r /\
    NLOptimizer.initialized o' = true /\
    NLOptimizer.mapping o' = NLOptimizer.mapping o /\
    NLOptimizer.innerOpt o' = NLOptimizer.innerOpt o.
Proof.
  intros Hinit Hmap Hthrow.
  destruct (warmStart_built x0 u0 o Hmap) as (w & Hw).
  destruct (Hthrow w) as (what & Ht).
  unfold NLOptimizer.run, Common.checkOrQuit. rewrite Hinit. cbn [andThen].
  rewrite Hw. cbn [andThen]. rewrite Ht. cbn [andThen].
  eexists _, _. split; [reflexivity|]. repeat split.
Qed.

(** X7.  On an initialised optimizer whose solver fails on every call, any
    number of consecutive control steps all return normally, each with the
    command that was stored before the first of them and the return code
    [-1]; that command is still the stored one afterwards. *)
Theorem runAll_failures_hold (steps : list (cvec T * cvec T)) (o : NLOptimizer.t T) :
  NLOptimizer.initialized o = true ->
  Mapping.initialized (NLOptimizer.mapping o) = true ->
  (forall w, exists what, NLOptimizer.innerOpt o w = NLOptimizer.Throws what) ->
  exists rs o',
    NLOptimizer.runAll freshResult steps o = Some (rs, o') /\
    List.length rs = List.length steps /\
    Forall (fun r => NLOptimizer.cmd r = NLOptimizer.cmd (NLOptimizer.last_r o)
                     /\ NLOptimizer.retcode r = (-1)%Z) rs /\
    NLOptimizer.cmd (NLOptimizer.last_r o') = NLOptimizer.cmd (NLOptimizer.last_r o).
Proof.
  revert o. induction steps as [|[x0 u0] rest IH]; intros o Hinit Hmap Hthrow.
  - exists [], o. repeat split. constructor.
  - destruct (run_failure_step x0 u0 o Hinit Hmap Hthrow)
      as (r & o1 & He & Hc & Hr & Hl & Hi1 & Hm1 & Ho1).
    destruct (IH o1 Hi1 ltac:(rewrite Hm1; exact Hmap) ltac:(rewrite Ho1; exact Hthrow))
      as (rs & o2 & He2 & Hlen & Hall & Hlast).
    exists (r :: rs), o2. cbn [NLOptimizer.runAll]. rewrite He. cbn [andThen].
    rewrite He2. cbn [andThen].
    rewrite Hl, Hc in *.
    split; [reflexivity|]. split; [cbn; now rewrite Hlen|].
    split; [|exact Hlast].
    constructor; [split; assumption | exact Hall].
Qed.

(** X8.  The bounds [setParameters] hands to the solver: both vectors have
    one entry per decision variable; every upper bound is [+inf]; every
    lower bound is [-inf], except that of the last variable, the slack,
    which is [0] when [hard_constraints] is set. *)
Theorem parameterBounds_values (d : Dims) (hard_constraints : bool) :
  let n := NLOptimizer.nDecision d in
  let lb := fst (NLOptimizer.parameterBounds inf d hard_constraints) in
  let ub := snd (NLOptimizer.parameterBounds inf d hard_constraints) in
  size lb = n /\ size ub = n /\
  forall i, i < n ->
    at_ ub i = inf /\
    at_ lb i = (if (i + 1 =? n) && hard_constraints then szero else sopp inf).
Proof.
  cbv zeta. unfold NLOptimizer.parameterBounds.
  set (n := NLOptimizer.nDecision d).
  set (s0 := (vresize n (fresh_vec (T := T)), vresize n (fresh_vec (T := T)))).
  assert (G : forall t,
             let r := for_upto t (NLOptimizer.parameterBounds_body inf d hard_constraints) s0 in
             size (fst r) = n /\ size (snd r) = n /\
             forall i, i < t ->
               at_ (snd r) i = inf /\
               at_ (fst r) i = (if (i + 1 =? n) && hard_constraints then szero
                                else sopp inf)).
  { induction t as [|t IH]; [simpl | rewrite for_upto_S].
    - repeat split; intros; lia.
    - cbv zeta in IH.
      set (r := for_upto t (NLOptimizer.parameterBounds_body inf d hard_constraints) s0) in *.
      destruct IH as (IHl & IHu & IHa).
      unfold NLOptimizer.parameterBounds_body. fold n.
      destruct ((t + 1 =? n) && hard_constraints) eqn:E;
        cbn [fst snd vsetCoef size at_];
        (split; [exact IHl|]; split; [exact IHu|]);
        intros i Hi;
        (destruct (Nat.eqb_spec i t) as [->|Hne];
         [rewrite E; split; reflexivity | apply IHa; lia]). }
  destruct (G n) as (Gl & Gu & Ga). repeat split; try assumption; now apply Ga.
Qed.

End OptimizerSequences.

Lemma runAll_failures_hold_witness :
  (NLOptimizer.initialized Examples.failing = true /\
   Mapping.initialized (NLOptimizer.mapping Examples.failing) = true) /\
  exists rs o',
    NLOptimizer.runAll Examples.freshResult
      [(Examples.zeros 2, Examples.zeros 1); (Examples.zeros 2, Examples.zeros 1)]
      Examples.failing = Some (rs, o') /\
    List.length rs = 2 /\
    at_ (NLOptimizer.cmd (NLOptimizer.last_r o')) 0 = 4%float.
Proof.
  split; [split; reflexivity|].
  destruct (runAll_failures_hold Examples.freshResult
              [(Examples.zeros 2, Examples.zeros 1); (Examples.zeros 2, Examples.zeros 1)]
              Examples.failing eq_refl eq_refl
              (fun w => ex_intro _ "nlopt failure"%string eq_refl))
    as (rs & o' & He & Hlen & _ & Hlast).
  exists rs, o'. split; [exact He|]. split; [exact Hlen|].
  rewrite Hlast. reflexivity.
Defined.

(** ** The linear builder: what every reachable builder satisfies *)

Section BuilderReach.
Context {T : Type} {ST : Scalar T}.
Variable inf : T.
Import Common.

(** A property kept by every call holds along every sequence of calls. *)
Lemma performAll_invariant (Inv : ProblemBuilder.t T -> Prop) :
  (forall c b b', Inv b -> ProblemBuilder.perform inf c b = Some b' -> Inv b') ->
  forall cs b b', Inv b -> ProblemBuilder.performAll inf cs b = Some b' -> Inv b'.
Proof.
  intros Hstep cs. induction cs as [|c cs IH]; intros b b' Hb H;
    cbn [ProblemBuilder.performAll] in H.
  - injection H as <-. exact Hb.
  - destruct (ProblemBuilder.perform inf c b) as [b1|] eqn:E; [|discriminate].
    apply (IH b1 b'); [|exact H]. exact (Hstep c b b1 Hb E).
Qed.

(** Opens a successful call into the builder it produced. *)
Ltac open_call E b :=
  match type of E with
  | ProblemBuilder.perform _ ?c _ = Some _ =>
      destruct c; cbn [ProblemBuilder.perform] in E;
      try (unfold ProblemBuilder.setStateModel, ProblemBuilder.setExogenuosInput,
                  ProblemBuilder.setObjective, ProblemBuilder.setConstraints,
                  checkOrQuit in E;
           destruct (ProblemBuilder.initialized b) eqn:?; [|discriminate];
           cbn [option_map] in E);
      injection E as E; rewrite <- E; clear E
  end.

Lemma perform_reached (d : Dims) (c : ProblemBuilder.call T) (b b' : ProblemBuilder.t T) :
  BuilderSpec.reached d b -> ProblemBuilder.perform inf c b = Some b' ->
  BuilderSpec.reached d b'.
Proof.
  intros (Hi & Hd & Hs & Hz) E.
  unfold BuilderSpec.reached, BuilderSpec.sized, BuilderSpec.outputMatrixZeros in *.
  open_call E b;
    cbn [snd ProblemBuilder.buildTITerms ProblemBuilder.get ProblemBuilder.withProblem
         ProblemBuilder.withModel ProblemBuilder.withExogenous ProblemBuilder.withWeights
         ProblemBuilder.withBounds
         ProblemBuilder.initialized ProblemBuilder.dim ProblemBuilder.ssA ProblemBuilder.ssB
         ProblemBuilder.ssC ProblemBuilder.minX ProblemBuilder.maxX ProblemBuilder.minY
         ProblemBuilder.maxY setBlock setBlockZero setBlockIdentity setCol rows cols];
    try (split; [assumption|]; split; [assumption|]; split; [assumption|]; assumption).
  split; [assumption|]. split; [assumption|]. split; [assumption|].
  intros i j Hij. cbn [setBlock setBlockIdentity coef].
  destruct (in_block (ny (ProblemBuilder.dim b)) (nx (ProblemBuilder.dim b))
                     (nu (ProblemBuilder.dim b)) (nu (ProblemBuilder.dim b)) i j) eqn:E2.
  { apply in_block_iff in E2. lia. }
  destruct (in_block 0 0 (ny (ProblemBuilder.dim b)) (nx (ProblemBuilder.dim b)) i j) eqn:E1.
  { apply in_block_iff in E1. lia. }
  now apply Hz.
Qed.

Lemma initialize_reached (d : Dims) :
  BuilderSpec.reached (T := T) d (ProblemBuilder.initialize d).
Proof.
  split; [reflexivity|]. split; [reflexivity|]. split.
  - repeat split; reflexivity.
  - intros i j _. reflexivity.
Qed.

Lemma performAll_reached (d : Dims) (cs : list (ProblemBuilder.call T))
      (b : ProblemBuilder.t T) :
  ProblemBuilder.performAll inf cs (ProblemBuilder.initialize d) = Some b ->
  BuilderSpec.reached d b.
Proof.
  intros H.
  apply (performAll_invariant (BuilderSpec.reached d) (perform_reached d) cs
           (ProblemBuilder.initialize d) b (initialize_reached d) H).
Qed.

(** X9.  On a builder reached from [initialize], [setStateModel(A, B, C)]
    stores the augmented model: [ssA] is [A] and [B] side by side above a
    zero block and the identity, [ssB] is [B] above the identity, and [ssC]
    is [C] and a zero block above a zero block and the identity. *)
Theorem setStateModel_stores_augmented (d : Dims) (Am Bm Cm : mat T)
        (b : ProblemBuilder.t T) :
  BuilderSpec.reached d b ->
  exists b',
    ProblemBuilder.setStateModel inf Am Bm Cm b = Some (true, b') /\
    (forall i j, i < nx d + nu d -> j < nx d + nu d ->
       coef (ProblemBuilder.ssA b') i j
       = if i <? nx d
         then (if j <? nx d then coef Am i j else coef Bm i (j - nx d))
         else (if j <? nx d then szero
               else if i - nx d =? j - nx d then sone else szero)) /\
    (forall i j, i < nx d + nu d -> j < nu d ->
       coef (ProblemBuilder.ssB b') i j
       = if i <? nx d then coef Bm i j
         else if i - nx d =? j then sone else szero) /\
    (forall i j, i < ny d + nu d -> j < nx d + nu d ->
       coef (ProblemBuilder.ssC b') i j
       = if i <? ny d
         then (if j <? nx d then coef Cm i j else szero)
         else (if j <? nx d then szero
               else if i - ny d =? j - nx d then sone else szero)).
Proof.
  intros (Hi & Hd & _ & Hz). subst d.
  unfold BuilderSpec.outputMatrixZeros in Hz. cbv zeta in Hz.
  unfold ProblemBuilder.setStateModel, checkOrQuit. rewrite Hi.
  eexists. split; [reflexivity|].
  set (d := ProblemBuilder.dim b) in *.
  cbn [snd ProblemBuilder.buildTITerms ProblemBuilder.withProblem ProblemBuilder.withModel
       ProblemBuilder.ssA ProblemBuilder.ssB ProblemBuilder.ssC
       setBlock setBlockZero setBlockIdentity coef].
  unfold in_block.
  split; [|split].
  - intros i j Hi' Hj. rewrite !Nat.sub_0_r. decide_bounds; reflexivity.
  - intros i j Hi' Hj. rewrite !Nat.sub_0_r. decide_bounds; reflexivity.
  - intros i j Hi' Hj. rewrite !Nat.sub_0_r.
    destruct (Nat.ltb_spec i (ny d)), (Nat.ltb_spec j (nx d)).
    + decide_bounds; reflexivity.
    + rewrite (Hz i j) by lia. decide_bounds; reflexivity.
    + rewrite (Hz i j) by lia. decide_bounds; reflexivity.
    + decide_bounds; reflexivity.
Qed.

End BuilderReach.

Lemma setStateModel_stores_augmented_witness :
  BuilderSpec.reached Examples.scenarioDims Examples.builder /\
  exists b',
    ProblemBuilder.setStateModel infinity Examples.modelA Examples.modelB Examples.modelC
      Examples.builder = Some (true, b') /\
    coef (ProblemBuilder.ssA b') 1 2 = 1%float /\
    coef (ProblemBuilder.ssA b') 2 1 = 0%float /\
    coef (ProblemBuilder.ssC b') 0 2 = 0%float /\
    coef (ProblemBuilder.ssC b') 1 2 = 1%float.
Proof.
  assert (Hr : BuilderSpec.reached Examples.scenarioDims Examples.builder).
  { split; [reflexivity|]. split; [reflexivity|]. split.
    - repeat split; reflexivity.
    - intros i j _. reflexivity. }
  split; [exact Hr|].
  destruct (setStateModel_stores_augmented infinity Examples.scenarioDims Examples.modelA
              Examples.modelB Examples.modelC Examples.builder Hr)
    as (b' & He & HA & _ & HC).
  exists b'. split; [exact He|].
  split; [exact (HA 1 2 ltac:(vm_compute; lia) ltac:(vm_compute; lia))|].
  split; [exact (HA 2 1 ltac:(vm_compute; lia) ltac:(vm_compute; lia))|].
  split; [exact (HC 0 2 ltac:(vm_compute; lia) ltac:(vm_compute; lia))|].
  exact (HC 1 2 ltac:(vm_compute; lia) ltac:(vm_compute; lia)).
Defined.

(** ** The linear front-end: bounds and weights along the horizon *)

Section FrontEndBroadcast.
Context {T : Type} {ST : Scalar T}.
Variable inf : T.
Import Common.

(** After [t <= ph] iterations of the loop of [setConstraints], the first
    [t] columns of each of the six matrices hold the vector given for it. *)
Lemma setConstraints_loop (d : Dims) (XMin UMin YMin XMax UMax YMax : cvec T) (t : nat) :
  let s :=
    for_upto t (LMPC.setConstraints_body d XMin UMin YMin XMax UMax YMax)
      (LMPC.mkBoundMats
         (resize (nx d) (ph d) fresh_mat) (resize (nx d) (ph d) fresh_mat)
         (resize (ny d) (ph d) fresh_mat) (resize (ny d) (ph d) fresh_mat)
         (resize (nu d) (ph d) fresh_mat) (resize (nu d) (ph d) fresh_mat)) in
  t <= ph d ->
  (rows (LMPC.XMinMat s) = nx d /\ rows (LMPC.XMaxMat s) = nx d /\
   rows (LMPC.YMinMat s) = ny d /\ rows (LMPC.YMaxMat s) = ny d /\
   rows (LMPC.UMinMat s) = nu d /\ rows (LMPC.UMaxMat s) = nu d) /\
  forall k i, i < t ->
    (k < nx d -> coef (LMPC.XMinMat s) k i = at_ XMin k /\
                 coef (LMPC.XMaxMat s) k i = at_ XMax k) /\
    (k < ny d -> coef (LMPC.YMinMat s) k i = at_ YMin k /\
                 coef (LMPC.YMaxMat s) k i = at_ YMax k) /\
    (k < nu d -> coef (LMPC.UMinMat s) k i = at_ UMin k /\
                 coef (LMPC.UMaxMat s) k i = at_ UMax k).
Proof.
  cbv zeta. induction t as [|t IH]; intros Ht; [simpl | rewrite for_upto_S].
  - split; [repeat split|]. intros k i Hi. lia.
  - set (s := for_upto t _ _) in *.
    destruct (IH ltac:(lia)) as ((R1 & R2 & R3 & R4 & R5 & R6) & IHa). clear IH.
    unfold LMPC.setConstraints_body.
    rewrite (proj2 (Nat.ltb_lt t (ph d)) ltac:(lia)).
    cbn [LMPC.XMinMat LMPC.XMaxMat LMPC.YMinMat LMPC.YMaxMat LMPC.UMinMat LMPC.UMaxMat
         setCol rows coef].
    split; [repeat split; assumption|].
    intros k i Hi. rewrite R1, R2, R3, R4, R5, R6.
    destruct (Nat.eqb_spec i t) as [->|Hne]; cbn [andb].
    + split; [|split]; intros Hk; rewrite (proj2 (Nat.ltb_lt _ _) Hk);
        split; reflexivity.
    + apply IHa. lia.
Qed.

(** [setConstraints] of the front-end hands the builder a state
    [bb] holding the replicated bounds, on which [buildTITerms] then runs. *)
Lemma setConstraints_stored (XMin UMin YMin XMax UMax YMax : cvec T) (c : LMPC.t T) :
  let d := LMPC.dim c in
  LMPC.initialized c = true ->
  BuilderSpec.reached d (LMPC.builder c) ->
  1 <= ph d ->
  exists bb,
    LMPC.setConstraints inf XMin UMin YMin XMax UMax YMax c
    = Some (true, LMPC.mk d (LMPC.initialized c) (snd (ProblemBuilder.buildTITerms inf bb))) /\
    BuilderSpec.reached d bb /\
    ProblemBuilder.ssDv bb = ProblemBuilder.ssDv (LMPC.builder c) /\
    forall i, i <= ph d ->
      (forall k, k < nx d ->
         coef (ProblemBuilder.minX bb) k i = at_ XMin k /\
         coef (ProblemBuilder.maxX bb) k i = at_ XMax k) /\
      (forall k, k < ny d ->
         coef (ProblemBuilder.minY bb) k i = at_ YMin k /\
         coef (ProblemBuilder.maxY bb) k i = at_ YMax k) /\
      (i < ph d -> forall k, k < nu d ->
         coef (ProblemBuilder.minU bb) k i = at_ UMin k /\
         coef (ProblemBuilder.maxU bb) k i = at_ UMax k).
Proof.
  cbv zeta. intros Hc (Hb & Hd & Hs & Hz) Hph.
  pose proof Hs as (SA & SB & SC & (SX1 & SX2) & (SY1 & SY2)).
  rewrite Hd in SX1, SX2, SY1, SY2.
  unfold LMPC.setConstraints, LMPC.forward, checkOrQuit,
    ProblemBuilder.setConstraints, checkOrQuit.
  rewrite Hc, Hb. cbn [andThen].
  eexists. split; [reflexivity|].
  destruct (setConstraints_loop (LMPC.dim c) XMin UMin YMin XMax UMax YMax
              (ph (LMPC.dim c)) (le_n _)) as (_ & La).
  set (s := for_upto (ph (LMPC.dim c)) _ _) in *.
  split; [|split; [reflexivity|]].
  { split; [exact Hb|]. split; [exact Hd|]. split; [|exact Hz].
    unfold BuilderSpec.sized in *.
    cbn [ProblemBuilder.withBounds ProblemBuilder.dim ProblemBuilder.ssA ProblemBuilder.ssB
         ProblemBuilder.ssC ProblemBuilder.minX ProblemBuilder.maxX ProblemBuilder.minY
         ProblemBuilder.maxY setCol setBlock rows cols].
    exact Hs. }
  cbn [ProblemBuilder.withBounds ProblemBuilder.minX ProblemBuilder.maxX
       ProblemBuilder.minY ProblemBuilder.maxY ProblemBuilder.minU ProblemBuilder.maxU
       setCol setBlock col rows coef at_].
  rewrite Hd, SX1, SX2, SY1, SY2.
  intros i Hi. unfold in_block.
  assert (H0 : 0 < ph (LMPC.dim c)) by lia.
  split; [|split].
  - intros k Hk. rewrite !Nat.sub_0_r.
    destruct (Nat.eq_dec i 0) as [->|Hne];
      [destruct (proj1 (La k 0 H0) Hk) as (A1 & A2)
      |destruct (proj1 (La k (i - 1) ltac:(lia)) Hk) as (A1 & A2)];
      decide_bounds; split; assumption.
  - intros k Hk. rewrite !Nat.sub_0_r.
    destruct (Nat.eq_dec i 0) as [->|Hne];
      [destruct (proj1 (proj2 (La k 0 H0)) Hk) as (A1 & A2)
      |destruct (proj1 (proj2 (La k (i - 1) ltac:(lia))) Hk) as (A1 & A2)];
      decide_bounds; split; assumption.
  - intros Hi' k Hk. exact (proj2 (proj2 (La k i Hi')) Hk).
Qed.

(** X10.  On an initialised front-end whose builder was reached from
    [initialize], with [ph >= 1], [setConstraints] replicates each bound
    along the horizon: afterwards every column of the builder's [minX],
    [maxX], [minY], [maxY] (the column of the current step included) and of
    [minU], [maxU] is the vector supplied for it. *)
Theorem setConstraints_broadcast (XMin UMin YMin XMax UMax YMax : cvec T) (c : LMPC.t T) :
  let d := LMPC.dim c in
  LMPC.initialized c = true ->
  BuilderSpec.reached d (LMPC.builder c) ->
  1 <= ph d ->
  exists c',
    LMPC.setConstraints inf XMin UMin YMin XMax UMax YMax c = Some (true, c') /\
    forall i, i <= ph d ->
      (forall k, k < nx d ->
         coef (ProblemBuilder.minX (LMPC.builder c')) k i = at_ XMin k /\
         coef (ProblemBuilder.maxX (LMPC.builder c')) k i = at_ XMax k) /\
      (forall k, k < ny d ->
         coef (ProblemBuilder.minY (LMPC.builder c')) k i = at_ YMin k /\
         coef (ProblemBuilder.maxY (LMPC.builder c')) k i = at_ YMax k) /\
      (i < ph d -> forall k, k < nu d ->
         coef (ProblemBuilder.minU (LMPC.builder c')) k i = at_ UMin k /\
         coef (ProblemBuilder.maxU (LMPC.builder c')) k i = at_ UMax k).
Proof.
  cbv zeta. intros Hc Hr Hph.
  destruct (setConstraints_stored XMin UMin YMin XMax UMax YMax c Hc Hr Hph)
    as (bb & He & _ & _ & Hall).
  eexists. split; [exact He|]. exact Hall.
Qed.

(** After [t] iterations of the loop of [setObjectiveWeights], the first
    [t] columns of the output and input weights, and the first
    [min t ph] columns of the rate weights, hold the vector given. *)
Lemma setObjectiveWeights_loop (d : Dims) (OWeight UWeight DeltaUWeight : cvec T) (t : nat) :
  let s :=
    for_upto t (LMPC.setObjectiveWeights_body d OWeight UWeight DeltaUWeight)
      (resize (ny d) (ph d + 1) fresh_mat, resize (nu d) (ph d + 1) fresh_mat,
       resize (nu d) (ph d) fresh_mat) in
  (rows (fst (fst s)) = ny d /\ rows (snd (fst s)) = nu d /\ rows (snd s) = nu d) /\
  forall k i, i < t ->
    (k < ny d -> coef (fst (fst s)) k i = at_ OWeight k) /\
    (k < nu d -> coef (snd (fst s)) k i = at_ UWeight k) /\
    (k < nu d -> i < ph d -> coef (snd s) k i = at_ DeltaUWeight k).
Proof.
  cbv zeta. induction t as [|t IH]; [simpl | rewrite for_upto_S].
  - split; [repeat split|]. intros k i Hi. lia.
  - set (s := for_upto t _ _) in *.
    destruct IH as ((R1 & R2 & R3) & IHa).
    unfold LMPC.setObjectiveWeights_body.
    assert (E : forall k i, i < S t ->
              (k < ny d -> coef (setCol (fst (fst s)) t OWeight) k i = at_ OWeight k) /\
              (k < nu d -> coef (setCol (snd (fst s)) t UWeight) k i = at_ UWeight k)).
    { intros k i Hi. cbn [setCol coef]. rewrite R1, R2.
      destruct (Nat.eqb_spec i t) as [->|Hne]; cbn [andb].
      - split; intros Hk; rewrite (proj2 (Nat.ltb_lt _ _) Hk); reflexivity.
      - split; intros Hk; apply (IHa k i ltac:(lia)); exact Hk. }
    destruct (Nat.ltb_spec t (ph d)) as [Ht|Ht]; cbn [fst snd].
    + split; [cbn [setCol rows]; repeat split; assumption|].
      intros k i Hi. destruct (E k i Hi) as (E1 & E2).
      split; [exact E1|]. split; [exact E2|].
      intros Hk Hi'. cbn [setCol coef]. rewrite R3.
      destruct (Nat.eqb_spec i t) as [->|Hne]; cbn [andb].
      * rewrite (proj2 (Nat.ltb_lt _ _) Hk). reflexivity.
      * apply (IHa k i ltac:(lia)); assumption.
    + split; [cbn [setCol rows]; repeat split; assumption|].
      intros k i Hi. destruct (E k i Hi) as (E1 & E2).
      split; [exact E1|]. split; [exact E2|].
      intros Hk Hi'. apply (IHa k i ltac:(lia)); assumption.
Qed.

(** X11.  On an initialised front-end with an initialised builder,
    [setObjectiveWeights] replicates each weight vector along the horizon:
    afterwards every column [0..ph] of the builder's [wOutput] and [wU], and
    every column [0..ph-1] of [wDeltaU], is the vector supplied for it. *)
Theorem setObjectiveWeights_broadcast (OWeight UWeight DeltaUWeight : cvec T) (c : LMPC.t T) :
  let d := LMPC.dim c in
  LMPC.initialized c = true ->
  ProblemBuilder.initialized (LMPC.builder c) = true ->
  exists c',
    LMPC.setObjectiveWeights inf OWeight UWeight DeltaUWeight c = Some (true, c') /\
    forall i, i <= ph d ->
      (forall k, k < ny d ->
         coef (ProblemBuilder.wOutput (LMPC.builder c')) k i = at_ OWeight k) /\
      (forall k, k < nu d ->
         coef (ProblemBuilder.wU (LMPC.builder c')) k i = at_ UWeight k) /\
      (i < ph d -> forall k, k < nu d ->
         coef (ProblemBuilder.wDeltaU (LMPC.builder c')) k i = at_ DeltaUWeight k).
Proof.
  cbv zeta. intros Hc Hb.
  unfold LMPC.setObjectiveWeights, LMPC.forward, checkOrQuit,
    ProblemBuilder.setObjective, checkOrQuit.
  rewrite Hc, Hb. cbn [andThen].
  eexists. split; [reflexivity|].
  destruct (setObjectiveWeights_loop (LMPC.dim c) OWeight UWeight DeltaUWeight
              (ph (LMPC.dim c) + 1)) as (_ & La).
  set (s := for_upto (ph (LMPC.dim c) + 1) _ _) in *.
  cbn [LMPC.builder snd ProblemBuilder.buildTITerms ProblemBuilder.withProblem
       ProblemBuilder.withWeights ProblemBuilder.wOutput ProblemBuilder.wU
       ProblemBuilder.wDeltaU].
  intros i Hi.
  split; [|split].
  - intros k Hk. exact (proj1 (La k i ltac:(lia)) Hk).
  - intros k Hk. exact (proj1 (proj2 (La k i ltac:(lia))) Hk).
  - intros Hi' k Hk. exact (proj2 (proj2 (La k i ltac:(lia))) Hk Hi').
Qed.

End FrontEndBroadcast.

Lemma setConstraints_broadcast_witness :
  LMPC.initialized Examples.frontEnd = true /\
  1 <= Common.ph (LMPC.dim Examples.frontEnd) /\
  exists c',
    LMPC.setConstraints infinity
      (vecOf [-1; -2]%float 0%float) (vecOf [-3]%float 0%float) (vecOf [-4]%float 0%float)
      (vecOf [1; 2]%float 0%float) (vecOf [3]%float 0%float) (vecOf [4]%float 0%float)
      Examples.frontEnd = Some (true, c') /\
    coef (ProblemBuilder.minX (LMPC.builder c')) 1 0 = (-2)%float /\
    coef (ProblemBuilder.maxX (LMPC.builder c')) 1 3 = 2%float /\
    coef (ProblemBuilder.minY (LMPC.builder c')) 0 3 = (-4)%float /\
    coef (ProblemBuilder.maxU (LMPC.builder c')) 0 2 = 3%float.
Proof.
  assert (Hr : BuilderSpec.reached (LMPC.dim Examples.frontEnd)
                 (LMPC.builder Examples.frontEnd)).
  { split; [reflexivity|]. split; [reflexivity|]. split.
    - repeat split; reflexivity.
    - intros i j _. reflexivity. }
  assert (Hph : 1 <= Common.ph (LMPC.dim Examples.frontEnd)) by (vm_compute; lia).
  split; [reflexivity|]. split; [exact Hph|].
  destruct (setConstraints_broadcast infinity
              (vecOf [-1; -2]%float 0%float) (vecOf [-3]%float 0%float)
              (vecOf [-4]%float 0%float)
              (vecOf [1; 2]%float 0%float) (vecOf [3]%float 0%float)
              (vecOf [4]%float 0%float)
              Examples.frontEnd eq_refl Hr Hph) as (c' & He & Hall).
  exists c'. split; [exact He|].
  assert (L0 : 0 <= Common.ph (LMPC.dim Examples.frontEnd)) by (vm_compute; lia).
  assert (L3 : 3 <= Common.ph (LMPC.dim Examples.frontEnd)) by (vm_compute; lia).
  assert (L2 : 2 <= Common.ph (LMPC.dim Examples.frontEnd)) by (vm_compute; lia).
  assert (K1 : 1 < Common.nx (LMPC.dim Examples.frontEnd)) by (vm_compute; lia).
  assert (K0 : 0 < Common.ny (LMPC.dim Examples.frontEnd)) by (vm_compute; lia).
  assert (U0 : 0 < Common.nu (LMPC.dim Examples.frontEnd)) by (vm_compute; lia).
  assert (I2 : 2 < Common.ph (LMPC.dim Examples.frontEnd)) by (vm_compute; lia).
  split; [exact (proj1 (proj1 (Hall 0 L0) 1 K1))|].
  split; [exact (proj2 (proj1 (Hall 3 L3) 1 K1))|].
  split; [exact (proj1 (proj1 (proj2 (Hall 3 L3)) 0 K0))|].
  exact (proj2 (proj2 (proj2 (Hall 2 L2)) I2 0 U0)).
Defined.

Lemma setObjectiveWeights_broadcast_witness :
  LMPC.initialized Examples.frontEnd = true /\
  ProblemBuilder.initialized (LMPC.builder Examples.frontEnd) = true /\
  exists c',
    LMPC.setObjectiveWeights infinity
      (vecOf [5]%float 0%float) (vecOf [6]%float 0%float) (vecOf [7]%float 0%float)
      Examples.frontEnd = Some (true, c') /\
    coef (ProblemBuilder.wOutput (LMPC.builder c')) 0 3 = 5%float /\
    coef (ProblemBuilder.wU (LMPC.builder c')) 0 0 = 6%float /\
    coef (ProblemBuilder.wDeltaU (LMPC.builder c')) 0 2 = 7%float.
Proof.
  split; [reflexivity|]. split; [reflexivity|].
  destruct (setObjectiveWeights_broadcast infinity
              (vecOf [5]%float 0%float) (vecOf [6]%float 0%float) (vecOf [7]%float 0%float)
              Examples.frontEnd eq_refl eq_refl) as (c' & He & Hall).
  exists c'. split; [exact He|].
  assert (L0 : 0 <= Common.ph (LMPC.dim Examples.frontEnd)) by (vm_compute; lia).
  assert (L2 : 2 <= Common.ph (LMPC.dim Examples.frontEnd)) by (vm_compute; lia).
  assert (L3 : 3 <= Common.ph (LMPC.dim Examples.frontEnd)) by (vm_compute; lia).
  assert (K0 : 0 < Common.ny (LMPC.dim Examples.frontEnd)) by (vm_compute; lia).
  assert (U0 : 0 < Common.nu (LMPC.dim Examples.frontEnd)) by (vm_compute; lia).
  assert (I2 : 2 < Common.ph (LMPC.dim Examples.frontEnd)) by (vm_compute; lia).
  split; [exact (proj1 (Hall 3 L3) 0 K0)|].
  split; [exact (proj1 (proj2 (Hall 0 L0)) 0 U0)|].
  exact (proj2 (proj2 (Hall 2 L2)) I2 0 U0).
Defined.

(** ** The linear builder: the bounds stacked by [buildTITerms] *)

Section BuilderStacking.
Context {T : Type} {ST : Scalar T}.
Variable inf : T.
Import Common.

(** The rate loop leaves the rows above the rate segment as they were. *)
Lemma rateBounds_frame (d : Dims) (li ui : cvec T) (t k : nat) :
  let r := for_upto t (ProblemBuilder.rateBounds_body inf d) (li, ui) in
  k < ProblemBuilder.nEq d + (ph d + 1) * ny d ->
  at_ (fst r) k = at_ li k /\ at_ (snd r) k = at_ ui k.
Proof.
  cbv zeta. intros Hk.
  induction t as [|t IH]; [simpl; split; reflexivity | rewrite for_upto_S].
  set (r := for_upto t (ProblemBuilder.rateBounds_body inf d) (li, ui)) in *.
  unfold ProblemBuilder.rateBounds_body.
  cbn [fst snd setMiddleRows at_].
  rewrite !in_rows_before by lia. exact IH.
Qed.

(** After [t] iterations of the stacking loop, the segment of every step
    [i < t] holds column [i] of the state bound followed by the column of
    the input bound chosen for the step. *)
Lemma stackBounds_loop (d : Dims) (bx bu : mat T) (e : cvec T) (t i : nat) :
  let r := for_upto t (ProblemBuilder.stackBounds_body d bx bu) e in
  rows bx = nx d -> i < t ->
  (forall k, k < nx d -> at_ r (i * (nu d + nx d) + k) = coef bx k i) /\
  (forall k, k < nu d ->
     at_ r (i * (nu d + nx d) + (nx d + k))
     = coef bu k (if i =? ph d then i - 1 else i)).
Proof.
  cbv zeta. intros Hx.
  induction t as [|t IH]; intros Hi; [lia | rewrite for_upto_S].
  set (r := for_upto t (ProblemBuilder.stackBounds_body d bx bu) e) in *.
  unfold ProblemBuilder.stackBounds_body.
  cbn [setMiddleRows at_ commaInit col size middleRows]. rewrite Hx.
  split; intros k Hk.
  - rewrite in_rows_aligned by lia.
    destruct (Nat.eqb_spec i t) as [->|Hne].
    + rewrite aligned_sub, (proj2 (Nat.ltb_lt _ _) Hk). reflexivity.
    + apply IH; [lia | exact Hk].
  - rewrite in_rows_aligned by lia.
    destruct (Nat.eqb_spec i t) as [->|Hne].
    + rewrite aligned_sub, (proj2 (Nat.ltb_ge _ _) (Nat.le_add_r (nx d) k)).
      replace (nx d + k - nx d) with k by lia.
      destruct (t =? ph d); reflexivity.
    + apply IH; [lia | exact Hk].
Qed.

(** The rows of [lineq] and [uineq] above the rate segment, as
    [buildTITerms] leaves them. *)
Lemma buildTITerms_rows (b : ProblemBuilder.t T) (r : nat) :
  let d := ProblemBuilder.dim b in
  let b' := snd (ProblemBuilder.buildTITerms inf b) in
  rows (ProblemBuilder.minY b) = ny d -> rows (ProblemBuilder.maxY b) = ny d ->
  r < ProblemBuilder.nEq d + (ph d + 1) * ny d ->
  at_ (ProblemBuilder.lineq b') r
  = (if in_rows (ProblemBuilder.nEq d) ((ph d + 1) * ny d) r
     then coef (ProblemBuilder.minY b) ((r - ProblemBuilder.nEq d) mod ny d)
               ((r - ProblemBuilder.nEq d) / ny d)
     else if in_rows 0 (ProblemBuilder.nEq d) r
     then at_ (ProblemBuilder.stackBounds d (ProblemBuilder.minX b)
                 (ProblemBuilder.minU b)) (r - 0)
     else at_ (ProblemBuilder.lineq b) r) /\
  at_ (ProblemBuilder.uineq b') r
  = (if in_rows (ProblemBuilder.nEq d) ((ph d + 1) * ny d) r
     then coef (ProblemBuilder.maxY b) ((r - ProblemBuilder.nEq d) mod ny d)
               ((r - ProblemBuilder.nEq d) / ny d)
     else if in_rows 0 (ProblemBuilder.nEq d) r
     then at_ (ProblemBuilder.stackBounds d (ProblemBuilder.maxX b)
                 (ProblemBuilder.maxU b)) (r - 0)
     else at_ (ProblemBuilder.uineq b) r).
Proof.
  cbv zeta. intros SY1 SY2 Hr.
  unfold ProblemBuilder.buildTITerms, ProblemBuilder.withProblem.
  cbn [snd ProblemBuilder.lineq ProblemBuilder.uineq].
  match goal with
  | |- context [for_upto ?t (ProblemBuilder.rateBounds_body inf ?d) (?li, ?ui)] =>
      destruct (rateBounds_frame d li ui t r Hr) as (Hl & Hu)
  end.
  rewrite Hl, Hu. cbn [setMiddleRows at_ mapVec]. rewrite SY1, SY2.
  split; reflexivity.
Qed.

(** The output rows of [lineq] and [uineq] after [buildTITerms]. *)
Lemma buildTITerms_output_rows (b : ProblemBuilder.t T) (i k : nat) :
  let d := ProblemBuilder.dim b in
  let b' := snd (ProblemBuilder.buildTITerms inf b) in
  rows (ProblemBuilder.minY b) = ny d -> rows (ProblemBuilder.maxY b) = ny d ->
  i <= ph d -> k < ny d ->
  at_ (ProblemBuilder.lineq b') (ProblemBuilder.nEq d + (i * ny d + k))
  = coef (ProblemBuilder.minY b) k i /\
  at_ (ProblemBuilder.uineq b') (ProblemBuilder.nEq d + (i * ny d + k))
  = coef (ProblemBuilder.maxY b) k i.
Proof.
  cbv zeta. intros SY1 SY2 Hi Hk.
  set (d := ProblemBuilder.dim b) in *.
  assert (Hout : i * ny d + k < (ph d + 1) * ny d) by (apply block_index_lt; lia).
  destruct (buildTITerms_rows b (ProblemBuilder.nEq d + (i * ny d + k)) SY1 SY2
              ltac:(fold d; lia)) as (Hl & Hu).
  fold d in Hl, Hu. rewrite Hl, Hu.
  rewrite in_rows_true by lia.
  replace (ProblemBuilder.nEq d + (i * ny d + k) - ProblemBuilder.nEq d)
    with (i * ny d + k) by lia.
  destruct (block_mod (ny d) i (i * ny d + k) ltac:(lia) ltac:(lia)) as (Hq & Hm).
  rewrite Hq, Hm, aligned_sub. split; reflexivity.
Qed.

(** The state and input rows of [lineq] and [uineq] after [buildTITerms]. *)
Lemma buildTITerms_state_input_rows (b : ProblemBuilder.t T) (i : nat) :
  let d := ProblemBuilder.dim b in
  let b' := snd (ProblemBuilder.buildTITerms inf b) in
  let j := if i =? ph d then ph d - 1 else i in
  BuilderSpec.sized b ->
  i <= ph d ->
  (forall k, k < nx d ->
     at_ (ProblemBuilder.lineq b') (i * (nu d + nx d) + k) = coef (ProblemBuilder.minX b) k i /\
     at_ (ProblemBuilder.uineq b') (i * (nu d + nx d) + k) = coef (ProblemBuilder.maxX b) k i) /\
  (forall k, k < nu d ->
     at_ (ProblemBuilder.lineq b') (i * (nu d + nx d) + (nx d + k))
     = coef (ProblemBuilder.minU b) k j /\
     at_ (ProblemBuilder.uineq b') (i * (nu d + nx d) + (nx d + k))
     = coef (ProblemBuilder.maxU b) k j).
Proof.
  cbv zeta. intros (_ & _ & _ & (SX1 & SX2) & (SY1 & SY2)) Hi.
  pose proof (buildTITerms_rows b) as Rows. cbv zeta in Rows.
  set (d := ProblemBuilder.dim b) in *.
  assert (Hin : forall a, a < nu d + nx d ->
            i * (nu d + nx d) + a < ProblemBuilder.nEq d).
  { intros a Ha. unfold ProblemBuilder.nEq. apply block_index_lt; lia. }
  split; intros k Hk.
  - destruct (Rows (i * (nu d + nx d) + k) SY1 SY2
                ltac:(pose proof (Hin k); lia)) as (Hl & Hu).
    rewrite Hl, Hu.
    rewrite in_rows_before, in_rows_true, Nat.sub_0_r
      by (pose proof (Hin k); lia).
    unfold ProblemBuilder.stackBounds.
    split; apply stackBounds_loop; first [assumption | lia].
  - destruct (Rows (i * (nu d + nx d) + (nx d + k)) SY1 SY2
                ltac:(pose proof (Hin (nx d + k)); lia)) as (Hl & Hu).
    rewrite Hl, Hu.
    rewrite in_rows_before, in_rows_true, Nat.sub_0_r
      by (pose proof (Hin (nx d + k)); lia).
    unfold ProblemBuilder.stackBounds.
    destruct (stackBounds_loop d (ProblemBuilder.minX b) (ProblemBuilder.minU b)
                (vresize (ProblemBuilder.nEq d) fresh_vec) (ph d + 1) i SX1 ltac:(lia))
      as (_ & Ll).
    destruct (stackBounds_loop d (ProblemBuilder.maxX b) (ProblemBuilder.maxU b)
                (vresize (ProblemBuilder.nEq d) fresh_vec) (ph d + 1) i SX2 ltac:(lia))
      as (_ & Lu).
    rewrite (Ll k Hk), (Lu k Hk).
    destruct (Nat.eqb_spec i (ph d)) as [->|Hne]; split; reflexivity.
Qed.

(** X12.  After [buildTITerms] on a builder sized as [onInit] sizes it, the
    inequality bounds stack, for every step [i <= ph], column [i] of the
    state bounds, then the column of the input bounds of step [i] (the last
    step [i = ph] takes column [ph - 1] again), and, after the [(ph + 1)]
    state-and-input segments, column [i] of the output bounds. *)
Theorem buildTITerms_stacks_bounds (b : ProblemBuilder.t T) (i : nat) :
  let d := ProblemBuilder.dim b in
  let b' := snd (ProblemBuilder.buildTITerms inf b) in
  let j := if i =? ph d then ph d - 1 else i in
  BuilderSpec.sized b ->
  i <= ph d ->
  (forall k, k < nx d ->
     at_ (ProblemBuilder.lineq b') (i * (nu d + nx d) + k) = coef (ProblemBuilder.minX b) k i /\
     at_ (ProblemBuilder.uineq b') (i * (nu d + nx d) + k) = coef (ProblemBuilder.maxX b) k i) /\
  (forall k, k < nu d ->
     at_ (ProblemBuilder.lineq b') (i * (nu d + nx d) + nx d + k)
     = coef (ProblemBuilder.minU b) k j /\
     at_ (ProblemBuilder.uineq b') (i * (nu d + nx d) + nx d + k)
     = coef (ProblemBuilder.maxU b) k j) /\
  (forall k, k < ny d ->
     at_ (ProblemBuilder.lineq b') (ProblemBuilder.nEq d + i * ny d + k)
     = coef (ProblemBuilder.minY b) k i /\
     at_ (ProblemBuilder.uineq b') (ProblemBuilder.nEq d + i * ny d + k)
     = coef (ProblemBuilder.maxY b) k i).
Proof.
  cbv zeta. intros Hs Hi.
  destruct (buildTITerms_state_input_rows b i Hs Hi) as (HX & HU).
  destruct Hs as (_ & _ & _ & _ & (SY1 & SY2)).
  split; [exact HX|]. split.
  - intros k Hk. rewrite <- !Nat.add_assoc. exact (HU k Hk).
  - intros k Hk. rewrite <- !Nat.add_assoc.
    exact (buildTITerms_output_rows b i k SY1 SY2 Hi Hk).
Qed.

End BuilderStacking.

Lemma buildTITerms_stacks_bounds_witness :
  let b' := snd (ProblemBuilder.buildTITerms infinity Examples.bounded) in
  BuilderSpec.sized Examples.bounded /\
  at_ (ProblemBuilder.lineq b') 10 = (-8)%float /\
  at_ (ProblemBuilder.uineq b') 11 = 300%float /\
  at_ (ProblemBuilder.lineq b') 15 = (-40)%float.
Proof.
  assert (Hs : BuilderSpec.sized Examples.bounded) by (repeat split; reflexivity).
  assert (Hi : 3 <= Common.ph (ProblemBuilder.dim Examples.bounded)) by (vm_compute; lia).
  assert (K1 : 1 < Common.nx (ProblemBuilder.dim Examples.bounded)) by (vm_compute; lia).
  assert (U0 : 0 < Common.nu (ProblemBuilder.dim Examples.bounded)) by (vm_compute; lia).
  assert (Y0 : 0 < Common.ny (ProblemBuilder.dim Examples.bounded)) by (vm_compute; lia).
  pose proof (buildTITerms_stacks_bounds infinity Examples.bounded 3 Hs Hi) as (HX & HU & HY).
  cbv zeta. split; [exact Hs|].
  split; [exact (proj1 (HX 1 K1))|].
  split; [exact (proj2 (HU 0 U0))|].
  exact (proj1 (HY 0 Y0)).
Defined.

(** ** The linear builder: what [get] recomputes at every call *)

Section StepBounds.
Context {T : Type} {ST : Scalar T}.
Variable inf : T.
Import Common.

(** After [t] iterations of the loop of [get], the equality segment of every
    step [1 <= i < t] holds the disturbance term, and the others are
    untouched. *)
Lemma get_loop_equality_rows (b : ProblemBuilder.t T) (eRef deltaURef uMeas : cvec T)
      (s0 : ProblemBuilder.stepVars T) (t i k : nat) :
  let d := ProblemBuilder.dim b in
  let s := for_upto t (ProblemBuilder.get_body b eRef deltaURef uMeas) s0 in
  k < nx d + nu d ->
  at_ (ProblemBuilder.sleq s) (i * (nx d + nu d) + k)
  = (if (0 <? i) && (i <? t)
     then at_ (mulmv (mopp (ProblemBuilder.ssBv b)) uMeas) k
     else at_ (ProblemBuilder.sleq s0) (i * (nx d + nu d) + k)).
Proof.
  cbv zeta. intros Hk.
  induction t as [|t IH]; [simpl; now rewrite andb_false_r | rewrite for_upto_S].
  set (s := for_upto t (ProblemBuilder.get_body b eRef deltaURef uMeas) s0) in *.
  unfold ProblemBuilder.get_body. cbn [ProblemBuilder.sleq].
  destruct (Nat.ltb_spec 0 t) as [Ht|Ht].
  - cbn [setMiddleRows at_]. rewrite in_rows_aligned by exact Hk.
    destruct (Nat.eqb_spec i t) as [->|Hne].
    + rewrite aligned_sub, (proj2 (Nat.ltb_lt 0 t) Ht),
        (proj2 (Nat.ltb_lt t (S t)) (Nat.lt_succ_diag_r t)).
      reflexivity.
    + rewrite IH. decide_bounds; reflexivity.
  - rewrite IH. decide_bounds; reflexivity.
Qed.

(** X13.  In the problem returned by [get], whatever the builder held
    before: the input rows of the first equality segment are zero on both
    sides, and every row [k] of the equality segment of a step
    [1 <= i <= ph] is row [k] of [-ssBv * uMeas] on both sides. *)
Theorem get_equality_values (x0 u0 yRef uRef deltaURef uMeas : cvec T)
        (b : ProblemBuilder.t T) :
  let d := ProblemBuilder.dim b in
  let p := fst (ProblemBuilder.get x0 u0 yRef uRef deltaURef uMeas b) in
  let w := mulmv (mopp (ProblemBuilder.ssBv b)) uMeas in
  (forall k, nx d <= k -> k < nx d + nu d ->
     at_ (ProblemBuilder.l p) k = szero /\ at_ (ProblemBuilder.u p) k = szero) /\
  (forall i k, 1 <= i -> i <= ph d -> k < nx d + nu d ->
     at_ (ProblemBuilder.l p) (i * (nx d + nu d) + k) = at_ w k /\
     at_ (ProblemBuilder.u p) (i * (nx d + nu d) + k) = at_ w k).
Proof.
  cbv zeta.
  set (d := ProblemBuilder.dim b).
  assert (Rows : forall i k, i <= ph d -> k < nx d + nu d -> nx d <= i * (nx d + nu d) + k ->
            at_ (ProblemBuilder.leq
                   (snd (ProblemBuilder.get x0 u0 yRef uRef deltaURef uMeas b)))
                (i * (nx d + nu d) + k)
            = (if (0 <? i) && (i <? ph d + 1)
               then at_ (mulmv (mopp (ProblemBuilder.ssBv b)) uMeas) k
               else szero)).
  { intros i k Hi Hk Hge.
    unfold ProblemBuilder.get, ProblemBuilder.withProblem.
    cbn [snd ProblemBuilder.leq]. fold d.
    match goal with
    | |- context [for_upto ?t (ProblemBuilder.get_body b ?e deltaURef uMeas) ?s0] =>
        pose proof (get_loop_equality_rows b e deltaURef uMeas s0 t i k Hk) as Hl;
        set (s := for_upto t (ProblemBuilder.get_body b e deltaURef uMeas) s0) in *
    end.
    cbn [setMiddleRows at_]. rewrite in_rows_after by lia.
    fold d in Hl. rewrite Hl. reflexivity. }
  assert (Seg : forall i k, i <= ph d -> k < nx d + nu d ->
            i * (nx d + nu d) + k < (ph d + 1) * (nu d + nx d)).
  { intros i k Hi Hk. replace (nu d + nx d) with (nx d + nu d) by lia.
    apply block_index_lt; lia. }
  split.
  - intros k Hge Hk.
    destruct (get_equality_rows x0 u0 yRef uRef deltaURef uMeas b k) as (Hl & Hu).
    { fold d. exact (Seg 0 k (Nat.le_0_l _) Hk). }
    rewrite Hl, Hu.
    pose proof (Rows 0 k (Nat.le_0_l _) Hk Hge) as R.
    cbn [Nat.mul Nat.add Nat.ltb Nat.leb andb] in R. rewrite R. split; reflexivity.
  - intros i k H1 Hi Hk.
    destruct (get_equality_rows x0 u0 yRef uRef deltaURef uMeas b
                (i * (nx d + nu d) + k)) as (Hl & Hu).
    { fold d. exact (Seg i k Hi Hk). }
    rewrite Hl, Hu.
    assert (Hge : nx d <= i * (nx d + nu d) + k) by nia.
    rewrite (Rows i k Hi Hk Hge).
    rewrite (proj2 (Nat.ltb_lt 0 i) H1), (proj2 (Nat.ltb_lt i (ph d + 1)) ltac:(lia)).
    split; reflexivity.
Qed.

(** [n] calls of [get] keep the dimensions and the feed-through matrix, and
    subtract the feed-through [n] times from every output row of the
    builder's inequality bounds. *)
Lemma afterSteps_output_rows (n : nat) (x0 u0 yRef uRef deltaURef uMeas : cvec T)
      (b : ProblemBuilder.t T) :
  let d := ProblemBuilder.dim b in
  let v := mulmv (block (ProblemBuilder.ssDv b) 0 0 (ny d) (ndu d)) uMeas in
  let bn := BuilderSpec.afterSteps n x0 u0 yRef uRef deltaURef uMeas b in
  ProblemBuilder.dim bn = d /\ ProblemBuilder.ssDv bn = ProblemBuilder.ssDv b /\
  forall i k, i < ph d + 1 -> k < ny d ->
    let idx := i * ny d + (ph d + 1) * (nu d + nx d) + k in
    at_ (ProblemBuilder.lineq bn) idx
    = BuilderSpec.reducedBy n (at_ v k) (at_ (ProblemBuilder.lineq b) idx) /\
    at_ (ProblemBuilder.uineq bn) idx
    = BuilderSpec.reducedBy n (at_ v k) (at_ (ProblemBuilder.uineq b) idx).
Proof.
  cbv zeta. induction n as [|n IH].
  - split; [reflexivity|]. split; [reflexivity|]. intros i k _ _. split; reflexivity.
  - destruct IH as (Hd & Hv & IH).
    unfold BuilderSpec.afterSteps in *. rewrite !Nat.iter_succ.
    set (bn := Nat.iter n _ b) in *.
    split; [exact Hd|]. split; [exact Hv|].
    intros i k Hi Hk.
    pose proof (get_output_rows x0 u0 yRef uRef deltaURef uMeas bn i k) as G.
    cbv zeta in G. rewrite Hd, Hv in G.
    destruct (G Hi Hk) as (_ & _ & Gl & Gu).
    destruct (IH i k Hi Hk) as (IHl & IHu).
    rewrite Gl, Gu, IHl, IHu. split; reflexivity.
Qed.

(** X14.  After a setter has rebuilt the bounds of a builder sized as
    [onInit] sizes it, the call of [get] that follows [n] earlier calls with
    the same arguments returns, in the output row [k] of every step
    [i <= ph], the stored output bound with the feed-through
    [ssDv * uMeas] subtracted [n + 1] times: once for the first call, and
    once more for each call since the bounds were rebuilt. *)
Theorem get_repeated_output_rows (n : nat) (x0 u0 yRef uRef deltaURef uMeas : cvec T)
        (b : ProblemBuilder.t T) (i k : nat) :
  let d := ProblemBuilder.dim b in
  let v := mulmv (block (ProblemBuilder.ssDv b) 0 0 (ny d) (ndu d)) uMeas in
  let b0 := snd (ProblemBuilder.buildTITerms inf b) in
  let bn := BuilderSpec.afterSteps n x0 u0 yRef uRef deltaURef uMeas b0 in
  let p := fst (ProblemBuilder.get x0 u0 yRef uRef deltaURef uMeas bn) in
  let r := ProblemBuilder.nEq d + (ProblemBuilder.nEq d + i * ny d + k) in
  BuilderSpec.sized b ->
  i <= ph d -> k < ny d ->
  at_ (ProblemBuilder.l p) r
  = BuilderSpec.reducedBy (n + 1) (at_ v k) (coef (ProblemBuilder.minY b) k i) /\
  at_ (ProblemBuilder.u p) r
  = BuilderSpec.reducedBy (n + 1) (at_ v k) (coef (ProblemBuilder.maxY b) k i).
Proof.
  cbv zeta. intros (_ & _ & _ & _ & (SY1 & SY2)) Hi Hk.
  pose proof (afterSteps_output_rows n x0 u0 yRef uRef deltaURef uMeas
                (snd (ProblemBuilder.buildTITerms inf b))) as HS.
  cbv zeta in HS.
  change (ProblemBuilder.dim (snd (ProblemBuilder.buildTITerms inf b)))
    with (ProblemBuilder.dim b) in HS.
  change (ProblemBuilder.ssDv (snd (ProblemBuilder.buildTITerms inf b)))
    with (ProblemBuilder.ssDv b) in HS.
  destruct HS as (Hd & Hv & HS).
  set (b0 := snd (ProblemBuilder.buildTITerms inf b)) in *.
  set (bn := BuilderSpec.afterSteps n x0 u0 yRef uRef deltaURef uMeas b0) in *.
  pose proof (get_output_rows x0 u0 yRef uRef deltaURef uMeas bn i k) as G.
  cbv zeta in G. rewrite Hd, Hv in G.
  assert (Hi' : i < ph (ProblemBuilder.dim b) + 1) by lia.
  destruct (G Hi' Hk) as (Gl & Gu & _).
  destruct (HS i k Hi' Hk) as (Sl & Su).
  destruct (buildTITerms_output_rows inf b i k SY1 SY2 Hi Hk) as (Bl & Bu).
  fold b0 in Bl, Bu.
  set (d := ProblemBuilder.dim b) in *.
  unfold ProblemBuilder.nEq in *.
  replace ((ph d + 1) * (nu d + nx d) + ((ph d + 1) * (nu d + nx d) + i * ny d + k))
    with ((ph d + 1) * (nu d + nx d) + (i * ny d + (ph d + 1) * (nu d + nx d) + k)) by lia.
  replace ((ph d + 1) * (nu d + nx d) + (i * ny d + k))
    with (i * ny d + (ph d + 1) * (nu d + nx d) + k) in Bl, Bu by lia.
  rewrite Gl, Gu, Sl, Su, Bl, Bu.
  replace (n + 1) with (S n) by lia.
  split; reflexivity.
Qed.

End StepBounds.

Lemma get_repeated_output_rows_witness :
  let p :=
    fst (ProblemBuilder.get (Examples.zeros 2) (Examples.zeros 1) (Examples.zeros 1)
           (Examples.zeros 1) (Examples.zeros 1) (vecOf [1%float] 0%float)
           (BuilderSpec.afterSteps 2 (Examples.zeros 2) (Examples.zeros 1)
              (Examples.zeros 1) (Examples.zeros 1) (Examples.zeros 1)
              (vecOf [1%float] 0%float)
              (snd (ProblemBuilder.buildTITerms infinity Examples.fedThrough)))) in
  BuilderSpec.sized Examples.fedThrough /\
  at_ (ProblemBuilder.l p) 27 = (-43)%float /\ at_ (ProblemBuilder.u p) 27 = 37%float.
Proof.
  assert (Hs : BuilderSpec.sized Examples.fedThrough) by (repeat split; reflexivity).
  assert (Hi : 3 <= Common.ph (ProblemBuilder.dim Examples.fedThrough))
    by (vm_compute; lia).
  assert (Hk : 0 < Common.ny (ProblemBuilder.dim Examples.fedThrough))
    by (vm_compute; lia).
  pose proof (get_repeated_output_rows infinity 2 (Examples.zeros 2) (Examples.zeros 1)
                (Examples.zeros 1) (Examples.zeros 1) (Examples.zeros 1)
                (vecOf [1%float] 0%float)
                Examples.fedThrough 3 0 Hs Hi Hk) as (Hl & Hu).
  cbv zeta. split; [exact Hs|]. split; [exact Hl | exact Hu].
Defined.

(** ** The linear builder: the constraint matrix built by [buildTITerms] *)

Section ConstraintMatrix.
Context {T : Type} {ST : Scalar T}.
Hypothesis Rth : ring_theory szero sone sadd smul ssub sopp (@eq T).
Variable inf : T.
Import Common.

Add Ring constraint_ring : Rth.

Lemma in_block_false (r0 c0 h w i j : nat) :
  ~ (r0 <= i < r0 + h /\ c0 <= j < c0 + w) -> in_block r0 c0 h w i j = false.
Proof.
  intros H. destruct (in_block r0 c0 h w i j) eqn:E; [|reflexivity].
  apply in_block_iff in E. contradiction.
Qed.

Lemma block_div_mod (n I a : nat) : a < n -> (I * n + a) / n = I /\ (I * n + a) mod n = a.
Proof.
  intros Ha. destruct (block_mod n I (I * n + a) ltac:(lia) ltac:(lia)) as (Hq & Hm).
  rewrite Hq, Hm, aligned_sub. split; reflexivity.
Qed.

(** The two blocks of [mpcProblem.A]: its first [nEq] rows are [Aeq], the
    rows after them are [Aineq]. *)
Lemma buildTITerms_A_rows (b : ProblemBuilder.t T) (r c : nat) :
  let d := ProblemBuilder.dim b in
  let A' := ProblemBuilder.A (ProblemBuilder.mpcProblem
                                (snd (ProblemBuilder.buildTITerms inf b))) in
  c < ProblemBuilder.nVar d ->
  (r < ProblemBuilder.nEq d -> coef A' r c = coef (ProblemBuilder.buildAeq b) r c) /\
  (r < ProblemBuilder.nIneq d ->
   coef A' (ProblemBuilder.nEq d + r) c = coef (ProblemBuilder.buildAineq b) r c).
Proof.
  cbv zeta. intros Hc.
  unfold ProblemBuilder.buildTITerms, ProblemBuilder.withProblem.
  cbn [snd ProblemBuilder.mpcProblem ProblemBuilder.A setBlock coef].
  unfold ProblemBuilder.nVar in *.
  split; intros Hr.
  - rewrite in_block_false by lia.
    rewrite in_block_true by (unfold ProblemBuilder.nEq in *; lia).
    rewrite !Nat.sub_0_r. reflexivity.
  - rewrite in_block_true by lia.
    rewrite Nat.sub_0_r.
    replace (ProblemBuilder.nEq (ProblemBuilder.dim b) + r
             - ProblemBuilder.nEq (ProblemBuilder.dim b)) with r by lia.
    reflexivity.
Qed.

(** The shifted identities [augId] and [idenBd]: a one exactly below the
    diagonal. *)
Lemma shifted_identity (h w p I J : nat) :
  I <= p -> J <= p ->
  coef (setBlockIdentity (setZero (resize h w (fresh_mat (T := T)))) 1 0 p p) I J
  = if (I =? J + 1) && (J <? p) then sone else szero.
Proof.
  intros HI HJ. cbn [setBlockIdentity setZero resize coef rows cols].
  unfold in_block. decide_bounds; reflexivity.
Qed.

(** X15.  Over exact arithmetic, on a builder sized as [onInit] sizes it,
    the equality rows of the constraint matrix built by [buildTITerms]
    encode the augmented dynamics step by step: in the row block of step
    [I], the column block of step [I] is minus the identity, the column
    block of step [I - 1] is [ssA], the other state blocks are zero; and the
    column block of the rate of step [J] is [ssB] when [I = J + 1] and zero
    otherwise. *)
Theorem buildTITerms_dynamics_rows (b : ProblemBuilder.t T) :
  let d := ProblemBuilder.dim b in
  let n := nu d + nx d in
  let A' := ProblemBuilder.A (ProblemBuilder.mpcProblem
                                (snd (ProblemBuilder.buildTITerms inf b))) in
  BuilderSpec.sized b ->
  (forall I J a c, I <= ph d -> J <= ph d -> a < n -> c < n ->
     coef A' (I * n + a) (J * n + c)
     = if I =? J then (if a =? c then sopp sone else szero)
       else if I =? J + 1 then coef (ProblemBuilder.ssA b) a c else szero) /\
  (forall I J a c, I <= ph d -> J < ph d -> a < n -> c < nu d ->
     coef A' (I * n + a) (ProblemBuilder.nEq d + (J * nu d + c))
     = if I =? J + 1 then coef (ProblemBuilder.ssB b) a c else szero).
Proof.
  cbv zeta. intros ((SA1 & SA2) & (SB1 & SB2) & _).
  pose proof (buildTITerms_A_rows b) as HA. cbv zeta in HA.
  set (d := ProblemBuilder.dim b) in *.
  set (n := nu d + nx d) in *.
  assert (Hrow : forall I a, I <= ph d -> a < n -> I * n + a < ProblemBuilder.nEq d).
  { intros I a HI Ha. unfold ProblemBuilder.nEq. fold n. apply block_index_lt; lia. }
  split.
  - intros I J a c HI HJ Ha Hc.
    pose proof (Hrow I a HI Ha) as Hr. pose proof (Hrow J c HJ Hc) as Hcc.
    rewrite (proj1 (HA (I * n + a) (J * n + c)
                       ltac:(unfold ProblemBuilder.nVar; fold n;
                             unfold ProblemBuilder.nEq in Hcc; fold n in Hcc; lia)) Hr).
    unfold ProblemBuilder.buildAeq. fold d. cbn [setBlock coef].
    rewrite in_block_false by lia.
    rewrite in_block_true by lia.
    rewrite !Nat.sub_0_r.
    cbn [madd coef kroneckerProduct rows cols mopp setIdentity resize].
    rewrite shifted_identity.
    + rewrite SA1, SA2. fold n.
      destruct (block_div_mod n I a Ha) as (-> & ->).
      destruct (block_div_mod n J c Hc) as (-> & ->).
      decide_bounds; ring.
    + rewrite SA1. fold n. destruct (block_div_mod n I a Ha) as (-> & _). exact HI.
    + rewrite SA2. fold n. destruct (block_div_mod n J c Hc) as (-> & _). exact HJ.
  - intros I J a c HI HJ Ha Hc.
    pose proof (Hrow I a HI Ha) as Hr.
    assert (Hcc : J * nu d + c < ph d * nu d) by (apply block_index_lt; lia).
    rewrite (proj1 (HA (I * n + a) (ProblemBuilder.nEq d + (J * nu d + c))
                       ltac:(unfold ProblemBuilder.nVar; fold n;
                             unfold ProblemBuilder.nEq; fold n; lia)) Hr).
    unfold ProblemBuilder.buildAeq. fold d. cbn [setBlock coef].
    rewrite in_block_true by lia.
    rewrite !Nat.sub_0_r.
    replace (ProblemBuilder.nEq d + (J * nu d + c) - ProblemBuilder.nEq d)
      with (J * nu d + c) by lia.
    cbn [coef kroneckerProduct rows cols].
    rewrite shifted_identity.
    + rewrite SB1, SB2. fold n.
      destruct (block_div_mod n I a Ha) as (-> & ->).
      destruct (block_div_mod (nu d) J c Hc) as (-> & ->).
      decide_bounds; ring.
    + rewrite SB1. fold n. destruct (block_div_mod n I a Ha) as (-> & _). exact HI.
    + rewrite SB2. destruct (block_div_mod (nu d) J c Hc) as (-> & _). lia.
Qed.

(** X16.  Over exact arithmetic, on a builder sized as [onInit] sizes it,
    the inequality rows of the constraint matrix built by [buildTITerms]
    are, from top to bottom: the identity on the state-and-input variables;
    for every step [I], the first [ny] rows of [ssC] applied to the
    variables of step [I] and to nothing else; and the identity on the rate
    variables. *)
Theorem buildTITerms_inequality_rows (b : ProblemBuilder.t T) :
  let d := ProblemBuilder.dim b in
  let n := nu d + nx d in
  let nEq := ProblemBuilder.nEq d in
  let A' := ProblemBuilder.A (ProblemBuilder.mpcProblem
                                (snd (ProblemBuilder.buildTITerms inf b))) in
  BuilderSpec.sized b ->
  (forall r c, r < nEq -> c < ProblemBuilder.nVar d ->
     coef A' (nEq + r) c = if r =? c then sone else szero) /\
  (forall I J a c, I <= ph d -> J <= ph d -> a < ny d -> c < n ->
     coef A' (nEq + (nEq + (I * ny d + a))) (J * n + c)
     = if I =? J then coef (ProblemBuilder.ssC b) a c else szero) /\
  (forall I a c, I <= ph d -> a < ny d -> nEq <= c -> c < ProblemBuilder.nVar d ->
     coef A' (nEq + (nEq + (I * ny d + a))) c = szero) /\
  (forall r c, r < ph d * nu d -> c < ProblemBuilder.nVar d ->
     coef A' (nEq + (nEq + (ph d + 1) * ny d + r)) c
     = if c =? nEq + r then sone else szero).
Proof.
  cbv zeta. intros (_ & _ & (_ & SC2) & _).
  pose proof (buildTITerms_A_rows b) as HA. cbv zeta in HA.
  set (d := ProblemBuilder.dim b) in *.
  set (n := nu d + nx d) in *.
  assert (HnEq : ProblemBuilder.nEq d = (ph d + 1) * n) by reflexivity.
  assert (HnVar : ProblemBuilder.nVar d = ProblemBuilder.nEq d + ph d * nu d)
    by reflexivity.
  assert (HnIneq : ProblemBuilder.nIneq d
                   = ProblemBuilder.nEq d + ((ph d + 1) * ny d + ph d * nu d))
    by reflexivity.
  split; [|split; [|split]].
  - intros r c Hr Hc.
    rewrite (proj2 (HA r c Hc) ltac:(lia)).
    unfold ProblemBuilder.buildAineq. fold d.
    cbn [setBlockIdentity setBlock setZero resize coef rows cols].
    rewrite (in_block_false (ProblemBuilder.nEq d + (ph d + 1) * ny d)) by lia.
    rewrite (in_block_false (ProblemBuilder.nEq d)) by lia.
    unfold in_block. rewrite !Nat.sub_0_r. decide_bounds; reflexivity.
  - intros I J a c HI HJ Ha Hc.
    assert (Hr : I * ny d + a < (ph d + 1) * ny d) by (apply block_index_lt; lia).
    assert (Hcc : J * n + c < ProblemBuilder.nEq d)
      by (rewrite HnEq; apply block_index_lt; lia).
    rewrite (proj2 (HA (ProblemBuilder.nEq d + (I * ny d + a)) (J * n + c)
                       ltac:(lia)) ltac:(lia)).
    unfold ProblemBuilder.buildAineq. fold d.
    cbn [setBlockIdentity setBlock coef].
    rewrite (in_block_false (ProblemBuilder.nEq d + (ph d + 1) * ny d)) by lia.
    rewrite (in_block_true (ProblemBuilder.nEq d)) by lia.
    rewrite Nat.sub_0_r.
    replace (ProblemBuilder.nEq d + (I * ny d + a) - ProblemBuilder.nEq d)
      with (I * ny d + a) by lia.
    cbn [kroneckerProduct middleRowsM block setIdentity resize coef rows cols].
    rewrite SC2. fold n.
    destruct (block_div_mod (ny d) I a Ha) as (-> & ->).
    destruct (block_div_mod n J c Hc) as (-> & ->).
    cbn [Nat.add]. decide_bounds; ring.
  - intros I a c HI Ha Hc1 Hc2.
    assert (Hr : I * ny d + a < (ph d + 1) * ny d) by (apply block_index_lt; lia).
    rewrite (proj2 (HA (ProblemBuilder.nEq d + (I * ny d + a)) c Hc2) ltac:(lia)).
    unfold ProblemBuilder.buildAineq. fold d.
    cbn [setBlockIdentity setBlock setZero resize coef rows cols].
    rewrite (in_block_false (ProblemBuilder.nEq d + (ph d + 1) * ny d)) by lia.
    rewrite (in_block_false (ProblemBuilder.nEq d)) by lia.
    rewrite (in_block_false 0) by lia.
    reflexivity.
  - intros r c Hr Hc.
    rewrite (proj2 (HA (ProblemBuilder.nEq d + (ph d + 1) * ny d + r) c Hc) ltac:(lia)).
    unfold ProblemBuilder.buildAineq. fold d.
    cbn [setBlockIdentity setBlock setZero resize coef rows cols].
    rewrite (in_block_false (ProblemBuilder.nEq d) 0) by lia.
    rewrite (in_block_false 0 0) by lia.
    replace (ProblemBuilder.nEq d + (ph d + 1) * ny d + r
             - (ProblemBuilder.nEq d + (ph d + 1) * ny d)) with r by lia.
    unfold in_block. decide_bounds; reflexivity.
Qed.

End ConstraintMatrix.

Lemma buildTITerms_dynamics_rows_witness :
  let A' := ProblemBuilder.A (ProblemBuilder.mpcProblem
                                (snd (ProblemBuilder.buildTITerms 0%Z Examples.weighted))) in
  BuilderSpec.sized Examples.weighted /\
  coef A' 3 1 = 1%Z /\ coef A' 4 4 = (-1)%Z /\ coef A' 7 1 = 0%Z /\ coef A' 5 12 = 1%Z.
Proof.
  assert (Hs : BuilderSpec.sized Examples.weighted) by (repeat split; reflexivity).
  pose proof (buildTITerms_dynamics_rows (T := Z) (ST := ScalarZ) Zth 0%Z
                Examples.weighted Hs) as (HA & HB).
  assert (L0 : 0 <= Common.ph (ProblemBuilder.dim Examples.weighted)) by (vm_compute; lia).
  assert (L1 : 1 <= Common.ph (ProblemBuilder.dim Examples.weighted)) by (vm_compute; lia).
  assert (L2 : 2 <= Common.ph (ProblemBuilder.dim Examples.weighted)) by (vm_compute; lia).
  assert (J0 : 0 < Common.ph (ProblemBuilder.dim Examples.weighted)) by (vm_compute; lia).
  assert (N0 : 0 < Common.nu (ProblemBuilder.dim Examples.weighted)
                   + Common.nx (ProblemBuilder.dim Examples.weighted)) by (vm_compute; lia).
  assert (N1 : 1 < Common.nu (ProblemBuilder.dim Examples.weighted)
                   + Common.nx (ProblemBuilder.dim Examples.weighted)) by (vm_compute; lia).
  assert (N2 : 2 < Common.nu (ProblemBuilder.dim Examples.weighted)
                   + Common.nx (ProblemBuilder.dim Examples.weighted)) by (vm_compute; lia).
  assert (U0 : 0 < Common.nu (ProblemBuilder.dim Examples.weighted)) by (vm_compute; lia).
  cbv zeta. split; [exact Hs|].
  split; [exact (HA 1 0 0 1 L1 L0 N0 N1)|].
  split; [exact (HA 1 1 1 1 L1 L1 N1 N1)|].
  split; [exact (HA 2 0 1 1 L2 L0 N1 N1)|].
  exact (HB 1 0 2 0 L1 J0 N2 U0).
Defined.

Lemma buildTITerms_inequality_rows_witness :
  let A' := ProblemBuilder.A (ProblemBuilder.mpcProblem
                                (snd (ProblemBuilder.buildTITerms 0%Z Examples.weighted))) in
  BuilderSpec.sized Examples.weighted /\
  coef A' 14 2 = 1%Z /\ coef A' 14 3 = 0%Z /\
  coef A' 25 3 = 1%Z /\ coef A' 25 4 = 0%Z /\ coef A' 25 13 = 0%Z /\
  coef A' 29 13 = 1%Z.
Proof.
  assert (Hs : BuilderSpec.sized Examples.weighted) by (repeat split; reflexivity).
  pose proof (buildTITerms_inequality_rows (T := Z) (ST := ScalarZ) Zth 0%Z
                Examples.weighted Hs) as (HI & HC & HZ & HR).
  assert (L1 : 1 <= Common.ph (ProblemBuilder.dim Examples.weighted)) by (vm_compute; lia).
  assert (Y0 : 0 < Common.ny (ProblemBuilder.dim Examples.weighted)) by (vm_compute; lia).
  assert (N0 : 0 < Common.nu (ProblemBuilder.dim Examples.weighted)
                   + Common.nx (ProblemBuilder.dim Examples.weighted)) by (vm_compute; lia).
  assert (N1 : 1 < Common.nu (ProblemBuilder.dim Examples.weighted)
                   + Common.nx (ProblemBuilder.dim Examples.weighted)) by (vm_compute; lia).
  assert (E2 : 2 < ProblemBuilder.nEq (ProblemBuilder.dim Examples.weighted))
    by (vm_compute; lia).
  assert (V2 : 2 < ProblemBuilder.nVar (ProblemBuilder.dim Examples.weighted))
    by (vm_compute; lia).
  assert (V3 : 3 < ProblemBuilder.nVar (ProblemBuilder.dim Examples.weighted))
    by (vm_compute; lia).
  assert (V13 : 13 < ProblemBuilder.nVar (ProblemBuilder.dim Examples.weighted))
    by (vm_compute; lia).
  assert (G13 : ProblemBuilder.nEq (ProblemBuilder.dim Examples.weighted) <= 13)
    by (vm_compute; lia).
  assert (R1 : 1 < Common.ph (ProblemBuilder.dim Examples.weighted)
                   * Common.nu (ProblemBuilder.dim Examples.weighted))
    by (vm_compute; lia).
  cbv zeta. split; [exact Hs|].
  split; [exact (HI 2 2 E2 V2)|].
  split; [exact (HI 2 3 E2 V3)|].
  split; [exact (HC 1 1 0 0 L1 L1 Y0 N0)|].
  split; [exact (HC 1 1 0 1 L1 L1 Y0 N1)|].
  split; [exact (HZ 1 0 13 L1 Y0 G13 V13)|].
  exact (HR 1 13 R1 V13).
Defined.

(** ** The linear builder: the objective terms *)

Section ObjectiveTerms.
Context {T : Type} {ST : Scalar T}.
Hypothesis Rth : ring_theory szero sone sadd smul ssub sopp (@eq T).
Variable inf : T.
Import Common.

Add Ring objective_ring : Rth.

(** [wExtendedState] after the assignments of step [i]: the diagonal of the
    output weights of the step followed by its input weights. *)
Lemma stepWeight_coef (b : ProblemBuilder.t T) (W : mat T) (i : nat) :
  let d := ProblemBuilder.dim b in
  let W' := ProblemBuilder.stepWeight d (ProblemBuilder.wOutput b) (ProblemBuilder.wU b) i W in
  (forall k l, k <> l -> coef W k l = szero) ->
  (rows W' = rows W /\ cols W' = cols W) /\
  (forall k l, k <> l -> coef W' k l = szero) /\
  (forall r c, c < ny d + nu d ->
     coef W' r c = if r =? c then BuilderSpec.stepWeights b i c else szero).
Proof.
  cbv zeta. intros HW. split; [split; reflexivity|].
  unfold BuilderSpec.stepWeights.
  split.
  - intros k l Hkl.
    cbn [ProblemBuilder.stepWeight setBlock asDiagonal col coef at_ size rows].
    unfold in_block. decide_bounds; try reflexivity; apply HW; assumption.
  - intros r c Hc.
    cbn [ProblemBuilder.stepWeight setBlock asDiagonal col coef at_ size rows].
    unfold in_block.
    destruct (Nat.eq_dec r c) as [->|Hrc].
    + decide_bounds; try reflexivity. rewrite Nat.sub_0_r. reflexivity.
    + decide_bounds; try reflexivity; apply HW; assumption.
Qed.

(** [C' * W * v] for a diagonal [W]. *)
Lemma weighted_output (C W : mat T) (v : cvec T) (w : nat -> T) (m k : nat) :
  rows C = m -> cols W = m ->
  (forall r c, c < m -> coef W r c = if r =? c then w c else szero) ->
  at_ (mulmv (mmul (transpose C) W) v) k
  = ssum m (fun c => smul (smul (coef C c k) (w c)) (at_ v c)).
Proof.
  intros HC HWc HW. cbn [mulmv mmul transpose coef rows cols at_].
  rewrite HWc, HC. apply ssum_ext. intros c Hc. f_equal.
  rewrite (ssum_isolated Rth m c).
  - rewrite (proj2 (Nat.ltb_lt c m) Hc), (HW c c Hc), Nat.eqb_refl. reflexivity.
  - intros r Hr Hrc. rewrite (HW r c Hc).
    destruct (Nat.eqb_spec r c); [contradiction | ring].
Qed.

(** After [t] iterations of the loop of [get]: the segments of [q] written
    so far. *)
Lemma get_loop_linear_term (b : ProblemBuilder.t T) (eRef deltaURef uMeas : cvec T)
      (s0 : ProblemBuilder.stepVars T) (t : nat) :
  let d := ProblemBuilder.dim b in
  let v := vadd (vopp eRef) (mulmv (ProblemBuilder.ssDv b) uMeas) in
  let s := for_upto t (ProblemBuilder.get_body b eRef deltaURef uMeas) s0 in
  rows (ProblemBuilder.ssC b) = ny d + nu d ->
  cols (ProblemBuilder.sW s0) = ny d + nu d ->
  (forall k l, k <> l -> coef (ProblemBuilder.sW s0) k l = szero) ->
  t <= ph d + 1 ->
  (cols (ProblemBuilder.sW s) = ny d + nu d /\
   forall k l, k <> l -> coef (ProblemBuilder.sW s) k l = szero) /\
  (forall i k, i < t -> k < nx d + nu d ->
     at_ (ProblemBuilder.sq s) (i * (nx d + nu d) + k)
     = ssum (ny d + nu d)
         (fun c => smul (smul (coef (ProblemBuilder.ssC b) c k) (BuilderSpec.stepWeights b i c))
                        (at_ v c))) /\
  (forall i k, i < t -> i < ph d -> k < nu d ->
     at_ (ProblemBuilder.sq s) ((ph d + 1) * (nu d + nx d) + (i * nu d + k))
     = sopp (smul (coef (ProblemBuilder.wDeltaU b) k i) (at_ deltaURef k))).
Proof.
  cbv zeta. intros HC HW0c HW0.
  induction t as [|t IH]; intros Ht; [simpl | rewrite for_upto_S].
  - split; [split; assumption|]. split; intros; lia.
  - set (s := for_upto t (ProblemBuilder.get_body b eRef deltaURef uMeas) s0) in *.
    destruct (IH ltac:(lia)) as ((HWc & HW) & IHq & IHr). clear IH.
    destruct (stepWeight_coef b (ProblemBuilder.sW s) t HW) as ((_ & HWc') & HW' & HWd).
    set (d := ProblemBuilder.dim b) in *.
    unfold ProblemBuilder.get_body. fold d.
    cbn [ProblemBuilder.sW ProblemBuilder.sq].
    split; [split; [rewrite HWc'; exact HWc | exact HW']|].
    assert (Hseg : forall i k, i <= t -> k < nx d + nu d ->
              i * (nx d + nu d) + k < (ph d + 1) * (nu d + nx d)).
    { intros i k Hi Hk. replace (nu d + nx d) with (nx d + nu d) by lia.
      apply block_index_lt; lia. }
    assert (Hend : t * (nx d + nu d) + (nx d + nu d) <= (ph d + 1) * (nu d + nx d)).
    { replace (nu d + nx d) with (nx d + nu d) by lia.
      replace (t * (nx d + nu d) + (nx d + nu d)) with ((t + 1) * (nx d + nu d)) by lia.
      apply Nat.mul_le_mono_r. lia. }
    split.
    + intros i k Hi Hk. pose proof (Hseg i k ltac:(lia) Hk) as Hlt.
      assert (E : forall X,
                at_ (if t <? ph d
                     then setMiddleRows X ((ph d + 1) * (nu d + nx d) + t * nu d) (nu d)
                            (vopp (diagMulVec (col (ProblemBuilder.wDeltaU b) t) deltaURef))
                     else X) (i * (nx d + nu d) + k)
                = at_ X (i * (nx d + nu d) + k)).
      { intros X. destruct (t <? ph d); [|reflexivity].
        cbn [setMiddleRows at_]. rewrite in_rows_before by lia. reflexivity. }
      rewrite E. cbn [setMiddleRows at_]. rewrite in_rows_aligned by exact Hk.
      destruct (Nat.eqb_spec i t) as [->|Hne].
      * rewrite aligned_sub.
        apply weighted_output; [exact HC | rewrite HWc'; exact HWc | exact HWd].
      * apply IHq; [lia | exact Hk].
    + intros i k Hi Hi' Hk.
      assert (Q : forall X,
                at_ (setMiddleRows (ProblemBuilder.sq s) (t * (nx d + nu d)) (nx d + nu d) X)
                    ((ph d + 1) * (nu d + nx d) + (i * nu d + k))
                = at_ (ProblemBuilder.sq s) ((ph d + 1) * (nu d + nx d) + (i * nu d + k))).
      { intros X. cbn [setMiddleRows at_]. rewrite in_rows_after by lia. reflexivity. }
      destruct (Nat.ltb_spec t (ph d)) as [Hlt|Hge].
      * cbn [setMiddleRows at_]. rewrite in_rows_shift, in_rows_aligned by exact Hk.
        destruct (Nat.eqb_spec i t) as [->|Hne].
        -- replace ((ph d + 1) * (nu d + nx d) + (t * nu d + k)
                    - ((ph d + 1) * (nu d + nx d) + t * nu d)) with k by lia.
           reflexivity.
        -- rewrite in_rows_after by lia. apply IHr; [lia | exact Hi' | exact Hk].
      * rewrite Q. apply IHr; [lia | exact Hi' | exact Hk].
Qed.

(** X17.  Over exact arithmetic, on a builder sized as [onInit] sizes it,
    the linear term returned by [get] is, whatever [q] held before: in the
    segment of every step [i <= ph], row [k] is the sum over the output and
    input channels [c] of [ssC(c, k)] times the weight of [c] at step [i]
    times the offset of [c] from its reference; and in the rate segment of
    every step [i < ph], row [k] is minus the rate weight times the rate
    reference. *)
Theorem get_linear_term (x0 u0 yRef uRef deltaURef uMeas : cvec T)
        (b : ProblemBuilder.t T) :
  let d := ProblemBuilder.dim b in
  let p := fst (ProblemBuilder.get x0 u0 yRef uRef deltaURef uMeas b) in
  BuilderSpec.sized b ->
  (forall i k, i <= ph d -> k < nx d + nu d ->
     at_ (ProblemBuilder.q p) (i * (nx d + nu d) + k)
     = ssum (ny d + nu d)
         (fun c => smul (smul (coef (ProblemBuilder.ssC b) c k) (BuilderSpec.stepWeights b i c))
                        (BuilderSpec.referenceOffset b yRef uRef uMeas c))) /\
  (forall i k, i < ph d -> k < nu d ->
     at_ (ProblemBuilder.q p) (ProblemBuilder.nEq d + (i * nu d + k))
     = sopp (smul (coef (ProblemBuilder.wDeltaU b) k i) (at_ deltaURef k))).
Proof.
  cbv zeta. intros (_ & _ & (SC1 & _) & _).
  unfold ProblemBuilder.get, ProblemBuilder.withProblem.
  cbn [fst ProblemBuilder.q].
  set (d := ProblemBuilder.dim b) in *.
  match goal with
  | |- context [for_upto ?t (ProblemBuilder.get_body b ?e deltaURef uMeas) ?s0] =>
      pose proof (get_loop_linear_term b e deltaURef uMeas s0 t) as L;
      set (s := for_upto t (ProblemBuilder.get_body b e deltaURef uMeas) s0) in *
  end.
  cbv zeta in L. fold d in L.
  destruct L as (_ & Lq & Lr).
  - rewrite SC1. fold d. lia.
  - reflexivity.
  - intros k l _. reflexivity.
  - lia.
  - split.
    + intros i k Hi Hk. rewrite (Lq i k ltac:(lia) Hk). reflexivity.
    + intros i k Hi Hk. exact (Lr i k ltac:(lia) Hi Hk).
Qed.

(** [C' * W * C] for a diagonal [W]. *)
Lemma weighted_gram (C W : mat T) (w : nat -> T) (m a c : nat) :
  rows C = m -> cols W = m ->
  (forall r k, k < m -> coef W r k = if r =? k then w k else szero) ->
  coef (mmul (mmul (transpose C) W) C) a c
  = ssum m (fun r => smul (smul (coef C r a) (w r)) (coef C r c)).
Proof.
  intros HC HWc HW. cbn [mmul transpose coef rows cols].
  rewrite HWc, HC. apply ssum_ext. intros r Hr. f_equal.
  rewrite (ssum_isolated Rth m r).
  - rewrite (proj2 (Nat.ltb_lt r m) Hr), (HW r r Hr), Nat.eqb_refl. reflexivity.
  - intros k Hk Hkr. rewrite (HW k r Hr).
    destruct (Nat.eqb_spec k r); [contradiction | ring].
Qed.

Lemma in_block_shift (off a h i j : nat) :
  in_block (off + a) (off + a) h h (off + i) (off + j) = in_block a a h h i j.
Proof. now rewrite !in_block_rows, !in_rows_shift. Qed.

(** After [t] iterations of the loop that fills [P]: the diagonal blocks
    written so far, and zero everywhere else. *)
Lemma buildP_loop_blocks (b : ProblemBuilder.t T) (W0 P0 : mat T) (t : nat) :
  let d := ProblemBuilder.dim b in
  let n := nu d + nx d in
  let off := (ph d + 1) * (nu d + nx d) in
  let s := for_upto t (ProblemBuilder.buildP_body b) (W0, P0) in
  rows (ProblemBuilder.ssC b) = nu d + ny d ->
  cols W0 = nu d + ny d ->
  (forall k l, k <> l -> coef W0 k l = szero) ->
  (forall r c, coef P0 r c = szero) ->
  t <= ph d + 1 ->
  (cols (fst s) = nu d + ny d /\ forall k l, k <> l -> coef (fst s) k l = szero) /\
  (forall I J a c, I <= ph d -> J <= ph d -> a < n -> c < n ->
     coef (snd s) (I * n + a) (J * n + c)
     = if (I =? J) && (I <? t)
       then ssum (nu d + ny d)
              (fun r => smul (smul (coef (ProblemBuilder.ssC b) r a)
                                   (BuilderSpec.stepWeights b I r))
                             (coef (ProblemBuilder.ssC b) r c))
       else szero) /\
  (forall I J k l, I < ph d -> J < ph d -> k < nu d -> l < nu d ->
     coef (snd s) (off + (I * nu d + k)) (off + (J * nu d + l))
     = if (I =? J) && (I <? t) && (k =? l)
       then coef (ProblemBuilder.wDeltaU b) k I else szero) /\
  (forall r c, r < off -> off <= c ->
     coef (snd s) r c = szero /\ coef (snd s) c r = szero).
Proof.
  cbv zeta. intros HC HW0c HW0 HP0.
  induction t as [|t IH]; intros Ht; [simpl | rewrite for_upto_S].
  - split; [split; assumption|].
    split; [intros; rewrite andb_false_r; apply HP0|].
    split; [intros; rewrite andb_false_r; apply HP0|].
    intros; split; apply HP0.
  - set (s := for_upto t (ProblemBuilder.buildP_body b) (W0, P0)) in *.
    destruct (IH ltac:(lia)) as ((HWc & HW) & IHs & IHr & IHz). clear IH.
    destruct (stepWeight_coef b (fst s) t HW) as ((_ & HWc') & HW' & HWd).
    set (d := ProblemBuilder.dim b) in *.
    set (n := nu d + nx d) in *.
    set (off := (ph d + 1) * n) in *.
    unfold ProblemBuilder.buildP_body. fold d. fold n. fold off.
    cbn [fst snd].
    split; [split; [rewrite HWc'; exact HWc | exact HW']|].
    assert (Hseg : forall I a, I <= ph d -> a < n -> I * n + a < off).
    { intros I a HI Ha. apply block_index_lt; lia. }
    assert (Hend : t * n + n <= off).
    { unfold off. replace (t * n + n) with ((t + 1) * n) by lia.
      apply Nat.mul_le_mono_r. lia. }
    assert (Hrate : forall I k, I < ph d -> k < nu d -> I * nu d + k < ph d * nu d).
    { intros I k HI Hk. apply block_index_lt; lia. }
    set (G := mmul (mmul (transpose (ProblemBuilder.ssC b))
                      (ProblemBuilder.stepWeight d (ProblemBuilder.wOutput b)
                         (ProblemBuilder.wU b) t (fst s))) (ProblemBuilder.ssC b)).
    set (Dg := asDiagonal (col (ProblemBuilder.wDeltaU b) t)).
    assert (Rate : forall X r c,
              coef (if t <? ph d then setBlock X (off + t * nu d) (off + t * nu d)
                                        (nu d) (nu d) Dg else X) r c
              = if (t <? ph d) && in_block (off + t * nu d) (off + t * nu d) (nu d) (nu d) r c
                then coef Dg (r - (off + t * nu d)) (c - (off + t * nu d))
                else coef X r c).
    { intros X r c. destruct (t <? ph d); reflexivity. }
    split; [|split].
    + intros I J a c HI HJ Ha Hc.
      pose proof (Hseg I a HI Ha). pose proof (Hseg J c HJ Hc).
      rewrite Rate, (in_block_false (off + t * nu d)), andb_false_r by lia.
      cbn [setBlock coef]. rewrite in_block_aligned by assumption.
      rewrite (IHs I J a c HI HJ Ha Hc).
      destruct (Nat.eqb_spec I t) as [->|HIt].
      * destruct (Nat.eqb_spec J t) as [->|HJt]; cbn [andb].
        -- rewrite Nat.eqb_refl, !aligned_sub,
             (proj2 (Nat.ltb_lt t (S t)) (Nat.lt_succ_diag_r t)).
           cbn [andb]. unfold G.
           apply weighted_gram; [exact HC | rewrite HWc'; exact HWc |].
           intros r k Hk. apply HWd. lia.
        -- destruct (Nat.eqb_spec t J); [congruence | reflexivity].
      * cbn [andb]. decide_bounds; reflexivity.
    + intros I J k l HI HJ Hk Hl.
      pose proof (Hrate I k HI Hk). pose proof (Hrate J l HJ Hl).
      rewrite Rate, in_block_shift, in_block_aligned by assumption.
      cbn [setBlock coef]. rewrite (in_block_false (t * n)) by lia.
      rewrite (IHr I J k l HI HJ Hk Hl).
      destruct (Nat.eqb_spec I t) as [->|HIt].
      * destruct (Nat.eqb_spec J t) as [->|HJt]; cbn [andb].
        -- rewrite (proj2 (Nat.ltb_lt t (ph d)) HI), Nat.eqb_refl,
             (proj2 (Nat.ltb_lt t (S t)) (Nat.lt_succ_diag_r t)).
           cbn [andb]. unfold Dg. cbn [asDiagonal col coef at_].
           replace (off + (t * nu d + k) - (off + t * nu d)) with k by lia.
           replace (off + (t * nu d + l) - (off + t * nu d)) with l by lia.
           reflexivity.
        -- rewrite andb_false_r.
           destruct (Nat.eqb_spec t J); [congruence | reflexivity].
      * rewrite andb_false_r. decide_bounds; reflexivity.
    + intros r c Hr Hc.
      rewrite !Rate, !(in_block_false (off + t * nu d)), !andb_false_r by lia.
      cbn [setBlock coef]. rewrite !(in_block_false (t * n)) by lia.
      exact (IHz r c Hr Hc).
Qed.

(** X18.  Over exact arithmetic, on a builder sized as [onInit] sizes it,
    the quadratic term built by [buildTITerms] is block diagonal: the
    diagonal block of every step [I <= ph] is [ssC' * W * ssC] for the
    diagonal matrix [W] of the output and input weights of the step, the
    diagonal block of the rates of every step [I < ph] is the diagonal of
    the rate weights of the step, and every other coefficient is zero,
    whatever [P] held before. *)
Theorem buildTITerms_objective_blocks (b : ProblemBuilder.t T) :
  let d := ProblemBuilder.dim b in
  let n := nu d + nx d in
  let nEq := ProblemBuilder.nEq d in
  let P' := ProblemBuilder.P (ProblemBuilder.mpcProblem
                                (snd (ProblemBuilder.buildTITerms inf b))) in
  BuilderSpec.sized b ->
  (forall I J a c, I <= ph d -> J <= ph d -> a < n -> c < n ->
     coef P' (I * n + a) (J * n + c)
     = if I =? J
       then ssum (nu d + ny d)
              (fun r => smul (smul (coef (ProblemBuilder.ssC b) r a)
                                   (BuilderSpec.stepWeights b I r))
                             (coef (ProblemBuilder.ssC b) r c))
       else szero) /\
  (forall I J k l, I < ph d -> J < ph d -> k < nu d -> l < nu d ->
     coef P' (nEq + (I * nu d + k)) (nEq + (J * nu d + l))
     = if (I =? J) && (k =? l) then coef (ProblemBuilder.wDeltaU b) k I else szero) /\
  (forall r c, r < nEq -> nEq <= c -> coef P' r c = szero /\ coef P' c r = szero).
Proof.
  cbv zeta. intros (_ & _ & (SC1 & _) & _).
  change (ProblemBuilder.P (ProblemBuilder.mpcProblem
                              (snd (ProblemBuilder.buildTITerms inf b))))
    with (ProblemBuilder.buildP b).
  unfold ProblemBuilder.buildP, ProblemBuilder.nEq.
  set (d := ProblemBuilder.dim b) in *.
  match goal with
  | |- context [for_upto ?t (ProblemBuilder.buildP_body b) (?W0, ?P0)] =>
      pose proof (buildP_loop_blocks b W0 P0 t) as L;
      set (s := for_upto t (ProblemBuilder.buildP_body b) (W0, P0)) in *
  end.
  cbv zeta in L. fold d in L.
  destruct L as (_ & Ls & Lr & Lz).
  - exact SC1.
  - reflexivity.
  - intros k l _. reflexivity.
  - intros r c. reflexivity.
  - lia.
  - split; [|split].
    + intros I J a c HI HJ Ha Hc. rewrite (Ls I J a c HI HJ Ha Hc).
      rewrite (proj2 (Nat.ltb_lt I (ph d + 1)) ltac:(lia)), andb_true_r. reflexivity.
    + intros I J k l HI HJ Hk Hl. rewrite (Lr I J k l HI HJ Hk Hl).
      rewrite (proj2 (Nat.ltb_lt I (ph d + 1)) ltac:(lia)), andb_true_r. reflexivity.
    + exact Lz.
Qed.

End ObjectiveTerms.

Lemma get_linear_term_witness :
  let p :=
    fst (ProblemBuilder.get (vecOf [0; 0]%Z 0%Z) (vecOf [0]%Z 0%Z) (vecOf [5]%Z 0%Z)
           (vecOf [7]%Z 0%Z) (vecOf [4]%Z 0%Z) (vecOf [0]%Z 0%Z) Examples.weighted) in
  BuilderSpec.sized Examples.weighted /\
  at_ (ProblemBuilder.q p) 3 = (-15)%Z /\ at_ (ProblemBuilder.q p) 5 = (-14)%Z /\
  at_ (ProblemBuilder.q p) 13 = (-4)%Z.
Proof.
  assert (Hs : BuilderSpec.sized Examples.weighted) by (repeat split; reflexivity).
  pose proof (get_linear_term (T := Z) (ST := ScalarZ) Zth
                (vecOf [0; 0]%Z 0%Z) (vecOf [0]%Z 0%Z) (vecOf [5]%Z 0%Z)
                (vecOf [7]%Z 0%Z) (vecOf [4]%Z 0%Z) (vecOf [0]%Z 0%Z)
                Examples.weighted Hs) as (Hq & Hr).
  assert (L1 : 1 <= Common.ph (ProblemBuilder.dim Examples.weighted)) by (vm_compute; lia).
  assert (I1 : 1 < Common.ph (ProblemBuilder.dim Examples.weighted)) by (vm_compute; lia).
  assert (K0 : 0 < Common.nx (ProblemBuilder.dim Examples.weighted)
                   + Common.nu (ProblemBuilder.dim Examples.weighted)) by (vm_compute; lia).
  assert (K2 : 2 < Common.nx (ProblemBuilder.dim Examples.weighted)
                   + Common.nu (ProblemBuilder.dim Examples.weighted)) by (vm_compute; lia).
  assert (U0 : 0 < Common.nu (ProblemBuilder.dim Examples.weighted)) by (vm_compute; lia).
  cbv zeta. split; [exact Hs|].
  split; [exact (Hq 1 0 L1 K0)|].
  split; [exact (Hq 1 2 L1 K2)|].
  exact (Hr 1 0 I1 U0).
Defined.

Lemma buildTITerms_objective_blocks_witness :
  let P' := ProblemBuilder.P (ProblemBuilder.mpcProblem
                                (snd (ProblemBuilder.buildTITerms 0%Z Examples.weighted))) in
  BuilderSpec.sized Examples.weighted /\
  coef P' 3 3 = 3%Z /\ coef P' 5 5 = 2%Z /\ coef P' 3 6 = 0%Z /\ coef P' 13 13 = 1%Z /\
  coef P' 3 13 = 0%Z.
Proof.
  assert (Hs : BuilderSpec.sized Examples.weighted) by (repeat split; reflexivity).
  pose proof (buildTITerms_objective_blocks (T := Z) (ST := ScalarZ) Zth 0%Z
                Examples.weighted Hs) as (HS & HR & HZ).
  assert (L1 : 1 <= Common.ph (ProblemBuilder.dim Examples.weighted)) by (vm_compute; lia).
  assert (L2 : 2 <= Common.ph (ProblemBuilder.dim Examples.weighted)) by (vm_compute; lia).
  assert (I1 : 1 < Common.ph (ProblemBuilder.dim Examples.weighted)) by (vm_compute; lia).
  assert (N0 : 0 < Common.nu (ProblemBuilder.dim Examples.weighted)
                   + Common.nx (ProblemBuilder.dim Examples.weighted)) by (vm_compute; lia).
  assert (N2 : 2 < Common.nu (ProblemBuilder.dim Examples.weighted)
                   + Common.nx (ProblemBuilder.dim Examples.weighted)) by (vm_compute; lia).
  assert (U0 : 0 < Common.nu (ProblemBuilder.dim Examples.weighted)) by (vm_compute; lia).
  assert (E3 : 3 < ProblemBuilder.nEq (ProblemBuilder.dim Examples.weighted))
    by (vm_compute; lia).
  assert (G13 : ProblemBuilder.nEq (ProblemBuilder.dim Examples.weighted) <= 13)
    by (vm_compute; lia).
  cbv zeta. split; [exact Hs|].
  split; [exact (HS 1 1 0 0 L1 L1 N0 N0)|].
  split; [exact (HS 1 1 2 2 L1 L1 N2 N2)|].
  split; [exact (HS 1 2 0 0 L1 L2 N0 N0)|].
  split; [exact (HR 1 1 0 0 I1 I1 U0 U0)|].
  exact (proj1 (HZ 3 13 E3 G13)).
Defined.

(** ** The linear front-end: from the supplied bounds to the problem *)

Section FrontEndPipeline.
Context {T : Type} {ST : Scalar T}.
Variable inf : T.
Import Common.

(** The loop of [get] leaves the state and input rows of [lineq] and
    [uineq] as they were. *)
Lemma get_loop_frame (b : ProblemBuilder.t T) (eRef deltaURef uMeas : cvec T)
      (s0 : ProblemBuilder.stepVars T) (t r : nat) :
  let d := ProblemBuilder.dim b in
  let s := for_upto t (ProblemBuilder.get_body b eRef deltaURef uMeas) s0 in
  r < (ph d + 1) * (nu d + nx d) ->
  at_ (ProblemBuilder.slineq s) r = at_ (ProblemBuilder.slineq s0) r /\
  at_ (ProblemBuilder.suineq s) r = at_ (ProblemBuilder.suineq s0) r.
Proof.
  cbv zeta. intros Hr.
  induction t as [|t IH]; [simpl; split; reflexivity | rewrite for_upto_S].
  set (s := for_upto t (ProblemBuilder.get_body b eRef deltaURef uMeas) s0) in *.
  unfold ProblemBuilder.get_body.
  cbn [ProblemBuilder.slineq ProblemBuilder.suineq subMiddleRows at_].
  rewrite !in_rows_before by lia. exact IH.
Qed.

(** [get] returns the state and input rows of the builder's inequality
    bounds unchanged, after the equality segment. *)
Lemma get_passes_rows (x0 u0 yRef uRef deltaURef uMeas : cvec T)
      (b : ProblemBuilder.t T) (r : nat) :
  let d := ProblemBuilder.dim b in
  let p := fst (ProblemBuilder.get x0 u0 yRef uRef deltaURef uMeas b) in
  r < ProblemBuilder.nEq d ->
  at_ (ProblemBuilder.l p) (ProblemBuilder.nEq d + r) = at_ (ProblemBuilder.lineq b) r /\
  at_ (ProblemBuilder.u p) (ProblemBuilder.nEq d + r) = at_ (ProblemBuilder.uineq b) r.
Proof.
  cbv zeta. unfold ProblemBuilder.nEq. intros Hr.
  unfold ProblemBuilder.get, ProblemBuilder.withProblem.
  cbn [fst ProblemBuilder.l ProblemBuilder.u].
  match goal with
  | |- context [for_upto ?t (ProblemBuilder.get_body b ?e deltaURef uMeas) ?s0] =>
      destruct (get_loop_frame b e deltaURef uMeas s0 t r Hr) as (Hl & Hu);
      set (s := for_upto t (ProblemBuilder.get_body b e deltaURef uMeas) s0) in *
  end.
  cbn [ProblemBuilder.slineq ProblemBuilder.suineq] in Hl, Hu.
  unfold setMiddleRows at 1 4. cbn [at_].
  rewrite !in_rows_true by lia.
  match goal with
  | |- context [?a + r - ?a] => replace (a + r - a) with r by lia
  end.
  rewrite Hl, Hu. split; reflexivity.
Qed.

(** X19.  On an initialised front-end whose builder was reached from
    [initialize], with [ph >= 1]: after [setConstraints], the next call of
    [get] returns inequality bounds that hold, for every step [i <= ph],
    the state bounds supplied, then the input bounds supplied, and, in the
    output rows, the output bounds supplied minus the feed-through
    [ssDv * uMeas] of the measured disturbance. *)
Theorem setConstraints_then_get (XMin UMin YMin XMax UMax YMax : cvec T)
        (x0 u0 yRef uRef deltaURef uMeas : cvec T) (c : LMPC.t T) :
  let d := LMPC.dim c in
  let v := mulmv (block (ProblemBuilder.ssDv (LMPC.builder c)) 0 0 (ny d) (ndu d)) uMeas in
  let nEq := ProblemBuilder.nEq d in
  LMPC.initialized c = true ->
  BuilderSpec.reached d (LMPC.builder c) ->
  1 <= ph d ->
  exists c',
    LMPC.setConstraints inf XMin UMin YMin XMax UMax YMax c = Some (true, c') /\
    let p := fst (ProblemBuilder.get x0 u0 yRef uRef deltaURef uMeas (LMPC.builder c')) in
    forall i, i <= ph d ->
      (forall k, k < nx d ->
         at_ (ProblemBuilder.l p) (nEq + (i * (nu d + nx d) + k)) = at_ XMin k /\
         at_ (ProblemBuilder.u p) (nEq + (i * (nu d + nx d) + k)) = at_ XMax k) /\
      (forall k, k < nu d ->
         at_ (ProblemBuilder.l p) (nEq + (i * (nu d + nx d) + (nx d + k))) = at_ UMin k /\
         at_ (ProblemBuilder.u p) (nEq + (i * (nu d + nx d) + (nx d + k))) = at_ UMax k) /\
      (forall k, k < ny d ->
         at_ (ProblemBuilder.l p) (nEq + (nEq + (i * ny d + k)))
         = ssub (at_ YMin k) (at_ v k) /\
         at_ (ProblemBuilder.u p) (nEq + (nEq + (i * ny d + k)))
         = ssub (at_ YMax k) (at_ v k)).
Proof.
  cbv zeta. intros Hc Hr Hph.
  destruct (setConstraints_stored inf XMin UMin YMin XMax UMax YMax c Hc Hr Hph)
    as (bb & He & (_ & Hdb & Hs & _) & Hv & Hall).
  eexists. split; [exact He|]. cbn [LMPC.builder].
  rewrite <- Hv. clear He Hv Hr Hc.
  set (d := LMPC.dim c) in *. clearbody d. subst d.
  set (d := ProblemBuilder.dim bb) in *.
  set (b' := snd (ProblemBuilder.buildTITerms inf bb)).
  assert (Hd' : ProblemBuilder.dim b' = d) by reflexivity.
  assert (Hv' : ProblemBuilder.ssDv b' = ProblemBuilder.ssDv bb) by reflexivity.
  intros i Hi.
  destruct (buildTITerms_state_input_rows inf bb i Hs Hi) as (BX & BU).
  fold d in BX, BU. fold b' in BX, BU.
  assert (Hin : forall a, a < nu d + nx d -> i * (nu d + nx d) + a < ProblemBuilder.nEq d).
  { intros a Ha. unfold ProblemBuilder.nEq. apply block_index_lt; lia. }
  split; [|split]; intros k Hk.
  - pose proof (get_passes_rows x0 u0 yRef uRef deltaURef uMeas b'
                  (i * (nu d + nx d) + k)) as G.
    cbv zeta in G. rewrite Hd' in G.
    destruct (G ltac:(apply Hin; lia)) as (Gl & Gu).
    destruct (BX k Hk) as (Bl & Bu).
    destruct (proj1 (Hall i Hi) k Hk) as (Al & Au).
    rewrite Gl, Gu, Bl, Bu. split; assumption.
  - pose proof (get_passes_rows x0 u0 yRef uRef deltaURef uMeas b'
                  (i * (nu d + nx d) + (nx d + k))) as G.
    cbv zeta in G. rewrite Hd' in G.
    destruct (G ltac:(apply Hin; lia)) as (Gl & Gu).
    destruct (BU k Hk) as (Bl & Bu).
    assert (Hj : (if i =? ph d then ph d - 1 else i) < ph d)
      by (destruct (Nat.eqb_spec i (ph d)); lia).
    destruct (proj2 (proj2 (Hall _ (Nat.lt_le_incl _ _ Hj))) Hj k Hk) as (Al & Au).
    rewrite Gl, Gu, Bl, Bu. split; assumption.
  - pose proof (get_output_rows x0 u0 yRef uRef deltaURef uMeas b' i k) as G.
    cbv zeta in G. rewrite Hd', Hv' in G.
    assert (Hi' : i < ph d + 1) by lia.
    destruct (G Hi' Hk) as (Gl & Gu & _).
    destruct Hs as (_ & _ & _ & _ & (SY1 & SY2)).
    destruct (buildTITerms_output_rows inf bb i k SY1 SY2 Hi Hk) as (Bl & Bu).
    fold d in Bl, Bu. fold b' in Bl, Bu.
    destruct (proj1 (proj2 (Hall i Hi)) k Hk) as (Al & Au).
    unfold ProblemBuilder.nEq in *.
    replace ((ph d + 1) * (nu d + nx d) + ((ph d + 1) * (nu d + nx d) + (i * ny d + k)))
      with ((ph d + 1) * (nu d + nx d) + (i * ny d + (ph d + 1) * (nu d + nx d) + k))
      by lia.
    replace ((ph d + 1) * (nu d + nx d) + (i * ny d + k))
      with (i * ny d + (ph d + 1) * (nu d + nx d) + k) in Bl, Bu by lia.
    rewrite Gl, Gu, Bl, Bu, Al, Au. split; reflexivity.
Qed.

End FrontEndPipeline.

Lemma setConstraints_then_get_witness :
  LMPC.initialized Examples.frontEnd = true /\
  1 <= Common.ph (LMPC.dim Examples.frontEnd) /\
  exists c',
    LMPC.setConstraints infinity
      (vecOf [-1; -2]%float 0%float) (vecOf [-3]%float 0%float) (vecOf [-4]%float 0%float)
      (vecOf [1; 2]%float 0%float) (vecOf [3]%float 0%float) (vecOf [4]%float 0%float)
      Examples.frontEnd = Some (true, c') /\
    let p := fst (ProblemBuilder.get (Examples.zeros 2) (Examples.zeros 1) (Examples.zeros 1)
                    (Examples.zeros 1) (Examples.zeros 1) (vecOf [1%float] 0%float)
                    (LMPC.builder c')) in
    at_ (ProblemBuilder.l p) 22 = (-2)%float /\
    at_ (ProblemBuilder.u p) 23 = 3%float /\
    at_ (ProblemBuilder.l p) 27 = (-4)%float.
Proof.
  assert (Hr : BuilderSpec.reached (LMPC.dim Examples.frontEnd)
                 (LMPC.builder Examples.frontEnd)).
  { split; [reflexivity|]. split; [reflexivity|]. split.
    - repeat split; reflexivity.
    - intros i j _. reflexivity. }
  assert (Hph : 1 <= Common.ph (LMPC.dim Examples.frontEnd)) by (vm_compute; lia).
  split; [reflexivity|]. split; [exact Hph|].
  destruct (setConstraints_then_get infinity
              (vecOf [-1; -2]%float 0%float) (vecOf [-3]%float 0%float)
              (vecOf [-4]%float 0%float)
              (vecOf [1; 2]%float 0%float) (vecOf [3]%float 0%float)
              (vecOf [4]%float 0%float)
              (Examples.zeros 2) (Examples.zeros 1) (Examples.zeros 1)
              (Examples.zeros 1) (Examples.zeros 1) (vecOf [1%float] 0%float)
              Examples.frontEnd eq_refl Hr Hph) as (c' & He & Hall).
  exists c'. split; [exact He|]. cbv zeta in Hall |- *.
  assert (L3 : 3 <= Common.ph (LMPC.dim Examples.frontEnd)) by (vm_compute; lia).
  assert (K1 : 1 < Common.nx (LMPC.dim Examples.frontEnd)) by (vm_compute; lia).
  assert (K0 : 0 < Common.ny (LMPC.dim Examples.frontEnd)) by (vm_compute; lia).
  assert (U0 : 0 < Common.nu (LMPC.dim Examples.frontEnd)) by (vm_compute; lia).
  destruct (Hall 3 L3) as (HX & HU & HY).
  split; [exact (proj1 (HX 1 K1))|].
  split; [exact (proj2 (HU 0 U0))|].
  exact (proj1 (HY 0 K0)).
Defined.

(** ** The linear builder: any sequence of calls after start-up *)

Section BuilderLife.
Context {T : Type} {ST : Scalar T}.
Variable inf : T.
Import Common.

(** On an initialised builder no call aborts. *)
Lemma perform_returns (c : ProblemBuilder.call T) (b : ProblemBuilder.t T) :
  ProblemBuilder.initialized b = true ->
  exists b', ProblemBuilder.perform inf c b = Some b'.
Proof.
  intros Hi.
  destruct c; cbn [ProblemBuilder.perform];
    unfold ProblemBuilder.setStateModel, ProblemBuilder.setExogenuosInput,
      ProblemBuilder.setObjective, ProblemBuilder.setConstraints, checkOrQuit;
    rewrite ?Hi; cbn [option_map]; eexists; reflexivity.
Qed.

(** X20.  Starting from [initialize], every sequence of calls of
    [setStateModel], [setExogenuosInput], [setObjective], [setConstraints]
    and [get], whatever their arguments, runs without abort and leaves a
    builder that is initialised for the same dimensions, whose [ssA], [ssB],
    [ssC] and state and output bounds keep the sizes [onInit] gave them, and
    whose [ssC] is zero outside the two blocks [setStateModel] assigns. *)
Theorem performAll_from_initialize (d : Dims) (cs : list (ProblemBuilder.call T)) :
  exists b,
    ProblemBuilder.performAll inf cs (ProblemBuilder.initialize d) = Some b /\
    BuilderSpec.reached d b.
Proof.
  assert (G : forall b0, BuilderSpec.reached d b0 ->
            exists b, ProblemBuilder.performAll inf cs b0 = Some b /\
                      BuilderSpec.reached d b).
  { induction cs as [|c cs IH]; intros b0 Hr.
    - exists b0. split; [reflexivity | exact Hr].
    - destruct (perform_returns c b0 (proj1 Hr)) as (b1 & E1).
      destruct (IH b1 (perform_reached inf d c b0 b1 Hr E1)) as (b & E & Hb).
      exists b. cbn [ProblemBuilder.performAll]. rewrite E1. split; assumption. }
  apply G. apply initialize_reached.
Qed.

End BuilderLife.
